(** * Employment-history chronology of the ATS checker (src/ats-checker.js)

  A shallow embedding of the chronology core of [ats-checker.js]:
  the entry parser, the structured-entry extractor, the deduplicator,
  the interval aggregator, the gap finder and the progression analyzer,
  and the validation of the input texts, with the properties the
  specification states about them and further properties of the code.

  Conventions of the embedding.
  - A JavaScript string is the list of its UTF-16 code units ([list N]).
  - A [Date] is kept as its local-calendar decomposition (see [Date]).
  - [null]/[undefined] are [None]; a function that could throw returns
    a [res], whose [TypeError] is the exception.
  - A [Map] and a plain object used as a map are association lists in
    insertion order.
  - The clock reading of [new Date()] is an input of the functions that
    read the clock.

  The first part holds the program, the second the statements'
  vocabulary, the third the properties. *)

From Stdlib Require Import String Ascii.
From Stdlib Require Import List ZArith NArith Bool Lia Arith.
From Stdlib Require Import Permutation.
Import ListNotations.

Set Implicit Arguments.

(** [length] is the length of a list throughout. *)
Abbreviation length := Datatypes.length.

Open Scope Z_scope.

(* ================================================================== *)
(** * Exceptions                                                      *)
(* ================================================================== *)

(** A computation that returns a value or throws a [TypeError] (calling
    a method of [undefined], calling something that is not a function). *)
Inductive res (A : Type) : Type :=
| Val (a : A)
| TypeError.

Arguments TypeError {A}.

Definition bind (A B : Type) (c : res A) (k : A -> res B) : res B :=
  match c with
  | Val a => k a
  | TypeError => TypeError
  end.

Notation "x <- c ;; k" := (bind c (fun x => k))
  (at level 61, c at next level, right associativity).

(** The receiver of a method call or of a property read: [undefined]
    throws. *)
Definition defined (A : Type) (o : option A) : res A :=
  match o with
  | Some a => Val a
  | None => TypeError
  end.

(* ================================================================== *)
(** * Strings as lists of UTF-16 code units                           *)
(* ================================================================== *)

Module Str.

Definition char := N.
Definition str := list char.

(** An ASCII literal as a JavaScript string. *)
Definition u (s : String.string) : str :=
  map N_of_ascii (String.list_ascii_of_string s).

Arguments u s%_string.

Definition eqb (a b : str) : bool :=
  if list_eq_dec N.eq_dec a b then true else false.

(** [s.startsWith(p)] *)
Fixpoint startsWith (p s : str) : bool :=
  match p, s with
  | [], _ => true
  | _ :: _, [] => false
  | a :: p', b :: s' => N.eqb a b && startsWith p' s'
  end.

(** [s.includes(p)] *)
Fixpoint includes (p s : str) : bool :=
  startsWith p s ||
  match s with
  | [] => false
  | _ :: s' => includes p s'
  end.

(** [\s] of a regular expression, which is also what [trim] strips:
    WhiteSpace and LineTerminator of ECMAScript. *)
Definition isSpace (c : char) : bool :=
  ((9 <=? c) && (c <=? 13) || (c =? 32) || (c =? 160) || (c =? 5760)
   || ((8192 <=? c) && (c <=? 8202)) || (c =? 8232) || (c =? 8233)
   || (c =? 8239) || (c =? 8287) || (c =? 12288) || (c =? 65279))%N.

Definition isDigit (c : char) : bool := ((48 <=? c) && (c <=? 57))%N.

Definition isLower (c : char) : bool := ((97 <=? c) && (c <=? 122))%N.
Definition isUpper (c : char) : bool := ((65 <=? c) && (c <=? 90))%N.

(** [toLowerCase] on the code units the program applies it to (the
    month words matched by [[a-z]] under the [i] flag are ASCII). *)
Definition lowerChar (c : char) : char :=
  if isUpper c then (c + 32)%N else c.
Definition toLowerCase (s : str) : str := map lowerChar s.

Fixpoint dropSpaces (s : str) : str :=
  match s with
  | c :: s' => if isSpace c then dropSpaces s' else s
  | [] => []
  end.

(** [s.trim()] *)
Definition trim (s : str) : str :=
  rev (dropSpaces (rev (dropSpaces s))).

End Str.

Abbreviation str := Str.str.
Abbreviation u := Str.u.

(* ================================================================== *)
(** * Dates                                                           *)
(* ================================================================== *)

(** A valid [Date] object, by its decomposition in local time:
  [months] is [12 * getFullYear() + getMonth()] and [millis] the
  milliseconds elapsed since the start of that month.  The time value
  ([getTime()], which [<], [<=], [-] and the keys of the deduplicator
  read) orders dates lexicographically on this pair, and two dates
  have the same time value exactly when the pairs agree. *)
Record Date : Type := mkDate { months : Z; millis : Z }.

Definition getFullYear (d : Date) : Z := months d / 12.
Definition getMonth (d : Date) : Z := months d mod 12.

Definition Date_eq_dec (a b : Date) : {a = b} + {a <> b}.
Proof. decide equality; apply Z.eq_dec. Defined.

Definition Date_ltb (a b : Date) : bool :=
  (months a <? months b) || ((months a =? months b) && (millis a <? millis b)).

Definition Date_leb (a b : Date) : bool :=
  (months a <? months b) || ((months a =? months b) && (millis a <=? millis b)).

Definition Date_lt (a b : Date) : Prop :=
  months a < months b \/ (months a = months b /\ millis a < millis b).

Definition Date_le (a b : Date) : Prop :=
  months a < months b \/ (months a = months b /\ millis a <= millis b).

(** [new Date(year, monthIndex)]: local midnight of the first day of the
  month; a month index outside 0..11 carries into the year, and a year
  0..99 means 1900 + year. *)
Definition newDate (year monthIndex : Z) : Date :=
  let y := if (0 <=? year) && (year <=? 99) then 1900 + year else year in
  mkDate (y * 12 + monthIndex) 0.

(** [calculateDuration(startDate, endDate)] *)
Definition calculateDuration (startDate endDate : Date) : Z :=
  let yearDiff := getFullYear endDate - getFullYear startDate in
  let monthDiff := getMonth endDate - getMonth startDate in
  yearDiff * 12 + monthDiff.

(* ================================================================== *)
(** * Employment periods                                              *)
(* ================================================================== *)

Record Period : Type := mkPeriod {
  startDate : Date;
  endDate : Date;
  duration : Z;
  originalText : str;
  context : str;
  jobTitle : option str;
  company : option str
}.

(** Truthiness of a nullable string: [null] and [""] are falsy. *)
Definition truthy (s : option str) : bool :=
  match s with
  | Some (_ :: _) => true
  | _ => false
  end.

(** [s || "unknown"] *)
Definition orUnknown (s : option str) : str :=
  match s with
  | Some (c :: r) => c :: r
  | _ => u "unknown"
  end.

(** A period as the parsers build it: [duration] is the duration of its
  dates. *)
Definition periodOf (s e : Date) (t c : option str) : Period :=
  mkPeriod s e (calculateDuration s e) [] [] t c.

(* ================================================================== *)
(** * [Array.prototype.sort]                                          *)
(* ================================================================== *)

(** The sort of the language is stable, so its result is determined by
  the comparator: [cmp a b] is the sign test [compare(a, b) <= 0]. *)
Section Sort.
Variable A : Type.
Variable cmp : A -> A -> bool.

Fixpoint insert (x : A) (l : list A) : list A :=
  match l with
  | [] => [x]
  | y :: ys => if cmp x y then x :: y :: ys else y :: insert x ys
  end.

Fixpoint sort (l : list A) : list A :=
  match l with
  | [] => []
  | x :: xs => insert x (sort xs)
  end.
End Sort.

(* ================================================================== *)
(** * Interval aggregator                                             *)
(* ================================================================== *)

(** The loop of [calculateTotalExperience]: state is
  [(totalMonths, currentEndDate)]. *)
Definition totalStep (st : Z * Date) (period : Period) : Z * Date :=
  let '(totalMonths, currentEndDate) := st in
  if Date_ltb currentEndDate (startDate period) then
    (totalMonths + calculateDuration (startDate period) (endDate period),
     endDate period)
  else if Date_ltb currentEndDate (endDate period) then
    (totalMonths + calculateDuration currentEndDate (endDate period),
     endDate period)
  else st.

Definition byStartAsc (a b : Period) : bool :=
  Date_leb (startDate a) (startDate b).

(** [calculateTotalExperience]: the empty list returns 0 at once (its
    sorted copy is empty as well). *)
Definition calculateTotalExperience (employmentPeriods : list Period) : Z :=
  match sort byStartAsc employmentPeriods with
  | [] => 0
  | (first :: _) as sortedPeriods =>
      fst (fold_left totalStep sortedPeriods (0, startDate first))
  end.


(* ================================================================== *)
(** * Deduplicator                                                    *)
(* ================================================================== *)

(** The key of phase 1 is the template string
    [`${start.getTime()}-${end.getTime()}-${jobTitle || "unknown"}`].
    The two time values are printed in decimal and each is followed by a
    hyphen, so the string determines the three components and is kept
    here as the triple. *)
Definition Key : Type := Date * Date * str.

Definition dedupKey (period : Period) : Key :=
  (startDate period, endDate period, orUnknown (jobTitle period)).

Definition Key_eqb (a b : Key) : bool :=
  let '(s1, e1, t1) := a in
  let '(s2, e2, t2) := b in
  (if Date_eq_dec s1 s2 then true else false)
  && (if Date_eq_dec e1 e2 then true else false)
  && Str.eqb t1 t2.

(** A [Map]: entries in insertion order; [set] on a present key keeps
    the entry's place. *)
Section InsertionOrdered.
Variables K V : Type.
Variable keq : K -> K -> bool.

Fixpoint mapGet (k : K) (m : list (K * V)) : option V :=
  match m with
  | [] => None
  | (k', v) :: m' => if keq k k' then Some v else mapGet k m'
  end.

Fixpoint mapSet (k : K) (v : V) (m : list (K * V)) : list (K * V) :=
  match m with
  | [] => [(k, v)]
  | (k', v') :: m' =>
      if keq k k' then (k', v) :: m' else (k', v') :: mapSet k v m'
  end.

Definition mapValues (m : list (K * V)) : list V := map snd m.
End InsertionOrdered.

(** Body of the [forEach] of step 1. *)
Definition uniqueStep (uniqueByDates : list (Key * Period)) (period : Period)
  : list (Key * Period) :=
  let key := dedupKey period in
  match mapGet Key_eqb key uniqueByDates with
  | Some existing =>
      if (negb (truthy (jobTitle existing)) || negb (truthy (company existing)))
         && (truthy (jobTitle period) && truthy (company period))
      then mapSet Key_eqb key period uniqueByDates
      else uniqueByDates
  | None => mapSet Key_eqb key period uniqueByDates
  end.

Definition uniqueByDates (periods : list Period) : list (Key * Period) :=
  fold_left uniqueStep periods [].

(** [periodsByCompany] is a plain object.  Reading a property that is
    not its own falls through to [Object.prototype]: for these names the
    read is truthy, no array is created, and [.push] is not a function,
    so the call throws. *)
Definition inheritedNames : list str :=
  [u "constructor"; u "__defineGetter__"; u "__defineSetter__";
   u "hasOwnProperty"; u "__lookupGetter__"; u "__lookupSetter__";
   u "isPrototypeOf"; u "propertyIsEnumerable"; u "toString";
   u "valueOf"; u "__proto__"; u "toLocaleString"].

Definition inherited (name : str) : bool :=
  existsb (Str.eqb name) inheritedNames.

(** Body of the [forEach] that groups by company. *)
Definition groupStep (acc : res (list (str * list Period)))
  (period : Period) : res (list (str * list Period)) :=
  periodsByCompany <- acc ;;
  let company := orUnknown (company period) in
  if inherited company then TypeError
  else
    match mapGet Str.eqb company periodsByCompany with
    | None => Val (mapSet Str.eqb company [period] periodsByCompany)
    | Some arr => Val (mapSet Str.eqb company (arr ++ [period]) periodsByCompany)
    end.

(** A property name that is a canonical array index (["0"], or decimal
    digits without a leading zero, at most 2^32 - 2). *)
Fixpoint digitsValue (acc : N) (s : str) : option N :=
  match s with
  | [] => Some acc
  | c :: s' =>
      if Str.isDigit c then digitsValue (acc * 10 + (c - 48))%N s' else None
  end.

Definition arrayIndex (name : str) : option N :=
  match name with
  | [] => None
  | c :: r =>
      if (c =? 48)%N && negb (length r =? 0)%nat then None
      else
        match digitsValue 0%N name with
        | Some n => if (n <=? 4294967294)%N then Some n else None
        | None => None
        end
  end.

Definition indexProps (V : Type) (obj : list (str * V)) : list (N * V) :=
  flat_map (fun kv => match arrayIndex (fst kv) with
                      | Some n => [(n, snd kv)]
                      | None => []
                      end) obj.

Definition nameProps (V : Type) (obj : list (str * V)) : list (str * V) :=
  filter (fun kv => match arrayIndex (fst kv) with
                    | Some _ => false
                    | None => true
                    end) obj.

(** [Object.values(obj)]: array-index names in ascending numeric order,
    then the other names in the order they were created. *)
Definition objectValues (V : Type) (obj : list (str * V)) : list V :=
  map snd (sort (fun a b => (fst a <=? fst b)%N) (indexProps obj))
  ++ map snd (nameProps obj).

(** The containment test of the inner loop. *)
Definition containedIn (current other : Period) : bool :=
  Date_leb (startDate other) (startDate current)
  && Date_leb (endDate current) (endDate other).

(** Inner loop over [j], started at [j]: is [current] (at index [i])
    contained in an entry at another index? *)
Fixpoint isContained (i : nat) (current : Period) (j : nat)
  (companyPeriods : list Period) : bool :=
  match companyPeriods with
  | [] => false
  | other :: rest =>
      if (negb (i =? j)%nat) && containedIn current other then true
      else isContained i current (S j) rest
  end.

(** Outer loop over [i], started at [i] on the remaining entries. *)
Fixpoint toKeep (companyPeriods : list Period) (i : nat)
  (remaining : list Period) : list Period :=
  match remaining with
  | [] => []
  | current :: rest =>
      if isContained i current 0 companyPeriods
      then toKeep companyPeriods (S i) rest
      else current :: toKeep companyPeriods (S i) rest
  end.

Definition byDurationDesc (a b : Period) : bool :=
  duration b <=? duration a.

(** Body of the [forEach] over the company groups. *)
Definition dedupCompany (companyPeriods : list Period) : list Period :=
  if (length companyPeriods <=? 1)%nat then companyPeriods
  else
    let sorted := sort byDurationDesc companyPeriods in
    toKeep sorted 0 sorted.

(** [deduplicateEmploymentPeriods(periods)] *)
Definition deduplicateEmploymentPeriods (periods : list Period)
  : res (list Period) :=
  if (length periods <=? 1)%nat then Val periods
  else
    let values := mapValues (uniqueByDates periods) in
    periodsByCompany <- fold_left groupStep values (Val []) ;;
    Val (flat_map dedupCompany (objectValues periodsByCompany)).

(* ================================================================== *)
(** * Progression analyzer                                            *)
(* ================================================================== *)

(** [averageJobDuration] is a quotient of two integers, kept exact as
    numerator and denominator ([0/1] and [d/1] in the short-list case). *)
Record ProgressionResult : Type := mkProgression {
  hasProgression : bool;
  pattern : str;
  averageJobDuration : Z * Z
}.

(** The object literal [titleLevels]; none of its names is an array
    index, so [Object.entries] lists them as written. *)
Definition titleLevels : list (str * Z) :=
  [(u "junior", 1); (u "", 2); (u "senior", 3); (u "lead", 4);
   (u "principal", 5); (u "manager", 5); (u "director", 6);
   (u "vp", 7); (u "cto", 8)].

(** The loop that scores one title, from [levelScore = 2]. *)
Definition levelStep (title : str) (levelScore : Z) (entry : str * Z) : Z :=
  let '(levelTitle, score) := entry in
  if Str.includes levelTitle title then Z.max levelScore score
  else levelScore.

Definition levelScoreOf (title : str) : Z :=
  fold_left (levelStep title) titleLevels 2.

Record TitleLevel : Type := mkTitleLevel {
  tl_title : str;
  tl_level : Z;
  tl_date : Date
}.

(** The loop that fills [titleProgression]. *)
Fixpoint titleProgressionOf (employmentPeriods : list Period)
  : list TitleLevel :=
  match employmentPeriods with
  | [] => []
  | period :: rest =>
      match jobTitle period with
      | Some (c :: r) =>
          mkTitleLevel (c :: r) (levelScoreOf (c :: r)) (startDate period)
          :: titleProgressionOf rest
      | _ => titleProgressionOf rest
      end
  end.

Definition byDateAsc (a b : TitleLevel) : bool :=
  Date_leb (tl_date a) (tl_date b).

(** The loop over consecutive pairs: [(increases, decreases)]. *)
Fixpoint countChanges (titleProgression : list TitleLevel) (acc : nat * nat)
  : nat * nat :=
  match titleProgression with
  | a :: (b :: _) as rest =>
      let '(increases, decreases) := acc in
      if tl_level a <? tl_level b then countChanges rest (S increases, decreases)
      else if tl_level b <? tl_level a
           then countChanges rest (increases, S decreases)
           else countChanges rest acc
  | _ => acc
  end.

Definition sumDurations (employmentPeriods : list Period) : Z :=
  fold_left (fun sum period => sum + duration period) employmentPeriods 0.

(** [analyzeCareerProgression(employmentPeriods)].  The ratio test
    [shortTermJobs / length >= 0.5] is the integer test
    [2 * shortTermJobs >= length]. *)
Definition analyzeCareerProgression (employmentPeriods : list Period)
  : ProgressionResult :=
  if (length employmentPeriods <=? 1)%nat then
    mkProgression false (u "Insufficient data")
      (match employmentPeriods with
       | [p] => (duration p, 1)
       | _ => (0, 1)
       end)
  else
    let totalDuration := sumDurations employmentPeriods in
    let averageJobDuration :=
      (totalDuration, Z.of_nat (length employmentPeriods)) in
    let titlesAvailable :=
      length (filter (fun p => truthy (jobTitle p)) employmentPeriods) in
    let '(hasProgression, progressionPattern) :=
      if (2 <=? titlesAvailable)%nat then
        let titleProgression :=
          sort byDateAsc (titleProgressionOf employmentPeriods) in
        let '(increases, decreases) := countChanges titleProgression (0, 0)%nat in
        if (decreases <? increases)%nat then (true, u "Upward")
        else if (increases <? decreases)%nat then (false, u "Varied")
        else (false, u "Stable")
      else (false, u "Stable") in
    let shortTermJobs :=
      length (filter (fun p => duration p <? 12) employmentPeriods) in
    let jobHoppingPattern :=
      (3 <=? shortTermJobs)%nat
      || ((3 <=? length employmentPeriods)%nat
          && (length employmentPeriods <=? 2 * shortTermJobs)%nat) in
    mkProgression hasProgression
      (if jobHoppingPattern
       then progressionPattern ++ u ", Frequent changes"
       else progressionPattern)
      averageJobDuration.

(* ================================================================== *)
(** * Regular expressions                                             *)
(* ================================================================== *)

(** The fragment of the pattern language the program uses, with the
    backtracking semantics of the language: alternatives left to right,
    greedy quantifiers longest first, lazy ones shortest first, the
    first complete match wins.  Every quantifier of the program stands on
    a single character or character class. *)
Module Re.

Inductive regex : Type :=
| Eps
| Cls (c : Str.char -> bool)
| Seq (a b : regex)
| Alt (a b : regex)
| Rep (greedy : bool) (lo : nat) (hi : option nat) (c : Str.char -> bool)
| Grp (n : nat) (a : regex)
| Bol
| Eol
| Ahead (a : regex).

Definition caps : Type := list (nat * str).

Definition canTake (hi : option nat) : bool :=
  match hi with
  | Some O => false
  | _ => true
  end.

Definition lessOne (hi : option nat) : option nat :=
  match hi with
  | Some n => Some (pred n)
  | None => None
  end.

Section Quantifier.
Variable R : Type.
Variable c : Str.char -> bool.
Variable k : nat -> str -> option R.

Fixpoint repGreedy (lo : nat) (hi : option nat) (i : nat) (s : str)
  : option R :=
  let stop := match lo with O => k i s | S _ => None end in
  match s with
  | x :: s' =>
      if c x && canTake hi then
        match repGreedy (pred lo) (lessOne hi) (S i) s' with
        | Some r => Some r
        | None => stop
        end
      else stop
  | [] => stop
  end.

Fixpoint repLazy (lo : nat) (hi : option nat) (i : nat) (s : str)
  : option R :=
  let more :=
    match s with
    | x :: s' =>
        if c x && canTake hi
        then repLazy (pred lo) (lessOne hi) (S i) s'
        else None
    | [] => None
    end in
  match lo with
  | O => match k i s with
         | Some r => Some r
         | None => more
         end
  | S _ => more
  end.
End Quantifier.

(** [run r k cs i s]: match [r] at index [i], where [s] is the input
    from [i] on, then continue with [k]; [cs] holds the captures. *)
Fixpoint run (r : regex) (R : Type) (k : caps -> nat -> str -> option R)
  (cs : caps) (i : nat) (s : str) : option R :=
  match r with
  | Eps => k cs i s
  | Cls c =>
      match s with
      | x :: s' => if c x then k cs (S i) s' else None
      | [] => None
      end
  | Seq a b => run a (fun cs' i' s' => run b k cs' i' s') cs i s
  | Alt a b =>
      match run a k cs i s with
      | Some r => Some r
      | None => run b k cs i s
      end
  | Rep true lo hi c => repGreedy c (k cs) lo hi i s
  | Rep false lo hi c => repLazy c (k cs) lo hi i s
  | Grp n a =>
      run a (fun cs' i' s' => k ((n, firstn (i' - i) s) :: cs') i' s') cs i s
  | Bol => if (i =? 0)%nat then k cs i s else None
  | Eol => match s with [] => k cs i s | _ :: _ => None end
  | Ahead a =>
      match run a (fun cs' _ _ => Some cs') cs i s with
      | Some cs' => k cs' i s
      | None => None
      end
  end.

(** A successful match: index, matched text, captures. *)
Record result : Type := mkResult {
  index : nat;
  whole : str;
  groups : caps
}.

Definition matchAt (r : regex) (i : nat) (s : str) : option result :=
  run r (fun cs j _ => Some (mkResult i (firstn (j - i) s) cs)) [] i s.

(** [RegExp.prototype.exec] from index [i] on: the leftmost match. *)
Fixpoint searchFrom (r : regex) (i : nat) (s : str) : option result :=
  match matchAt r i s with
  | Some m => Some m
  | None =>
      match s with
      | [] => None
      | _ :: s' => searchFrom r (S i) s'
      end
  end.

(** [s.match(r)] for a pattern without the [g] flag. *)
Definition exec (r : regex) (s : str) : option result := searchFrom r 0 s.

(** [m[n]] for [n >= 1]: the last capture of group [n]. *)
Fixpoint lookup (n : nat) (cs : caps) : option str :=
  match cs with
  | [] => None
  | (n', v) :: cs' => if (n =? n')%nat then Some v else lookup n cs'
  end.

Definition group (n : nat) (m : result) : option str := lookup n (groups m).

Definition test (r : regex) (s : str) : bool :=
  match exec r s with
  | Some _ => true
  | None => false
  end.

(** Character classes.  Under the [i] flag a pattern character that is
    an ASCII letter matches its two cases and nothing else. *)
Definition chr (x : Str.char) : regex := Cls (N.eqb x).
Definition ichr (x : Str.char) : regex :=
  Cls (fun y => N.eqb (Str.lowerChar y) (Str.lowerChar x)).

Fixpoint lit (s : str) : regex :=
  match s with
  | [] => Eps
  | [x] => chr x
  | x :: s' => Seq (chr x) (lit s')
  end.

Fixpoint ilit (s : str) : regex :=
  match s with
  | [] => Eps
  | [x] => ichr x
  | x :: s' => Seq (ichr x) (ilit s')
  end.

Fixpoint alts (l : list regex) : regex :=
  match l with
  | [] => Eps
  | [r] => r
  | r :: l' => Alt r (alts l')
  end.

Fixpoint seqs (l : list regex) : regex :=
  match l with
  | [] => Eps
  | [r] => r
  | r :: l' => Seq r (seqs l')
  end.

(** [.]: anything but a line terminator. *)
Definition dot (x : Str.char) : bool :=
  negb ((x =? 10) || (x =? 13) || (x =? 8232) || (x =? 8233))%N.
(** [[\s\S]] *)
Definition any (x : Str.char) : bool := true.
(** [[a-z]] under the [i] flag *)
Definition letter (x : Str.char) : bool := Str.isLower x || Str.isUpper x.

Definition star (c : Str.char -> bool) : regex := Rep true 0 None c.
Definition plus (c : Str.char -> bool) : regex := Rep true 1 None c.
Definition lazyPlus (c : Str.char -> bool) : regex := Rep false 1 None c.
Definition between (lo hi : nat) (c : Str.char -> bool) : regex :=
  Rep true lo (Some hi) c.

End Re.

(* ================================================================== *)
(** * Entry parser                                                    *)
(* ================================================================== *)

Definition code (a : ascii) : Str.char := N_of_ascii a.
Arguments code a%_char.

(** [s.split(sep)] for a one-character separator. *)
Fixpoint splitAt (sep : Str.char) (cur : str) (s : str) : list str :=
  match s with
  | [] => [rev cur]
  | x :: s' =>
      if N.eqb x sep then rev cur :: splitAt sep [] s'
      else splitAt sep (x :: cur) s'
  end.

Definition split (sep : Str.char) (s : str) : list str := splitAt sep [] s.

(** [s.split(/\s+/)]: every maximal run of white space separates. *)
Fixpoint splitSpacesAt (inRun : bool) (cur : str) (s : str) : list str :=
  match s with
  | [] => [rev cur]
  | x :: s' =>
      if Str.isSpace x then
        if inRun then splitSpacesAt true cur s'
        else rev cur :: splitSpacesAt true [] s'
      else splitSpacesAt false (x :: cur) s'
  end.

Definition splitSpaces (s : str) : list str := splitSpacesAt false [] s.

(** [parseInt(s)]: leading white space, a sign, then the longest run of
    digits (hexadecimal after [0x]); [None] is [NaN], which is also the
    value at [undefined].  The value is the exact integer, as it is for
    the runs of at most four digits the program passes. *)
Definition hexValue (x : Str.char) : option Z :=
  if Str.isDigit x then Some (Z.of_N x - 48)
  else if ((97 <=? x) && (x <=? 102))%N then Some (Z.of_N x - 87)
  else if ((65 <=? x) && (x <=? 70))%N then Some (Z.of_N x - 55)
  else None.

Definition digitValue (radix : Z) (x : Str.char) : option Z :=
  match hexValue x with
  | Some v => if v <? radix then Some v else None
  | None => None
  end.

Fixpoint digitRun (radix : Z) (acc : option Z) (s : str) : option Z :=
  match s with
  | [] => acc
  | x :: s' =>
      match digitValue radix x with
      | Some v =>
          digitRun radix
            (Some (match acc with Some a => a * radix + v | None => v end)) s'
      | None => acc
      end
  end.

Definition unsignedInt (s : str) : option Z :=
  match s with
  | 48%N :: x :: s' =>
      if (x =? 120)%N || (x =? 88)%N then digitRun 16 None s'
      else digitRun 10 None s
  | _ => digitRun 10 None s
  end.

Definition parseInt (arg : option str) : option Z :=
  match arg with
  | None => None
  | Some s =>
      match Str.dropSpaces s with
      | 45%N :: s' => option_map Z.opp (unsignedInt s')
      | 43%N :: s' => unsignedInt s'
      | s' => unsignedInt s'
      end
  end.

(** [new Date(year, monthIndex)] on numbers that may be [NaN]; [None] is
    the invalid date.  (The year fields of the program have four digits,
    far inside the range of time values.) *)
Definition newDateOf (year monthIndex : option Z) : option Date :=
  match year, monthIndex with
  | Some y, Some m => Some (newDate y m)
  | _, _ => None
  end.

(** The table of [getMonthIndex]. *)
Definition monthTable : list (str * Z) :=
  [(u "january", 0); (u "february", 1); (u "march", 2); (u "april", 3);
   (u "may", 4); (u "june", 5); (u "july", 6); (u "august", 7);
   (u "september", 8); (u "october", 9); (u "november", 10);
   (u "december", 11);
   (u "jan", 0); (u "feb", 1); (u "mar", 2); (u "apr", 3); (u "jun", 5);
   (u "jul", 6); (u "aug", 7); (u "sep", 8); (u "sept", 8); (u "oct", 9);
   (u "nov", 10); (u "dec", 11)].

(** [getMonthIndex(monthStr)]: [months[...] || 0].  Its argument begins
    with a month abbreviation wherever it is called, so the lookup never
    reaches an inherited property. *)
Definition getMonthIndex (monthStr : str) : Z :=
  match mapGet Str.eqb (Str.toLowerCase monthStr) monthTable with
  | Some n => n
  | None => 0
  end.

Definition monthWords : list str :=
  [u "jan"; u "feb"; u "mar"; u "apr"; u "may"; u "jun";
   u "jul"; u "aug"; u "sep"; u "oct"; u "nov"; u "dec"].

(** [(?:jan|...|dec)[a-z]*\s+\d{4}] *)
Definition monthYearRe : Re.regex :=
  Re.seqs [Re.alts (map Re.ilit monthWords); Re.star Re.letter;
           Re.plus Str.isSpace; Re.between 4 4 Str.isDigit].

(** [\d{1,2}\/\d{4}] *)
Definition numericRe : Re.regex :=
  Re.seqs [Re.between 1 2 Str.isDigit; Re.chr (code "/");
           Re.between 4 4 Str.isDigit].

(** [[-–—to]] under the [i] flag *)
Definition dashOrTo (x : Str.char) : bool :=
  ((x =? 45) || (x =? 8211) || (x =? 8212)
   || (Str.lowerChar x =? 116) || (Str.lowerChar x =? 111))%N.

Definition presentRe : Re.regex :=
  Re.Alt (Re.ilit (u "present")) (Re.ilit (u "current")).

(** The pattern of [dateMatch]. *)
Definition dateRangeRe : Re.regex :=
  Re.seqs [Re.Grp 1 (Re.Alt monthYearRe numericRe);
           Re.star Str.isSpace; Re.star dashOrTo; Re.star Str.isSpace;
           Re.Grp 2 (Re.alts [monthYearRe; numericRe;
                              Re.ilit (u "present"); Re.ilit (u "current")])].

(** [/^\d{1,2}\/\d{4}$/] *)
Definition numericOnlyRe : Re.regex :=
  Re.seqs [Re.Bol; numericRe; Re.Eol].

(** The two branches that read one date of the range. *)
Definition numericDate (dateStr : str) : option Date :=
  let parts := split (code "/") dateStr in
  let month := nth_error parts 0 in
  let year := nth_error parts 1 in
  newDateOf (parseInt year) (option_map (fun m => m - 1) (parseInt month)).

Definition monthNameDate (dateStr : str) : res (option Date) :=
  let parts := splitSpaces (Str.trim dateStr) in
  word <- defined (nth_error parts 0) ;;
  let month := getMonthIndex word in
  let year := parseInt (nth_error parts 1) in
  Val (newDateOf year (Some month)).

Definition parseStart (startDateStr : option str) : res (option Date) :=
  s <- defined startDateStr ;;
  if Re.test numericOnlyRe s then Val (numericDate s)
  else monthNameDate s.

Definition parseEnd (now : Date) (endDateStr : str) : res (option Date) :=
  if Re.test presentRe endDateStr then Val (Some now)
  else if Re.test numericOnlyRe endDateStr then Val (numericDate endDateStr)
  else match endDateStr with
       | _ :: _ => monthNameDate endDateStr
       | [] => Val (Some now)
       end.

(** The first part of [parseEmploymentEntry], run when the clock reads
    [now]: match the date range and read its two dates.  [Val None] when
    the pattern does not match; a date is [None] when it is invalid. *)
Definition parseDateRange (now : Date) (dateRange : str)
  : res (option (option Date * option Date)) :=
  match Re.exec dateRangeRe dateRange with
  | None => Val None
  | Some dateMatch =>
      let startDateStr := Re.group 1 dateMatch in
      let endDateStr :=
        match Re.group 2 dateMatch with
        | Some (c :: r) => c :: r
        | _ => u "present"
        end in
      startDate <- parseStart startDateStr ;;
      endDate <- parseEnd now endDateStr ;;
      Val (Some (startDate, endDate))
  end.

(** [parseEmploymentEntry(position, company, dateRange)]; [Val None] is
    [null]. *)
Definition parseEmploymentEntry (now : Date) (position company dateRange : str)
  : res (option Period) :=
  dates <- parseDateRange now dateRange ;;
  match dates with
  | None => Val None
  | Some (Some startDate, Some endDate) =>
      if Date_ltb endDate startDate then Val None
      else Val (Some (mkPeriod startDate endDate
                        (calculateDuration startDate endDate)
                        (position ++ u " | " ++ company ++ u " | " ++ dateRange)
                        (position ++ u " at " ++ company ++ u " from "
                           ++ dateRange)
                        (Some position) (Some company)))
  | Some _ => Val None
  end.

(** The [MM/YYYY] branch of the fallback scan of
    [analyzeEmploymentHistory]: the two dates it builds from the captures
    of a match of the first date pattern ([match[3]] and [match[4]] are
    undefined when the range ends in "present" or "current"). *)
Definition numericBranchDates (now : Date) (match1 match2 : str)
  (match3 match4 : option str) : option Date * option Date :=
  let startMonth := option_map (fun m => m - 1) (parseInt (Some match1)) in
  let startYear := parseInt (Some match2) in
  let startDate := newDateOf startYear startMonth in
  let endDate :=
    if truthy match3 && truthy match4 then
      let endMonth := option_map (fun m => m - 1) (parseInt match3) in
      let endYear := parseInt match4 in
      newDateOf endYear endMonth
    else Some now in
  (startDate, endDate).

(* ================================================================== *)
(** * Entry extractor                                                 *)
(* ================================================================== *)

(** [(?:work\s+experience|employment|professional\s+experience|work\s+history)] *)
Definition headingRe : Re.regex :=
  Re.alts
    [Re.seqs [Re.ilit (u "work"); Re.plus Str.isSpace; Re.ilit (u "experience")];
     Re.ilit (u "employment");
     Re.seqs [Re.ilit (u "professional"); Re.plus Str.isSpace;
              Re.ilit (u "experience")];
     Re.seqs [Re.ilit (u "work"); Re.plus Str.isSpace; Re.ilit (u "history")]].

(** [[:\s]] *)
Definition colonOrSpace (x : Str.char) : bool :=
  (x =? 58)%N || Str.isSpace x.

Definition sectionWords : list str :=
  [u "education"; u "skills"; u "certification"; u "language"; u "hobbies"].

(** [\n\s*\n] *)
Definition blankLineRe : Re.regex :=
  Re.seqs [Re.chr 10%N; Re.star Str.isSpace; Re.chr 10%N].

(** The body of the lookahead:
    [education|skills|certification|language|hobbies|\n\s*\n|$] *)
Definition terminatorRe : Re.regex :=
  Re.alts (map Re.ilit sectionWords ++ [blankLineRe; Re.Eol]).

(** The pattern that locates the work-experience section, the same in
    [extractStructuredEmploymentEntries] and [analyzeEmploymentHistory]. *)
Definition workSectionRe : Re.regex :=
  Re.seqs [headingRe; Re.plus colonOrSpace; Re.Grp 1 (Re.lazyPlus Re.any);
           Re.Ahead terminatorRe].

(** The text slice both functions take as the section: capture 1. *)
Definition workSectionOf (text : str) : option str :=
  match Re.exec workSectionRe text with
  | Some m => Re.group 1 m
  | None => None
  end.

(** [/^(.+?)\s*\|\s*(.+?)\s*\|\s*(.+)$/] *)
Definition pipeFormatRe : Re.regex :=
  Re.seqs [Re.Bol; Re.Grp 1 (Re.lazyPlus Re.dot); Re.star Str.isSpace;
           Re.chr (code "|"); Re.star Str.isSpace;
           Re.Grp 2 (Re.lazyPlus Re.dot); Re.star Str.isSpace;
           Re.chr (code "|"); Re.star Str.isSpace;
           Re.Grp 3 (Re.plus Re.dot); Re.Eol].

(** [/^(.+?)\s+at\s+(.+?)\s*\((.+?)\)$/i] *)
Definition atFormatRe : Re.regex :=
  Re.seqs [Re.Bol; Re.Grp 1 (Re.lazyPlus Re.dot); Re.plus Str.isSpace;
           Re.ilit (u "at"); Re.plus Str.isSpace;
           Re.Grp 2 (Re.lazyPlus Re.dot); Re.star Str.isSpace;
           Re.chr (code "(");
           Re.Grp 3 (Re.lazyPlus Re.dot); Re.chr (code ")"); Re.Eol].

(** [/^(.+?),\s*(.+?),\s*(.+)$/] *)
Definition commaFormatRe : Re.regex :=
  Re.seqs [Re.Bol; Re.Grp 1 (Re.lazyPlus Re.dot); Re.chr (code ",");
           Re.star Str.isSpace;
           Re.Grp 2 (Re.lazyPlus Re.dot); Re.chr (code ",");
           Re.star Str.isSpace;
           Re.Grp 3 (Re.plus Re.dot); Re.Eol].

(** One of the three attempts on a line: match the format, then parse
    the trimmed captures. *)
Definition tryFormat (now : Date) (format : Re.regex) (line : str)
  : res (option Period) :=
  match Re.exec format line with
  | None => Val None
  | Some m =>
      position <- defined (Re.group 1 m) ;;
      company <- defined (Re.group 2 m) ;;
      dateRange <- defined (Re.group 3 m) ;;
      parseEmploymentEntry now (Str.trim position) (Str.trim company)
        (Str.trim dateRange)
  end.

Definition isBullet (line : str) : bool :=
  Str.startsWith (u "-") line || Str.startsWith [8226%N] line
  || Str.startsWith (u "*") line.

(** Body of the loop over the lines: the entry the line adds, if any.
    A format whose captures do not parse falls through to the next. *)
Definition entryOfLine (now : Date) (rawLine : str) : res (option Period) :=
  let line := Str.trim rawLine in
  if isBullet line then Val None
  else
    viaPipe <- tryFormat now pipeFormatRe line ;;
    match viaPipe with
    | Some entry => Val (Some entry)
    | None =>
        viaAt <- tryFormat now atFormatRe line ;;
        match viaAt with
        | Some entry => Val (Some entry)
        | None => tryFormat now commaFormatRe line
        end
    end.

Definition pushEntry (now : Date) (acc : res (list Period)) (line : str)
  : res (list Period) :=
  entries <- acc ;;
  entry <- entryOfLine now line ;;
  match entry with
  | Some e => Val (entries ++ [e])
  | None => Val entries
  end.

(** The lines of the section that are not blank. *)
Definition linesOf (workText : str) : list str :=
  filter (fun line => (0 <? length (Str.trim line))%nat)
    (split 10%N workText).

Definition entriesOfLines (now : Date) (lines : list str) : res (list Period) :=
  fold_left (pushEntry now) lines (Val []).

(** [extractStructuredEmploymentEntries(text)]; one clock reading [now]
    stands for the readings of the whole run. *)
Definition extractStructuredEmploymentEntries (now : Date) (text : str)
  : res (list Period) :=
  match Re.exec workSectionRe text with
  | Some workSection =>
      workText <- defined (Re.group 1 workSection) ;;
      entriesOfLines now (linesOf workText)
  | None => Val []
  end.

(* ================================================================== *)
(** * Input validation                                                *)
(* ================================================================== *)

(** [validateInput(text, type)], called on the two texts of the
    program: [false] (with a message on the console that names [type])
    when [text] is empty or holds white space only. *)
Definition validateInput (text type : str) : bool :=
  match text with
  | [] => false
  | _ :: _ =>
      match Str.trim text with
      | [] => false
      | _ :: _ => true
      end
  end.
(* ================================================================== *)
(** * Gap finder                                                      *)
(* ================================================================== *)

(** A gap as [identifyCareerGaps] reports it: the object literal
    [{startDate, endDate, durationMonths}]. *)
Record CareerGap : Type := mkGap {
  gap_startDate : Date;
  gap_endDate : Date;
  durationMonths : Z
}.

Definition byEndAsc (a b : Period) : bool :=
  Date_leb (endDate a) (endDate b).

(** The loop over the consecutive pairs of [sortedPeriods]. *)
Fixpoint gapsOf (sortedPeriods : list Period) : list CareerGap :=
  match sortedPeriods with
  | current :: (next :: _) as rest =>
      let currentPeriodEnd := endDate current in
      let nextPeriodStart := startDate next in
      let gapDuration := calculateDuration currentPeriodEnd nextPeriodStart in
      if 3 <=? gapDuration
      then mkGap currentPeriodEnd nextPeriodStart gapDuration :: gapsOf rest
      else gapsOf rest
  | _ => []
  end.

(** [identifyCareerGaps(employmentPeriods)] *)
Definition identifyCareerGaps (employmentPeriods : list Period)
  : list CareerGap :=
  if (length employmentPeriods <=? 1)%nat then []
  else gapsOf (sort byEndAsc employmentPeriods).

(* ================================================================== *)
(** * Vocabulary of the statements                                    *)
(* ================================================================== *)

(** The scenario of the specification: two stints at CompanyA. *)
Definition jan2018 : Date := newDate 2018 0.
Definition dec2019 : Date := newDate 2019 11.
Definition mar2018 : Date := newDate 2018 2.
Definition jun2018 : Date := newDate 2018 5.

Definition longStint (title : option str) : Period :=
  periodOf jan2018 dec2019 title (Some (u "CompanyA")).
Definition shortStint (title : option str) : Period :=
  periodOf mar2018 jun2018 title (Some (u "CompanyA")).

(** The pattern strings the specification allows. *)
Definition patternWords : list str := [u "Stable"; u "Upward"; u "Varied"].
Definition allowedPatterns : list str :=
  patternWords ++ map (fun w => w ++ u ", Frequent changes") patternWords.

(** The seniority mapping as the specification words it: the maximum
    level over the matching words, and 2 only when none matches. *)
Definition specLevels : list (str * Z) :=
  [(u "junior", 1); (u "senior", 3); (u "lead", 4); (u "principal", 5);
   (u "manager", 5); (u "director", 6); (u "vp", 7); (u "cto", 8)].

Definition specLevelOf (title : str) : Z :=
  match filter (fun e => Str.includes (fst e) title) specLevels with
  | [] => 2
  | e :: es => fold_left Z.max (map snd es) (snd e)
  end.

(** Does a successful match of [r] always record capture [n]? *)
Fixpoint sets (r : Re.regex) (n : nat) : bool :=
  match r with
  | Re.Grp n' a => (n =? n')%nat || sets a n
  | Re.Seq a b => sets a n || sets b n
  | Re.Alt a b => sets a n && sets b n
  | Re.Ahead a => sets a n
  | _ => false
  end.

(** What a parsed entry must satisfy. *)
Definition entryOf (position firm : str) (p : Period) : Prop :=
  Date_le (startDate p) (endDate p)
  /\ duration p = calculateDuration (startDate p) (endDate p)
  /\ jobTitle p = Some position
  /\ company p = Some firm.

(** The entries a list of lines yields, line by line. *)
Definition entriesLineByLine (now : Date) (lines : list str) : list Period :=
  flat_map (fun line => match entryOfLine now line with
                        | Val (Some e) => [e]
                        | _ => []
                        end) lines.

(** A clock reading for the examples: 2 November 2026, 10:00. *)
Definition today : Date := mkDate (2026 * 12 + 10) 122400000.

(** The number a decimal digit stands for, and the fields of a
    [MM/YYYY] fragment written with the digits [m1 m2] and [y1 .. y4]. *)
Definition digitOf (c : Str.char) : Z := Z.of_N c - 48.

Definition monthField (m1 m2 : Str.char) : Z := 10 * digitOf m1 + digitOf m2.

Definition yearField (y1 y2 y3 y4 : Str.char) : Z :=
  1000 * digitOf y1 + 100 * digitOf y2 + 10 * digitOf y3 + digitOf y4.

Definition numericFragment (m1 m2 y1 y2 y3 y4 : Str.char) : str :=
  [m1; m2; code "/"; y1; y2; y3; y4].

(** The calendar year [new Date(year, ...)] starts from. *)
Definition fullYear (year : Z) : Z :=
  if (0 <=? year) && (year <=? 99) then 1900 + year else year.

(** The string [parseEmploymentEntry] reads its end date from:
    [dateMatch[2] || "present"]. *)
Definition endDateStrOf (dateMatch : Re.result) : str :=
  match Re.group 2 dateMatch with
  | Some (c :: r) => c :: r
  | _ => u "present"
  end.

(** What the date pattern allows between the two dates of a range:
    [\s*[-–—to]*\s*]. *)
Definition separator (sep : str) : Prop :=
  exists spaces1 dashes spaces2,
    sep = spaces1 ++ dashes ++ spaces2
    /\ forallb Str.isSpace spaces1 = true
    /\ forallb dashOrTo dashes = true
    /\ forallb Str.isSpace spaces2 = true.

(** The section as the specification words it: from the heading up to
    the next section word or the end of the text (the pattern of the
    program without its blank-line alternative). *)
Definition specTerminatorRe : Re.regex :=
  Re.alts (map Re.ilit sectionWords ++ [Re.Eol]).

Definition specSectionRe : Re.regex :=
  Re.seqs [headingRe; Re.plus colonOrSpace; Re.Grp 1 (Re.lazyPlus Re.any);
           Re.Ahead specTerminatorRe].

Definition specSectionOf (text : str) : option str :=
  match Re.exec specSectionRe text with
  | Some m => Re.group 1 m
  | None => None
  end.

(** A résumé laid out like the sample of the program: the entries of
    the work section are separated by blank lines. *)
Definition nl : str := [10%N].

Definition firstEntryLines : str :=
  u "Senior Software Engineer | TechCorp Inc. | January 2020 - Present" ++ nl
  ++ u "- Led a team of 5 developers".

Definition secondEntryLines : str :=
  u "Backend Developer | WebSolutions Ltd. | March 2018 - December 2019" ++ nl
  ++ u "- Developed RESTful APIs using Flask".

Definition sampleResume : str :=
  u "John Doe" ++ nl ++ nl
  ++ u "WORK EXPERIENCE:" ++ nl
  ++ firstEntryLines ++ nl ++ nl
  ++ secondEntryLines ++ nl ++ nl
  ++ u "EDUCATION:" ++ nl
  ++ u "Bachelor of Science in Computer Science" ++ nl.

(** The name a period is grouped under. *)
Definition companyKey (p : Period) : str := orUnknown (company p).

(** What one grouping step does to the object when it does not throw. *)
Definition groupInsert (period : Period) (obj : list (str * list Period))
  : list (str * list Period) :=
  match mapGet Str.eqb (companyKey period) obj with
  | None => mapSet Str.eqb (companyKey period) [period] obj
  | Some arr => mapSet Str.eqb (companyKey period) (arr ++ [period]) obj
  end.

(** The periods that survive step 1. *)
Definition survivors (periods : list Period) : list Period :=
  mapValues (uniqueByDates periods).

(** The start and end of [a] lie within those of [b] (the test of the
    deduplicator), and the strict form of it. *)
Definition within (a b : Period) : Prop :=
  Date_le (startDate b) (startDate a) /\ Date_le (endDate a) (endDate b).

Definition strictlyWithin (a b : Period) : Prop :=
  Date_lt (startDate b) (startDate a) /\ Date_lt (endDate a) (endDate b).

(** What holds of the map of step 1 after the periods [seen]: its keys
    are distinct, every entry is a period seen, stored under its own
    key, and every period seen has its key in the map. *)
Definition uniqueInv (seen : list Period) (m : list (Key * Period)) : Prop :=
  NoDup (map fst m)
  /\ (forall k v, In (k, v) m -> k = dedupKey v /\ In v seen)
  /\ (forall p, In p seen -> In (dedupKey p) (map fst m)).

(** What holds of [periodsByCompany] after the periods [seen]: its
    names are distinct, every array holds periods of its name, and the
    arrays together hold the periods seen. *)
Definition groupInv (seen : list Period) (obj : list (str * list Period))
  : Prop :=
  NoDup (map fst obj)
  /\ (forall c arr p, In (c, arr) obj -> In p arr -> companyKey p = c)
  /\ Permutation (concat (map snd obj)) seen.

(** [p] is kept among [vs]: it is one of them and lies within no other
    of them of its company. *)
Definition kept (vs : list Period) (p : Period) : Prop :=
  In p vs
  /\ forall o, In o vs -> o <> p -> companyKey o = companyKey p ->
               containedIn p o = false.

(** A company name under which grouping does not throw. *)
Definition plainCompany (p : Period) : bool := negb (inherited (companyKey p)).

(** The dates of a period are in order. *)
Definition ordered (p : Period) : Prop := Date_le (startDate p) (endDate p).

(** Periods for the examples of the deduplicator: the same dates at
    Acme under two titles, the first title once more at Initech, and a
    shorter stint at Initech. *)
Definition devAtAcme : Period :=
  periodOf jan2018 dec2019 (Some (u "Developer")) (Some (u "Acme")).
Definition leadAtAcme : Period :=
  periodOf jan2018 dec2019 (Some (u "Team Lead")) (Some (u "Acme")).
Definition devAtInitech : Period :=
  periodOf jan2018 dec2019 (Some (u "Developer")) (Some (u "Initech")).
Definition internAtInitech : Period :=
  periodOf mar2018 jun2018 (Some (u "Intern")) (Some (u "Initech")).

(** The later of two dates and the earlier of two dates. *)
Definition laterOf (a b : Date) : Date := if Date_ltb a b then b else a.
Definition earlierOf (a b : Date) : Date := if Date_ltb a b then a else b.

(** Two periods overlap when their common part, from the later start to
    the earlier end, has a positive duration as [calculateDuration]
    measures it.  Periods that only touch do not overlap. *)
Definition overlap (p q : Period) : Prop :=
  0 < calculateDuration (laterOf (startDate p) (startDate q))
                        (earlierOf (endDate p) (endDate q)).

(** No two periods of the list overlap. *)
Definition noOverlap (l : list Period) : Prop :=
  ForallOrdPairs (fun p q => ~ overlap p q) l.

(** A period as the data model has it: dates in order, and the duration
    field derived from them. *)
Definition wellFormed (p : Period) : Prop :=
  ordered p /\ duration p = calculateDuration (startDate p) (endDate p).

(** Periods for the examples of the aggregator. *)
Definition janToMar : Period :=
  periodOf (newDate 2018 0) (newDate 2018 2) None (Some (u "Acme")).
Definition marToJun : Period :=
  periodOf (newDate 2018 2) (newDate 2018 5) None (Some (u "Initech")).
Definition febToApr : Period :=
  periodOf (newDate 2018 1) (newDate 2018 3) None (Some (u "Globex")).

(** A pattern without captures and without [^]: whether it matches does
    not depend on the captures so far or on the index. *)
Fixpoint plain (r : Re.regex) : bool :=
  match r with
  | Re.Grp _ _ | Re.Bol => false
  | Re.Seq a b | Re.Alt a b => plain a && plain b
  | Re.Ahead a => plain a
  | _ => true
  end.

(** Does the lookahead of the section pattern succeed when the rest of
    the text is [rest]? *)
Definition terminatorAt (rest : str) : bool :=
  match Re.run terminatorRe (fun cs _ _ => Some cs) [] 0 rest with
  | Some _ => true
  | None => false
  end.

(** ** Months covered by a list of periods *)

(** The months [k] (numbered [12 * year + monthIndex]) that a period
    covers: from the month of its start up to, and without, the month
    of its end. *)
Definition covers (p : Period) (k : Z) : bool :=
  (months (startDate p) <=? k) && (k <? months (endDate p)).

Definition covered (l : list Period) (k : Z) : bool :=
  existsb (fun p => covers p k) l.

(** The [n] months from [lo] on, and the months [lo], ..., [hi - 1]. *)
Fixpoint monthsFrom (lo : Z) (n : nat) : list Z :=
  match n with
  | O => []
  | S n' => lo :: monthsFrom (lo + 1) n'
  end.

Definition monthRange (lo hi : Z) : list Z := monthsFrom lo (Z.to_nat (hi - lo)).

Definition coveredMonths (l : list Period) (lo hi : Z) : Z :=
  Z.of_nat (length (filter (covered l) (monthRange lo hi))).

Definition spans (lo hi : Z) (p : Period) : Prop :=
  lo <= months (startDate p) /\ months (endDate p) <= hi.


(** ** Gaps *)

(** Periods for the examples of the gap finder. *)
Definition junToSep : Period :=
  periodOf (newDate 2018 5) (newDate 2018 8) None (Some (u "Hooli")).
Definition mayToAug : Period :=
  periodOf (newDate 2018 4) (newDate 2018 7) None (Some (u "Hooli")).

(** The separation between two periods as the gap finder measures it,
    and the gap it reports for them. *)
Definition separation (p q : Period) : Z :=
  calculateDuration (endDate p) (startDate q).

Definition gapBetween (p q : Period) : CareerGap :=
  mkGap (endDate p) (startDate q) (separation p q).

(** ** Progression *)

(** The words of [titleLevels] that stand for a level above 2. *)
Definition seniorityWords : list str :=
  [u "senior"; u "lead"; u "principal"; u "manager"; u "director";
   u "vp"; u "cto"].

(** A title that holds none of them, as the analyzer searches: exactly
    as written, in lower case. *)
Definition plainTitle (p : Period) : Prop :=
  forall t w, jobTitle p = Some t -> In w seniorityWords ->
              Str.includes w t = false.

(** The number of periods shorter than 12 months. *)
Definition shortTermJobs (l : list Period) : nat :=
  length (filter (fun p => duration p <? 12) l).

(** Two periods titled as a résumé writes titles, with capitals. *)
Definition juniorDeveloper : Period :=
  periodOf jan2018 dec2019 (Some (u "Junior Software Developer"))
    (Some (u "Acme")).
Definition seniorEngineer : Period :=
  periodOf (newDate 2020 0) (newDate 2023 5)
    (Some (u "Senior Software Engineer")) (Some (u "Initech")).

(* ================================================================== *)
(** * Properties                                                      *)
(* ================================================================== *)

(** ** Scenario: two stints at one company *)

Lemma longStint_alone_total (t : option str) :
  calculateTotalExperience [longStint t] = 23.
Proof. reflexivity. Qed.

(** C1, as the code has it: of the two CompanyA periods January 2018 to
    December 2019 and March 2018 to June 2018, in either order and
    whatever their titles, the deduplicator keeps only the first, and
    the interval aggregator then reports 23 months (the month difference
    of January 2018 and December 2019). *)
Theorem C1_scenario_total_23 (t1 t2 : option str) :
  deduplicateEmploymentPeriods [longStint t1; shortStint t2]
    = Val [longStint t1]
  /\ deduplicateEmploymentPeriods [shortStint t2; longStint t1]
    = Val [longStint t1]
  /\ calculateTotalExperience [longStint t1] = 23.
Proof.
  repeat split.
Qed.

(** C1 as stated fails: the total after deduplication is not 24. *)
Lemma C1_total_is_not_24 :
  ~ (exists out,
        deduplicateEmploymentPeriods
          [longStint (Some (u "Engineer")); shortStint (Some (u "Engineer"))]
        = Val out
        /\ ~ In (shortStint (Some (u "Engineer"))) out
        /\ calculateTotalExperience out = 24).
Proof.
  intros [out [H [_ Ht]]].
  vm_compute in H. injection H as <-. vm_compute in Ht. discriminate.
Qed.

(** ** Seniority levels *)

(** The score never drops below the initial 2: the loop only raises it. *)
Lemma levelStep_fold_lower_bound (title : str) (entries : list (str * Z)) :
  forall start, start <= fold_left (levelStep title) entries start.
Proof.
  induction entries as [|[w n] entries IH]; intros start; simpl.
  - lia.
  - destruct (Str.includes w title).
    + specialize (IH (Z.max start n)). lia.
    + apply IH.
Qed.

Lemma levelScoreOf_at_least_2 (title : str) : 2 <= levelScoreOf title.
Proof. apply levelStep_fold_lower_bound. Qed.

Lemma includes_empty (s : str) : Str.includes [] s = true.
Proof. destruct s; reflexivity. Qed.

(** For every title the level of the analyzer is the specification's
    level raised to at least 2: the two differ exactly on the titles
    whose only matching word is "junior". *)
Lemma levelScoreOf_is_max_2 (title : str) :
  levelScoreOf title = Z.max 2 (specLevelOf title).
Proof.
  unfold levelScoreOf, specLevelOf, titleLevels, specLevels.
  cbn [fold_left levelStep filter fst snd].
  rewrite includes_empty.
  destruct (Str.includes (u "junior") title),
           (Str.includes (u "senior") title),
           (Str.includes (u "lead") title),
           (Str.includes (u "principal") title),
           (Str.includes (u "manager") title),
           (Str.includes (u "director") title),
           (Str.includes (u "vp") title),
           (Str.includes (u "cto") title); reflexivity.
Qed.

(** C2, at the failing input: for the title "junior", whose only
    matching word is "junior", the specification's mapping gives level 1,
    while the analyzer's loop, which starts at 2 and only takes maxima,
    assigns level 2 to the period. *)
Theorem C2_junior_is_scored_2 :
  let period := periodOf jan2018 dec2019 (Some (u "junior")) None in
  map fst (filter (fun e => Str.includes (fst e) (u "junior")) specLevels)
    = [u "junior"]
  /\ specLevelOf (u "junior") = 1
  /\ levelScoreOf (u "junior") = 2
  /\ map tl_level (titleProgressionOf [period]) = [2].
Proof.
  repeat split.
Qed.

(** ** Pattern strings *)

(** C3, as the code has it: with two or more periods the pattern is one
    of "Stable", "Upward", "Varied", alone or followed by
    ", Frequent changes"; with zero or one period it is
    "Insufficient data". *)
Theorem C3_pattern_values (employmentPeriods : list Period) :
  In (pattern (analyzeCareerProgression employmentPeriods))
     (if (length employmentPeriods <=? 1)%nat
      then [u "Insufficient data"]
      else allowedPatterns).
Proof.
  unfold analyzeCareerProgression.
  destruct (length employmentPeriods <=? 1)%nat.
  - now left.
  - destruct (2 <=? _)%nat.
    + destruct (countChanges _ _) as [increases decreases].
      destruct (decreases <? increases)%nat;
        [|destruct (increases <? decreases)%nat];
        match goal with
        | |- context [if ?b then _ else _] => destruct b
        end; vm_compute; tauto.
    + match goal with
      | |- context [if ?b then _ else _] => destruct b
      end; vm_compute; tauto.
Qed.

(** C3 as stated fails on the empty list (and on every list of one
    period): the pattern is none of the allowed strings. *)
Lemma C3_empty_list_pattern :
  pattern (analyzeCareerProgression []) = u "Insufficient data"
  /\ ~ In (pattern (analyzeCareerProgression [])) allowedPatterns.
Proof.
  split; [reflexivity|].
  vm_compute. intros H.
  repeat (destruct H as [H|H]; [discriminate H|]). exact H.
Qed.

(** ** Where a match ends, and what it captures *)

Section QuantifierSplits.
Variable R : Type.
Variable c : Str.char -> bool.
Variable k : nat -> str -> option R.

Lemma repGreedy_split (s : str) :
  forall lo hi i r,
    Re.repGreedy c k lo hi i s = Some r ->
    exists s1 s2, s = s1 ++ s2 /\ k (length s1 + i)%nat s2 = Some r.
Proof.
  induction s as [|x s IH]; intros lo hi i r; simpl.
  - destruct lo; [|discriminate]. intros H. now exists [], [].
  - assert (Stop : match lo with O => k i (x :: s) | S _ => None end = Some r ->
                   exists s1 s2, x :: s = s1 ++ s2
                                 /\ k (length s1 + i)%nat s2 = Some r).
    { destruct lo; [|discriminate]. intros H. now exists [], (x :: s). }
    destruct (c x && Re.canTake hi); [|exact Stop].
    destruct (Re.repGreedy c k (pred lo) (Re.lessOne hi) (S i) s) eqn:E;
      [|exact Stop].
    intros H. injection H as <-. apply IH in E as (s1 & s2 & -> & E).
    exists (x :: s1), s2. split; [reflexivity|].
    simpl. now rewrite <- plus_n_Sm in E.
Qed.

(** A lazy quantifier stops at the first place where the rest of the
    pattern matches. *)
Lemma repLazy_split (s : str) :
  forall lo hi i r,
    Re.repLazy c k lo hi i s = Some r ->
    exists s1 s2,
      s = s1 ++ s2 /\ k (length s1 + i)%nat s2 = Some r
      /\ (lo <= length s1)%nat
      /\ forall t1 t2,
           s = t1 ++ t2 -> (lo <= length t1)%nat ->
           (length t1 < length s1)%nat ->
           k (length t1 + i)%nat t2 = None.
Proof.
  induction s as [|x s IH]; intros lo hi i r; simpl.
  - destruct lo; [|discriminate].
    destruct (k i []) eqn:E; [|discriminate]. intros [= <-].
    exists [], []. repeat split; auto. simpl. intros; lia.
  - assert (More : (if c x && Re.canTake hi
                    then Re.repLazy c k (pred lo) (Re.lessOne hi) (S i) s
                    else None) = Some r ->
                   (lo = O -> k i (x :: s) = None) ->
                   exists s1 s2,
                     x :: s = s1 ++ s2 /\ k (length s1 + i)%nat s2 = Some r
                     /\ (lo <= length s1)%nat
                     /\ forall t1 t2,
                          x :: s = t1 ++ t2 -> (lo <= length t1)%nat ->
                          (length t1 < length s1)%nat ->
                          k (length t1 + i)%nat t2 = None).
    { destruct (c x && Re.canTake hi); [|discriminate].
      intros H Zero. apply IH in H as (s1 & s2 & -> & H & Lo & Min).
      exists (x :: s1), s2. split; [reflexivity|].
      simpl. rewrite <- plus_n_Sm in H. split; [exact H|].
      split; [lia|].
      intros t1 t2 Et Lt Ls. destruct t1 as [|y t1].
      - simpl in Et. subst t2. simpl. apply Zero. simpl in Lt. lia.
      - simpl in Et. injection Et as <- Et. simpl.
        rewrite plus_n_Sm. apply Min; [exact Et | simpl in Lt; lia|].
        simpl in Ls. lia. }
    destruct lo.
    + destruct (k i (x :: s)) eqn:E.
      * intros [= <-]. exists [], (x :: s). repeat split; auto.
        simpl. intros; lia.
      * intros H. now apply More.
    + intros H. apply More; [exact H | discriminate].
Qed.

Variable R' : Type.
Variable k' : nat -> str -> option R'.
Hypothesis same : forall j j' s, k j s = None <-> k' j' s = None.

Lemma repGreedy_indep (s : str) :
  forall lo hi i i',
    Re.repGreedy c k lo hi i s = None <-> Re.repGreedy c k' lo hi i' s = None.
Proof.
  induction s as [|x s IH]; intros lo hi i i'; simpl.
  - destruct lo; [apply same | tauto].
  - assert (Stop : match lo with O => k i (x :: s) | S _ => None end = None <->
                   match lo with O => k' i' (x :: s) | S _ => None end = None)
      by (destruct lo; [apply same | tauto]).
    destruct (c x && Re.canTake hi); [|exact Stop].
    specialize (IH (pred lo) (Re.lessOne hi) (S i) (S i')).
    destruct (Re.repGreedy c k (pred lo) (Re.lessOne hi) (S i) s),
             (Re.repGreedy c k' (pred lo) (Re.lessOne hi) (S i') s).
    + split; discriminate.
    + exfalso. destruct IH as [_ H]. specialize (H eq_refl). discriminate.
    + exfalso. destruct IH as [H _]. specialize (H eq_refl). discriminate.
    + exact Stop.
Qed.

Lemma repLazy_indep (s : str) :
  forall lo hi i i',
    Re.repLazy c k lo hi i s = None <-> Re.repLazy c k' lo hi i' s = None.
Proof.
  induction s as [|x s IH]; intros lo hi i i'; simpl.
  - destruct lo; [|tauto].
    pose proof (same i i' []) as S.
    destruct (k i []), (k' i' []).
    + split; discriminate.
    + exfalso. destruct S as [_ H]. specialize (H eq_refl). discriminate.
    + exfalso. destruct S as [H _]. specialize (H eq_refl). discriminate.
    + tauto.
  - assert (More : (if c x && Re.canTake hi
                    then Re.repLazy c k (pred lo) (Re.lessOne hi) (S i) s
                    else None) = None <->
                   (if c x && Re.canTake hi
                    then Re.repLazy c k' (pred lo) (Re.lessOne hi) (S i') s
                    else None) = None)
      by (destruct (c x && Re.canTake hi); [apply IH | tauto]).
    destruct lo; [|exact More].
    pose proof (same i i' (x :: s)) as S.
    destruct (k i (x :: s)), (k' i' (x :: s)).
    + split; discriminate.
    + exfalso. destruct S as [_ H]. specialize (H eq_refl). discriminate.
    + exfalso. destruct S as [H _]. specialize (H eq_refl). discriminate.
    + exact More.
Qed.
End QuantifierSplits.

Lemma lookup_cons_defined (n n' : nat) (v : str) (cs : Re.caps) :
  (n = n' \/ Re.lookup n cs <> None) -> Re.lookup n ((n', v) :: cs) <> None.
Proof.
  simpl. destruct (n =? n')%nat eqn:E.
  - discriminate.
  - apply Nat.eqb_neq in E. intros [H|H]; [contradiction | exact H].
Qed.

(** A result of [run] is a result of its continuation on a suffix of
    the input; the captures keep what was recorded and add what the
    pattern records, and are untouched when the pattern has none. *)
Lemma run_split (r : Re.regex) :
  forall R (k : Re.caps -> nat -> str -> option R) cs i s res,
    Re.run r k cs i s = Some res ->
    exists cs' s1 s2,
      s = s1 ++ s2 /\ k cs' (length s1 + i)%nat s2 = Some res
      /\ (forall n, Re.lookup n cs <> None \/ sets r n = true ->
                    Re.lookup n cs' <> None)
      /\ (plain r = true -> cs' = cs).
Proof.
  assert (Keep : forall (cs : Re.caps) n,
             Re.lookup n cs <> None \/ false = true -> Re.lookup n cs <> None)
    by (intros cs n [H|H]; [exact H | discriminate]).
  induction r as [|c|a IHa b IHb|a IHa b IHb|g lo hi c|n' a IHa| | |a IHa];
    intros R k cs i s res H; simpl in H.
  - exists cs, [], s. auto.
  - destruct s as [|x s]; [discriminate|]. destruct (c x); [|discriminate].
    exists cs, [x], s. simpl. auto.
  - apply IHa in H as (cs1 & s1 & s2 & -> & H & M1 & P1).
    apply IHb in H as (cs2 & t1 & t2 & -> & H & M2 & P2).
    exists cs2, (s1 ++ t1), t2. rewrite <- app_assoc. split; [reflexivity|].
    rewrite length_app.
    replace (length s1 + length t1 + i)%nat
      with (length t1 + (length s1 + i))%nat by lia.
    split; [exact H|]. split.
    + intros n [Hn|Hn].
      * apply M2. left. apply M1. now left.
      * simpl in Hn. apply orb_true_iff in Hn as [Hn|Hn].
        -- apply M2. left. apply M1. now right.
        -- apply M2. now right.
    + simpl. intros P. apply andb_true_iff in P as [Pa Pb].
      rewrite P2, P1; auto.
  - destruct (Re.run a k cs i s) eqn:E.
    + injection H as <-. apply IHa in E as (cs1 & s1 & s2 & -> & E & M1 & P1).
      exists cs1, s1, s2. split; [reflexivity|]. split; [exact E|]. split.
      * intros n [Hn|Hn]; [apply M1; now left|].
        simpl in Hn. apply andb_true_iff in Hn as [Hn _]. apply M1. now right.
      * simpl. intros P. apply andb_true_iff in P as [Pa _]. auto.
    + apply IHb in H as (cs1 & s1 & s2 & -> & H & M1 & P1).
      exists cs1, s1, s2. split; [reflexivity|]. split; [exact H|]. split.
      * intros n [Hn|Hn]; [apply M1; now left|].
        simpl in Hn. apply andb_true_iff in Hn as [_ Hn]. apply M1. now right.
      * simpl. intros P. apply andb_true_iff in P as [_ Pb]. auto.
  - destruct g.
    + apply repGreedy_split in H as (s1 & s2 & -> & H).
      exists cs, s1, s2. auto.
    + apply repLazy_split in H as (s1 & s2 & -> & H & _).
      exists cs, s1, s2. auto.
  - apply IHa in H as (cs1 & s1 & s2 & -> & H & M1 & _).
    eexists _, s1, s2. split; [reflexivity|]. split; [exact H|].
    split; [|discriminate].
    intros n Hn. apply lookup_cons_defined.
    destruct Hn as [Hn|Hn].
    + right. apply M1. now left.
    + simpl in Hn. apply orb_true_iff in Hn as [Hn|Hn].
      * left. now apply Nat.eqb_eq.
      * right. apply M1. now right.
  - destruct (i =? 0)%nat; [|discriminate].
    exists cs, [], s. split; [reflexivity|]. split; [exact H|].
    split; [apply Keep | discriminate].
  - destruct s; [|discriminate]. exists cs, [], []. auto.
  - destruct (Re.run a (fun cs' _ _ => Some cs') cs i s) as [cs1|] eqn:E;
      [|discriminate].
    apply IHa in E as (cs2 & s1 & s2 & _ & E & M & P).
    injection E as ->.
    exists cs1, [], s. auto.
Qed.

(** Whether a plain pattern matches is decided by the input alone. *)
Lemma run_indep (r : Re.regex) :
  plain r = true ->
  forall R R' (k : Re.caps -> nat -> str -> option R)
         (k' : Re.caps -> nat -> str -> option R') cs cs' i i' s,
    (forall j j' s', k cs j s' = None <-> k' cs' j' s' = None) ->
    (Re.run r k cs i s = None <-> Re.run r k' cs' i' s = None).
Proof.
  induction r as [|c|a IHa b IHb|a IHa b IHb|g lo hi c|n' a IHa| | |a IHa];
    intros P R R' k k' cs cs' i i' s Same; simpl in P; simpl.
  - apply Same.
  - destruct s as [|x s]; [tauto|]. destruct (c x); [apply Same | tauto].
  - apply andb_true_iff in P as [Pa Pb].
    apply IHa; [exact Pa|]. intros j j' s'. now apply IHb.
  - apply andb_true_iff in P as [Pa Pb].
    pose proof (IHa Pa _ _ k k' cs cs' i i' s Same) as Ea.
    pose proof (IHb Pb _ _ k k' cs cs' i i' s Same) as Eb.
    destruct (Re.run a k cs i s), (Re.run a k' cs' i' s).
    + split; discriminate.
    + exfalso. destruct Ea as [_ H]. specialize (H eq_refl). discriminate.
    + exfalso. destruct Ea as [H _]. specialize (H eq_refl). discriminate.
    + exact Eb.
  - destruct g; [apply repGreedy_indep | apply repLazy_indep]; apply Same.
  - discriminate.
  - discriminate.
  - destruct s; [apply Same | tauto].
  - assert (Ea : Re.run a (fun c _ _ => Some c) cs i s = None <->
                 Re.run a (fun c _ _ => Some c) cs' i' s = None)
      by (apply IHa; [exact P|]; split; discriminate).
    destruct (Re.run a (fun c _ _ => Some c) cs i s) as [c1|] eqn:E1,
             (Re.run a (fun c _ _ => Some c) cs' i' s) as [c2|] eqn:E2.
    + apply run_split in E1 as (d1 & ? & ? & _ & E1 & _ & P1).
      apply run_split in E2 as (d2 & ? & ? & _ & E2 & _ & P2).
      injection E1 as <-. injection E2 as <-.
      rewrite (P1 P), (P2 P). apply Same.
    + exfalso. destruct Ea as [_ H]. specialize (H eq_refl). discriminate.
    + exfalso. destruct Ea as [H _]. specialize (H eq_refl). discriminate.
    + tauto.
Qed.

Lemma searchFrom_split (r : Re.regex) (s : str) :
  forall i m,
    Re.searchFrom r i s = Some m ->
    exists before rest,
      s = before ++ rest /\ Re.matchAt r (length before + i)%nat rest = Some m.
Proof.
  induction s as [|x s IH]; intros i m; simpl.
  - destruct (Re.matchAt r i []) eqn:E; [|discriminate].
    intros [= <-]. now exists [], [].
  - destruct (Re.matchAt r i (x :: s)) eqn:E.
    + intros [= <-]. now exists [], (x :: s).
    + intros H. apply IH in H as (before & rest & -> & H).
      exists (x :: before), rest. split; [reflexivity|].
      simpl. now rewrite plus_n_Sm.
Qed.

(** Every capture the pattern always records is defined in the match. *)
Lemma exec_group_defined (r : Re.regex) (s : str) (m : Re.result) (n : nat) :
  Re.exec r s = Some m -> sets r n = true -> Re.group n m <> None.
Proof.
  unfold Re.exec. generalize 0%nat as i.
  induction s as [|x s IH]; intros i H Hn; simpl in H.
  - destruct (Re.matchAt r i []) eqn:E; [|discriminate].
    injection H as ->. unfold Re.matchAt in E.
    apply run_split in E as (cs & s1 & s2 & _ & E & M & _).
    injection E as <-. unfold Re.group. simpl. apply M. now right.
  - destruct (Re.matchAt r i (x :: s)) eqn:E.
    + injection H as ->. unfold Re.matchAt in E.
      apply run_split in E as (cs & s1 & s2 & _ & E & M & _).
      injection E as <-. unfold Re.group. simpl. apply M. now right.
    + eapply IH; eassumption.
Qed.

(** ** Order of dates *)

Lemma Date_ltb_lt (a b : Date) : Date_ltb a b = true <-> Date_lt a b.
Proof.
  unfold Date_ltb, Date_lt.
  rewrite orb_true_iff, andb_true_iff, !Z.ltb_lt, Z.eqb_eq. tauto.
Qed.

Lemma Date_leb_le (a b : Date) : Date_leb a b = true <-> Date_le a b.
Proof.
  unfold Date_leb, Date_le.
  rewrite orb_true_iff, andb_true_iff, Z.ltb_lt, Z.leb_le, Z.eqb_eq. tauto.
Qed.

Lemma Date_ltb_false_le (a b : Date) : Date_ltb a b = false <-> Date_le b a.
Proof.
  rewrite <- not_true_iff_false, Date_ltb_lt.
  unfold Date_lt, Date_le. lia.
Qed.

Lemma Date_leb_false_lt (a b : Date) : Date_leb a b = false <-> Date_lt b a.
Proof.
  rewrite <- not_true_iff_false, Date_leb_le.
  unfold Date_lt, Date_le. lia.
Qed.

Lemma Date_le_months (a b : Date) : Date_le a b -> months a <= months b.
Proof. unfold Date_le. lia. Qed.

Lemma Date_lt_months (a b : Date) : Date_lt a b -> months a <= months b.
Proof. unfold Date_lt. lia. Qed.

Lemma Date_le_antisym (a b : Date) : Date_le a b -> Date_le b a -> a = b.
Proof.
  destruct a, b. unfold Date_le. simpl. intros H1 H2.
  f_equal; lia.
Qed.

Lemma calculateDuration_months (a b : Date) :
  calculateDuration a b = months b - months a.
Proof.
  unfold calculateDuration, getFullYear, getMonth.
  pose proof (Z.div_mod (months a) 12). pose proof (Z.div_mod (months b) 12).
  lia.
Qed.

(** ** The entry parser never throws *)

Lemma splitSpacesAt_cons (s : str) :
  forall inRun cur, exists w ws, splitSpacesAt inRun cur s = w :: ws.
Proof.
  induction s as [|x s IH]; intros inRun cur; simpl.
  - eauto.
  - destruct (Str.isSpace x); [destruct inRun|]; eauto.
Qed.

Lemma monthNameDate_returns (dateStr : str) :
  exists d, monthNameDate dateStr = Val d.
Proof.
  unfold monthNameDate, splitSpaces.
  destruct (splitSpacesAt_cons (Str.trim dateStr) false []) as (w & ws & ->).
  simpl. eauto.
Qed.

Lemma parseStart_returns (s : str) : exists d, parseStart (Some s) = Val d.
Proof.
  unfold parseStart. simpl.
  destruct (Re.test numericOnlyRe s); [eauto | apply monthNameDate_returns].
Qed.

Lemma parseEnd_returns (now : Date) (s : str) :
  exists d, parseEnd now s = Val d.
Proof.
  unfold parseEnd.
  destruct (Re.test presentRe s); [eauto|].
  destruct (Re.test numericOnlyRe s); [eauto|].
  destruct s; [eauto | apply monthNameDate_returns].
Qed.

Lemma parseDateRange_returns (now : Date) (dateRange : str) :
  exists r, parseDateRange now dateRange = Val r.
Proof.
  unfold parseDateRange.
  destruct (Re.exec dateRangeRe dateRange) as [m|] eqn:E; [|eauto].
  destruct (Re.group 1 m) as [s|] eqn:G.
  - destruct (parseStart_returns s) as [d ->]. simpl.
    match goal with
    | |- context [parseEnd now ?e] =>
        destruct (parseEnd_returns now e) as [d' ->]
    end.
    simpl. eauto.
  - exfalso. exact (@exec_group_defined _ _ _ 1%nat E eq_refl G).
Qed.

Lemma parseEmploymentEntry_cases (now : Date) (position company dateRange : str) :
  parseEmploymentEntry now position company dateRange = Val None
  \/ exists p, parseEmploymentEntry now position company dateRange = Val (Some p)
               /\ entryOf position company p.
Proof.
  unfold parseEmploymentEntry.
  destruct (parseDateRange_returns now dateRange) as [r ->]. simpl.
  destruct r as [[[s|] [e|]]|]; auto.
  destruct (Date_ltb e s) eqn:L; auto.
  right. eexists. split; [reflexivity|].
  unfold entryOf. simpl. apply Date_ltb_false_le in L. auto.
Qed.

(** ** The extractor never throws, and works line by line *)

Lemma tryFormat_returns (now : Date) (format : Re.regex) (line : str) :
  sets format 1 = true -> sets format 2 = true -> sets format 3 = true ->
  exists r, tryFormat now format line = Val r.
Proof.
  intros S1 S2 S3. unfold tryFormat.
  destruct (Re.exec format line) as [m|] eqn:E; [|eauto].
  pose proof (exec_group_defined _ _ _ E S1) as G1.
  pose proof (exec_group_defined _ _ _ E S2) as G2.
  pose proof (exec_group_defined _ _ _ E S3) as G3.
  destruct (Re.group 1 m) as [g1|]; [|contradiction].
  destruct (Re.group 2 m) as [g2|]; [|contradiction].
  destruct (Re.group 3 m) as [g3|]; [|contradiction].
  simpl.
  destruct (parseEmploymentEntry_cases now (Str.trim g1) (Str.trim g2)
              (Str.trim g3)) as [->|(p & -> & _)]; eauto.
Qed.

Lemma entryOfLine_returns (now : Date) (rawLine : str) :
  exists r, entryOfLine now rawLine = Val r.
Proof.
  unfold entryOfLine.
  destruct (isBullet (Str.trim rawLine)); [eauto|].
  destruct (tryFormat_returns now pipeFormatRe (Str.trim rawLine))
    as [[e|] ->]; try reflexivity; simpl; [eauto|].
  destruct (tryFormat_returns now atFormatRe (Str.trim rawLine))
    as [[e|] ->]; try reflexivity; simpl; [eauto|].
  apply tryFormat_returns; reflexivity.
Qed.

Lemma entriesOfLines_from (now : Date) (lines : list str) :
  forall entries,
    fold_left (pushEntry now) lines (Val entries)
    = Val (entries ++ entriesLineByLine now lines).
Proof.
  induction lines as [|line lines IH]; intros entries; simpl.
  - now rewrite app_nil_r.
  - destruct (entryOfLine_returns now line) as [[e|] E]; rewrite E; simpl.
    + rewrite IH, <- app_assoc. reflexivity.
    + apply IH.
Qed.

Lemma entriesOfLines_line_by_line (now : Date) (lines : list str) :
  entriesOfLines now lines = Val (entriesLineByLine now lines).
Proof. apply entriesOfLines_from. Qed.

Lemma extract_returns (now : Date) (text : str) :
  exists entries, extractStructuredEmploymentEntries now text = Val entries.
Proof.
  unfold extractStructuredEmploymentEntries.
  destruct (Re.exec workSectionRe text) as [m|] eqn:E; [|eauto].
  pose proof (@exec_group_defined _ _ _ 1%nat E eq_refl) as G.
  destruct (Re.group 1 m) as [workText|]; [|contradiction].
  simpl. rewrite entriesOfLines_line_by_line. eauto.
Qed.

(** The extractor's result is the entries of the lines of its section,
    one line at a time. *)
Lemma extract_line_by_line (now : Date) (text : str) :
  extractStructuredEmploymentEntries now text
  = Val (match workSectionOf text with
         | Some workText => entriesLineByLine now (linesOf workText)
         | None => []
         end).
Proof.
  unfold extractStructuredEmploymentEntries, workSectionOf.
  destruct (Re.exec workSectionRe text) as [m|] eqn:E; [|reflexivity].
  pose proof (@exec_group_defined _ _ _ 1%nat E eq_refl) as G.
  destruct (Re.group 1 m) as [workText|]; [|contradiction].
  simpl. apply entriesOfLines_line_by_line.
Qed.

(** C8: for every candidate triple the entry parser returns an entry
    (whose dates are in order) or [null], and never throws; a date range
    the pattern does not match, and a parsed pair whose start is after
    its end, give [null]; the extractor never throws either: no line
    makes it throw, and its result on a text is the list of the entries
    of the lines of the work section of that text, one line at a time,
    so a line of the section that yields no entry leaves the entries of
    the lines before and after it as they are. *)
Theorem C8_parser_returns_entry_or_null
  (now : Date) (position firm dateRange : str) :
  (parseEmploymentEntry now position firm dateRange = Val None
   \/ exists p, parseEmploymentEntry now position firm dateRange = Val (Some p)
                /\ entryOf position firm p)
  /\ (Re.exec dateRangeRe dateRange = None ->
      parseEmploymentEntry now position firm dateRange = Val None)
  /\ (forall s e,
        parseDateRange now dateRange = Val (Some (Some s, Some e)) ->
        Date_lt e s ->
        parseEmploymentEntry now position firm dateRange = Val None)
  /\ (forall text,
        exists entries, extractStructuredEmploymentEntries now text = Val entries)
  /\ (forall lines,
        entriesOfLines now lines = Val (entriesLineByLine now lines))
  /\ (forall before line after,
        entryOfLine now line = Val None ->
        entriesOfLines now (before ++ line :: after)
        = entriesOfLines now (before ++ after))
  /\ (forall line, exists r, entryOfLine now line = Val r)
  /\ (forall text,
        extractStructuredEmploymentEntries now text
        = Val (match workSectionOf text with
               | Some workText => entriesLineByLine now (linesOf workText)
               | None => []
               end))
  /\ (forall text workText before line after,
        workSectionOf text = Some workText ->
        linesOf workText = before ++ line :: after ->
        entryOfLine now line = Val None ->
        extractStructuredEmploymentEntries now text
        = Val (entriesLineByLine now before ++ entriesLineByLine now after)).
Proof.
  split; [apply parseEmploymentEntry_cases|].
  split.
  { intros E. unfold parseEmploymentEntry, parseDateRange. now rewrite E. }
  split.
  { intros s e E L. unfold parseEmploymentEntry. rewrite E. simpl.
    apply Date_ltb_lt in L. now rewrite L. }
  split; [apply extract_returns|].
  split; [apply entriesOfLines_line_by_line|].
  split.
  { intros before line after E.
    rewrite !entriesOfLines_line_by_line. f_equal.
    unfold entriesLineByLine. rewrite !flat_map_app. simpl. now rewrite E. }
  split; [apply entryOfLine_returns|].
  split; [apply extract_line_by_line|].
  intros text workText before line after S Ls E.
  rewrite extract_line_by_line, S, Ls. f_equal.
  unfold entriesLineByLine. rewrite flat_map_app. simpl. now rewrite E.
Qed.

Lemma C8_witness :
  parseEmploymentEntry today (u "Dev") (u "Acme") (u "some time ago") = Val None
  /\ parseEmploymentEntry today (u "Dev") (u "Acme") (u "Jun 2021 - May 2020")
     = Val None
  /\ entriesOfLines today
       [u "Dev | Acme | Jan 2020 - Present"; u "Dev | Acme | some time ago";
        u "Intern at Initech (3/2018 - 12/2019)"]
     = entriesOfLines today
         [u "Dev | Acme | Jan 2020 - Present";
          u "Intern at Initech (3/2018 - 12/2019)"]
  /\ extractStructuredEmploymentEntries today
       (u "Work history:" ++ nl ++ u "Dev | Acme | Jan 2020 - Present" ++ nl
        ++ u "Dev | Acme | some time ago" ++ nl
        ++ u "Intern at Initech (3/2018 - 12/2019)")
     = Val (entriesLineByLine today [u "Dev | Acme | Jan 2020 - Present"]
            ++ entriesLineByLine today
                 [u "Intern at Initech (3/2018 - 12/2019)"]).
Proof.
  split.
  { apply (C8_parser_returns_entry_or_null today (u "Dev") (u "Acme")
             (u "some time ago")).
    vm_compute. reflexivity. }
  split.
  { apply (proj1 (proj2 (proj2
             (C8_parser_returns_entry_or_null today (u "Dev") (u "Acme")
                (u "Jun 2021 - May 2020"))))
             (newDate 2021 5) (newDate 2020 4)).
    - vm_compute. reflexivity.
    - vm_compute. left. reflexivity. }
  split.
  { apply (proj1 (proj2 (proj2 (proj2 (proj2 (proj2
             (C8_parser_returns_entry_or_null today [] [] [])))))))
      with (before := [u "Dev | Acme | Jan 2020 - Present"]).
    vm_compute. reflexivity. }
  apply (proj2 (proj2 (proj2 (proj2 (proj2 (proj2 (proj2 (proj2
           (C8_parser_returns_entry_or_null today [] [] [])))))))))
    with (workText := u "Dev | Acme | Jan 2020 - Present" ++ nl
                      ++ u "Dev | Acme | some time ago" ++ nl
                      ++ u "Intern at Initech (3/2018 - 12/2019)")
         (line := u "Dev | Acme | some time ago").
  - vm_compute. reflexivity.
  - vm_compute. reflexivity.
  - vm_compute. reflexivity.
Defined.

(** ** Numeric dates: [MM/YYYY] *)

Ltac digit_cases c H :=
  let D := fresh "D" in
  assert (D : (c = 48 \/ c = 49 \/ c = 50 \/ c = 51 \/ c = 52 \/ c = 53
               \/ c = 54 \/ c = 55 \/ c = 56 \/ c = 57)%N)
    by (unfold Str.isDigit in H; apply andb_true_iff in H as [? ?];
        rewrite N.leb_le in *; lia);
  destruct D as [->|[->|[->|[->|[->|[->|[->|[->|[->| ->]]]]]]]]].

Lemma digit_not_month_word (c : Str.char) R (k : Re.caps -> nat -> str -> option R) cs i s :
  Str.isDigit c = true ->
  Re.run monthYearRe k cs i (c :: s) = None.
Proof.
  intros H. digit_cases c H; reflexivity.
Qed.

Lemma repGreedy_full R (c : Str.char -> bool) (k : nat -> str -> option R) i s :
  Re.repGreedy c k 0 (Some 0%nat) i s = k i s.
Proof. destruct s; simpl; [reflexivity|]. now rewrite andb_false_r. Qed.

Lemma repGreedy_exact R (c : Str.char -> bool) (k : nat -> str -> option R)
  (s1 : str) :
  forall i s2,
    forallb c s1 = true ->
    Re.repGreedy c k (length s1) (Some (length s1)) i (s1 ++ s2)
    = k (length s1 + i)%nat s2.
Proof.
  induction s1 as [|x s1 IH]; intros i s2 H.
  - apply repGreedy_full.
  - simpl in H. apply andb_true_iff in H as [Hx H].
    cbn [length app Re.repGreedy Re.canTake Re.lessOne pred].
    rewrite Hx. cbn [andb]. rewrite IH by assumption.
    replace (S (length s1) + i)%nat with (length s1 + S i)%nat by lia.
    destruct (k _ s2); reflexivity.
Qed.

Lemma repGreedy_one_or_two R (c : Str.char -> bool)
  (k : nat -> str -> option R) (x y : Str.char) (i : nat) (s : str) :
  c x = true -> c y = true ->
  Re.repGreedy c k 1 (Some 2%nat) i (x :: y :: s)
  = match k (2 + i)%nat s with
    | Some r => Some r
    | None => k (1 + i)%nat (y :: s)
    end.
Proof.
  intros Hx Hy.
  cbn [Re.repGreedy Re.canTake Re.lessOne pred]. rewrite Hx, Hy.
  cbn [andb]. rewrite repGreedy_full. cbn [plus].
  destruct (k (S (S i)) s); [reflexivity|].
  destruct (k (S i) (y :: s)); reflexivity.
Qed.

Lemma numericRe_digits (m1 m2 y1 y2 y3 y4 : Str.char) R
  (k : Re.caps -> nat -> str -> option R) cs i rest :
  Str.isDigit m1 = true -> Str.isDigit m2 = true ->
  Str.isDigit y1 = true -> Str.isDigit y2 = true ->
  Str.isDigit y3 = true -> Str.isDigit y4 = true ->
  Re.run numericRe k cs i (numericFragment m1 m2 y1 y2 y3 y4 ++ rest)
  = k cs (7 + i)%nat rest.
Proof.
  intros H1 H2 H3 H4 H5 H6.
  assert (S2 : N.eqb (code "/") m2 = false) by (digit_cases m2 H2; reflexivity).
  unfold numericRe, numericFragment.
  cbn [Re.seqs Re.between Re.chr Re.run app].
  rewrite repGreedy_one_or_two by assumption.
  rewrite S2, N.eqb_refl.
  change (y1 :: y2 :: y3 :: y4 :: rest) with ([y1; y2; y3; y4] ++ rest).
  change 4%nat with (length [y1; y2; y3; y4]).
  rewrite repGreedy_exact by (cbn [forallb]; now rewrite H3, H4, H5, H6).
  cbn [length plus].
  destruct (k cs _ rest); reflexivity.
Qed.

Lemma numericOnly_digits (m1 m2 y1 y2 y3 y4 : Str.char) :
  Str.isDigit m1 = true -> Str.isDigit m2 = true ->
  Str.isDigit y1 = true -> Str.isDigit y2 = true ->
  Str.isDigit y3 = true -> Str.isDigit y4 = true ->
  Re.test numericOnlyRe (numericFragment m1 m2 y1 y2 y3 y4) = true.
Proof.
  intros H1 H2 H3 H4 H5 H6.
  unfold Re.test, Re.exec, numericOnlyRe.
  unfold numericFragment at 1. cbn [Re.searchFrom].
  unfold Re.matchAt. cbn [Re.seqs Re.run Nat.eqb].
  change [m1; m2; code "/"; y1; y2; y3; y4] with (numericFragment m1 m2 y1 y2 y3 y4).
  rewrite <- (app_nil_r (numericFragment m1 m2 y1 y2 y3 y4)) at 1.
  rewrite numericRe_digits by assumption. reflexivity.
Qed.

Lemma split_digits (m1 m2 y1 y2 y3 y4 : Str.char) :
  Str.isDigit m1 = true -> Str.isDigit m2 = true ->
  Str.isDigit y1 = true -> Str.isDigit y2 = true ->
  Str.isDigit y3 = true -> Str.isDigit y4 = true ->
  split (code "/") (numericFragment m1 m2 y1 y2 y3 y4) = [[m1; m2]; [y1; y2; y3; y4]].
Proof.
  intros H1 H2 H3 H4 H5 H6.
  assert (E : forall c, Str.isDigit c = true -> N.eqb c (code "/") = false)
    by (intros c H; digit_cases c H; reflexivity).
  unfold split, numericFragment. cbn [splitAt].
  rewrite (E m1), (E m2), (E y1), (E y2), (E y3), (E y4), N.eqb_refl
    by assumption.
  reflexivity.
Qed.

Lemma digit_value (c : Str.char) :
  Str.isDigit c = true -> digitValue 10 c = Some (digitOf c).
Proof. intros H. digit_cases c H; reflexivity. Qed.

Lemma digitRun_digits (s : str) :
  forall acc,
    forallb Str.isDigit s = true ->
    digitRun 10 (Some acc) s
    = Some (fold_left (fun a c => a * 10 + digitOf c) s acc).
Proof.
  induction s as [|c s IH]; intros acc H; simpl in *; [reflexivity|].
  apply andb_true_iff in H as [Hc H].
  rewrite (digit_value _ Hc). now apply IH.
Qed.

Lemma parseInt_digits (c : Str.char) (s : str) :
  forallb Str.isDigit (c :: s) = true ->
  parseInt (Some (c :: s))
  = Some (fold_left (fun a c => a * 10 + digitOf c) s (digitOf c)).
Proof.
  intros H. simpl in H. apply andb_true_iff in H as [Hc H].
  assert (R : unsignedInt (c :: s) = digitRun 10 None (c :: s)).
  { destruct s as [|x s]; [digit_cases c Hc; reflexivity|].
    simpl in H. apply andb_true_iff in H as [Hx _].
    assert (X : ((x =? 120) || (x =? 88))%N = false)
      by (digit_cases x Hx; reflexivity).
    digit_cases c Hc; try reflexivity.
    cbn [unsignedInt]. now rewrite X. }
  assert (P : parseInt (Some (c :: s)) = unsignedInt (c :: s))
    by (digit_cases c Hc; reflexivity).
  rewrite P, R. cbn [digitRun]. rewrite (digit_value _ Hc).
  now apply digitRun_digits.
Qed.

Lemma parseInt_two_digits (m1 m2 : Str.char) :
  Str.isDigit m1 = true -> Str.isDigit m2 = true ->
  parseInt (Some [m1; m2]) = Some (monthField m1 m2).
Proof.
  intros H1 H2. rewrite parseInt_digits by (cbn [forallb]; now rewrite H1, H2).
  cbn [fold_left]. unfold monthField. f_equal. lia.
Qed.

Lemma parseInt_four_digits (y1 y2 y3 y4 : Str.char) :
  Str.isDigit y1 = true -> Str.isDigit y2 = true ->
  Str.isDigit y3 = true -> Str.isDigit y4 = true ->
  parseInt (Some [y1; y2; y3; y4]) = Some (yearField y1 y2 y3 y4).
Proof.
  intros H1 H2 H3 H4.
  rewrite parseInt_digits by (cbn [forallb]; now rewrite H1, H2, H3, H4).
  cbn [fold_left]. unfold yearField. f_equal. lia.
Qed.

Lemma parseStart_numeric (m1 m2 y1 y2 y3 y4 : Str.char) :
  Str.isDigit m1 = true -> Str.isDigit m2 = true ->
  Str.isDigit y1 = true -> Str.isDigit y2 = true ->
  Str.isDigit y3 = true -> Str.isDigit y4 = true ->
  parseStart (Some (numericFragment m1 m2 y1 y2 y3 y4))
  = Val (Some (newDate (yearField y1 y2 y3 y4) (monthField m1 m2 - 1))).
Proof.
  intros H1 H2 H3 H4 H5 H6.
  unfold parseStart. cbn [defined bind].
  rewrite numericOnly_digits by assumption.
  unfold numericDate. rewrite split_digits by assumption.
  cbn [nth_error].
  rewrite parseInt_two_digits, parseInt_four_digits by assumption.
  reflexivity.
Qed.

Lemma exec_numeric_to_present (m1 m2 y1 y2 y3 y4 : Str.char) :
  Str.isDigit m1 = true -> Str.isDigit m2 = true ->
  Str.isDigit y1 = true -> Str.isDigit y2 = true ->
  Str.isDigit y3 = true -> Str.isDigit y4 = true ->
  exists m,
    Re.exec dateRangeRe (numericFragment m1 m2 y1 y2 y3 y4 ++ u " - present")
    = Some m
    /\ Re.group 1 m = Some (numericFragment m1 m2 y1 y2 y3 y4)
    /\ Re.group 2 m = Some (u "present").
Proof.
  intros H1 H2 H3 H4 H5 H6.
  unfold Re.exec. unfold numericFragment at 1. cbn [app Re.searchFrom].
  unfold Re.matchAt, dateRangeRe.
  cbn [Re.seqs Re.run].
  rewrite digit_not_month_word by assumption.
  change (m1 :: m2 :: code "/" :: y1 :: y2 :: y3 :: y4 :: u " - present")
    with (numericFragment m1 m2 y1 y2 y3 y4 ++ u " - present").
  rewrite numericRe_digits by assumption.
  eexists. split; [reflexivity|]. split; reflexivity.
Qed.

Lemma newDate_fields (year monthIndex : Z) :
  getFullYear (newDate year monthIndex) = fullYear year + monthIndex / 12
  /\ getMonth (newDate year monthIndex) = monthIndex mod 12.
Proof.
  unfold getFullYear, getMonth, newDate, fullYear. cbn [months].
  split.
  - rewrite Z.add_comm, Z.div_add by lia. lia.
  - rewrite Z.add_comm. now rewrite Z.mod_add by lia.
Qed.

Lemma present_not_at_digit (c : Str.char) R
    (k : Re.caps -> nat -> str -> option R) cs i s :
  Str.isDigit c = true -> Re.run presentRe k cs i (c :: s) = None.
Proof. intros H. digit_cases c H; reflexivity. Qed.

Lemma present_not_at_slash R (k : Re.caps -> nat -> str -> option R) cs i s :
  Re.run presentRe k cs i (code "/" :: s) = None.
Proof. reflexivity. Qed.

Lemma present_not_in_fragment (m1 m2 y1 y2 y3 y4 : Str.char) :
  Str.isDigit m1 = true -> Str.isDigit m2 = true ->
  Str.isDigit y1 = true -> Str.isDigit y2 = true ->
  Str.isDigit y3 = true -> Str.isDigit y4 = true ->
  Re.test presentRe (numericFragment m1 m2 y1 y2 y3 y4) = false.
Proof.
  intros H1 H2 H3 H4 H5 H6.
  unfold Re.test, Re.exec, numericFragment. cbn [Re.searchFrom].
  unfold Re.matchAt.
  rewrite (present_not_at_digit m1), (present_not_at_digit m2) by assumption.
  rewrite present_not_at_slash.
  rewrite (present_not_at_digit y1), (present_not_at_digit y2),
    (present_not_at_digit y3), (present_not_at_digit y4) by assumption.
  reflexivity.
Qed.

Lemma numericDate_digits (m1 m2 y1 y2 y3 y4 : Str.char) :
  Str.isDigit m1 = true -> Str.isDigit m2 = true ->
  Str.isDigit y1 = true -> Str.isDigit y2 = true ->
  Str.isDigit y3 = true -> Str.isDigit y4 = true ->
  numericDate (numericFragment m1 m2 y1 y2 y3 y4)
  = Some (newDate (yearField y1 y2 y3 y4) (monthField m1 m2 - 1)).
Proof.
  intros H1 H2 H3 H4 H5 H6.
  unfold numericDate. rewrite split_digits by assumption.
  cbn [nth_error].
  rewrite parseInt_two_digits, parseInt_four_digits by assumption.
  reflexivity.
Qed.

Lemma parseEnd_numeric (now : Date) (m1 m2 y1 y2 y3 y4 : Str.char) :
  Str.isDigit m1 = true -> Str.isDigit m2 = true ->
  Str.isDigit y1 = true -> Str.isDigit y2 = true ->
  Str.isDigit y3 = true -> Str.isDigit y4 = true ->
  parseEnd now (numericFragment m1 m2 y1 y2 y3 y4)
  = Val (Some (newDate (yearField y1 y2 y3 y4) (monthField m1 m2 - 1))).
Proof.
  intros H1 H2 H3 H4 H5 H6. unfold parseEnd.
  rewrite present_not_in_fragment, numericOnly_digits, numericDate_digits
    by assumption.
  reflexivity.
Qed.

Lemma dashOrTo_cases (x : Str.char) :
  dashOrTo x = true ->
  (x = 45 \/ x = 8211 \/ x = 8212 \/ x = 116 \/ x = 84 \/ x = 111 \/ x = 79)%N.
Proof.
  unfold dashOrTo, Str.lowerChar, Str.isUpper.
  destruct (65 <=? x)%N eqn:A, (x <=? 90)%N eqn:B; cbn [andb];
    rewrite !orb_true_iff, !N.eqb_eq;
    rewrite ?N.leb_le, ?N.leb_gt in *; lia.
Qed.

Lemma dash_not_space (x : Str.char) :
  dashOrTo x = true -> Str.isSpace x = false.
Proof.
  intros H. apply dashOrTo_cases in H.
  destruct H as [->|[->|[->|[->|[->|[->| ->]]]]]]; reflexivity.
Qed.

Lemma space_not_dash (x : Str.char) :
  Str.isSpace x = true -> dashOrTo x = false.
Proof.
  intros H. destruct (dashOrTo x) eqn:D; [|reflexivity].
  apply dash_not_space in D. congruence.
Qed.

Lemma digit_not_space (x : Str.char) :
  Str.isDigit x = true -> Str.isSpace x = false.
Proof. intros H. digit_cases x H; reflexivity. Qed.

Lemma digit_not_dash (x : Str.char) :
  Str.isDigit x = true -> dashOrTo x = false.
Proof. intros H. digit_cases x H; reflexivity. Qed.

(** A greedy star takes a whole run when the character after the run is
    not of its class and the rest of the pattern matches from there. *)
Lemma repGreedy_star_run R (c : Str.char -> bool) (k : nat -> str -> option R)
    (s1 : str) :
  forall i rest r,
    forallb c s1 = true ->
    match rest with [] => True | x :: _ => c x = false end ->
    k (length s1 + i)%nat rest = Some r ->
    Re.repGreedy c k 0 None i (s1 ++ rest) = Some r.
Proof.
  induction s1 as [|x s1 IH]; intros i rest r H Stop K.
  - cbn [app length plus] in *. destruct rest as [|y rest]; cbn [Re.repGreedy].
    + exact K.
    + rewrite Stop. cbn [andb]. exact K.
  - cbn [forallb] in H. apply andb_true_iff in H as [Hx H].
    cbn [app Re.repGreedy Re.canTake Re.lessOne pred]. rewrite Hx. cbn [andb].
    rewrite (IH (S i) rest r); auto.
    rewrite <- K. f_equal. cbn [length]. lia.
Qed.

Lemma searchFrom_hit (r : Re.regex) (i : nat) (s : str) (m : Re.result) :
  Re.matchAt r i s = Some m -> Re.searchFrom r i s = Some m.
Proof. intros H. destruct s; cbn [Re.searchFrom]; now rewrite H. Qed.

Lemma numericRe_at_digits (m1 m2 y1 y2 y3 y4 : Str.char) R
  (k : Re.caps -> nat -> str -> option R) cs i rest :
  Str.isDigit m1 = true -> Str.isDigit m2 = true ->
  Str.isDigit y1 = true -> Str.isDigit y2 = true ->
  Str.isDigit y3 = true -> Str.isDigit y4 = true ->
  Re.run numericRe k cs i
    (m1 :: m2 :: code "/" :: y1 :: y2 :: y3 :: y4 :: rest)
  = k cs (7 + i)%nat rest.
Proof. apply numericRe_digits. Qed.

(** The date pattern on a range of two numeric dates, with a separator
    already split into its runs: white space, dashes, white space (none
    after an empty run of dashes). *)
Lemma exec_numeric_range_split (m1 m2 y1 y2 y3 y4 n1 n2 z1 z2 z3 z4 : Str.char)
    (spaces1 dashes spaces2 rest : str) :
  Str.isDigit m1 = true -> Str.isDigit m2 = true ->
  Str.isDigit y1 = true -> Str.isDigit y2 = true ->
  Str.isDigit y3 = true -> Str.isDigit y4 = true ->
  Str.isDigit n1 = true -> Str.isDigit n2 = true ->
  Str.isDigit z1 = true -> Str.isDigit z2 = true ->
  Str.isDigit z3 = true -> Str.isDigit z4 = true ->
  forallb Str.isSpace spaces1 = true ->
  forallb dashOrTo dashes = true ->
  forallb Str.isSpace spaces2 = true ->
  (dashes = [] -> spaces2 = []) ->
  exists m,
    Re.exec dateRangeRe
      (numericFragment m1 m2 y1 y2 y3 y4
       ++ (spaces1 ++ dashes ++ spaces2)
       ++ numericFragment n1 n2 z1 z2 z3 z4 ++ rest) = Some m
    /\ Re.group 1 m = Some (numericFragment m1 m2 y1 y2 y3 y4)
    /\ Re.group 2 m = Some (numericFragment n1 n2 z1 z2 z3 z4).
Proof.
  intros H1 H2 H3 H4 H5 H6 G1 G2 G3 G4 G5 G6 S1 D S2 Norm.
  unfold numericFragment. rewrite <- !app_assoc. cbn [app].
  set (tail := n1 :: n2 :: code "/" :: z1 :: z2 :: z3 :: z4 :: rest).
  assert (T1 : Str.isSpace n1 = false) by now apply digit_not_space.
  assert (T2 : dashOrTo n1 = false) by now apply digit_not_dash.
  eexists. split.
  - unfold Re.exec. apply searchFrom_hit.
    unfold Re.matchAt, dateRangeRe. cbn [Re.seqs Re.run].
    rewrite digit_not_month_word by assumption.
    rewrite numericRe_at_digits by assumption.
    unfold Re.star. cbn [Re.run].
    apply repGreedy_star_run; [exact S1 | |].
    { destruct dashes as [|x ds].
      - rewrite (Norm eq_refl). exact T1.
      - cbn [app]. cbn [forallb] in D. apply andb_true_iff in D as [D _].
        now apply dash_not_space. }
    apply repGreedy_star_run; [exact D | |].
    { destruct spaces2 as [|x sp].
      - exact T2.
      - cbn [app]. cbn [forallb] in S2. apply andb_true_iff in S2 as [S2 _].
        now apply space_not_dash. }
    apply repGreedy_star_run; [exact S2 | exact T1 |].
    unfold tail. cbn [Re.alts map Re.run].
    rewrite digit_not_month_word by assumption.
    rewrite numericRe_at_digits by assumption.
    reflexivity.
  - cbn [Re.group Re.groups Re.lookup Nat.eqb].
    split; [reflexivity|].
    match goal with
    | |- Some (firstn (7 + ?j - ?j) _) = _ =>
        replace (7 + j - j)%nat with 7%nat by lia
    end.
    reflexivity.
Qed.

Lemma exec_numeric_range (m1 m2 y1 y2 y3 y4 n1 n2 z1 z2 z3 z4 : Str.char)
    (sep rest : str) :
  Str.isDigit m1 = true -> Str.isDigit m2 = true ->
  Str.isDigit y1 = true -> Str.isDigit y2 = true ->
  Str.isDigit y3 = true -> Str.isDigit y4 = true ->
  Str.isDigit n1 = true -> Str.isDigit n2 = true ->
  Str.isDigit z1 = true -> Str.isDigit z2 = true ->
  Str.isDigit z3 = true -> Str.isDigit z4 = true ->
  separator sep ->
  exists m,
    Re.exec dateRangeRe
      (numericFragment m1 m2 y1 y2 y3 y4 ++ sep
       ++ numericFragment n1 n2 z1 z2 z3 z4 ++ rest) = Some m
    /\ Re.group 1 m = Some (numericFragment m1 m2 y1 y2 y3 y4)
    /\ Re.group 2 m = Some (numericFragment n1 n2 z1 z2 z3 z4).
Proof.
  intros H1 H2 H3 H4 H5 H6 G1 G2 G3 G4 G5 G6
    (spaces1 & dashes & spaces2 & -> & S1 & D & S2).
  destruct dashes as [|x ds].
  - replace (spaces1 ++ [] ++ spaces2) with ((spaces1 ++ spaces2) ++ [] ++ [])
      by (cbn [app]; now rewrite app_nil_r).
    apply exec_numeric_range_split; auto.
    rewrite forallb_app, S1, S2. reflexivity.
  - apply exec_numeric_range_split; auto. discriminate.
Qed.

Lemma parseDateRange_numeric (now : Date)
    (m1 m2 y1 y2 y3 y4 n1 n2 z1 z2 z3 z4 : Str.char) (sep rest : str) :
  Str.isDigit m1 = true -> Str.isDigit m2 = true ->
  Str.isDigit y1 = true -> Str.isDigit y2 = true ->
  Str.isDigit y3 = true -> Str.isDigit y4 = true ->
  Str.isDigit n1 = true -> Str.isDigit n2 = true ->
  Str.isDigit z1 = true -> Str.isDigit z2 = true ->
  Str.isDigit z3 = true -> Str.isDigit z4 = true ->
  separator sep ->
  parseDateRange now
    (numericFragment m1 m2 y1 y2 y3 y4 ++ sep
     ++ numericFragment n1 n2 z1 z2 z3 z4 ++ rest)
  = Val (Some (Some (newDate (yearField y1 y2 y3 y4) (monthField m1 m2 - 1)),
               Some (newDate (yearField z1 z2 z3 z4) (monthField n1 n2 - 1)))).
Proof.
  intros H1 H2 H3 H4 H5 H6 G1 G2 G3 G4 G5 G6 Sep.
  destruct (@exec_numeric_range m1 m2 y1 y2 y3 y4 n1 n2 z1 z2 z3 z4 sep rest)
    as (m & E & E1 & E2); try assumption.
  unfold parseDateRange. rewrite E, E1, E2.
  rewrite parseStart_numeric by assumption. cbn [bind].
  change (match numericFragment n1 n2 z1 z2 z3 z4 with
          | [] => u "present"
          | c :: r => c :: r
          end) with (numericFragment n1 n2 z1 z2 z3 z4).
  rewrite parseEnd_numeric by assumption. reflexivity.
Qed.

Lemma parseEmploymentEntry_dates (now : Date) (position firm dateRange : str)
    (s e : Date) :
  parseDateRange now dateRange = Val (Some (Some s, Some e)) ->
  Date_le s e ->
  exists p,
    parseEmploymentEntry now position firm dateRange = Val (Some p)
    /\ startDate p = s /\ endDate p = e.
Proof.
  intros E L. unfold parseEmploymentEntry. rewrite E. cbn [bind].
  apply Date_ltb_false_le in L. rewrite L.
  eexists. split; [reflexivity|]. split; reflexivity.
Qed.

(** C9: a [MM/YYYY] fragment whose month number is above 12 is not
    rejected, as a start date or as an end date.  The entry parser, and
    the [MM/YYYY] branch of the fallback scan alike, read it in both
    places as the date whose year is the year field plus the whole
    years in [MM - 1] months and whose month index is the rest, a later
    year than the one written.  An entry that has the fragment as its
    start or as its end is accepted with that date whenever the other
    date of the range is read and the two dates are in order: so are
    "MM/YYYY - present" and the ranges of two numeric dates, whatever
    separator the pattern allows between them. *)
Theorem C9_month_above_12_carries (m1 m2 y1 y2 y3 y4 : Str.char)
  (H1 : Str.isDigit m1 = true) (H2 : Str.isDigit m2 = true)
  (H3 : Str.isDigit y1 = true) (H4 : Str.isDigit y2 = true)
  (H5 : Str.isDigit y3 = true) (H6 : Str.isDigit y4 = true)
  (Hm : 12 < monthField m1 m2) :
  let fragment := numericFragment m1 m2 y1 y2 y3 y4 in
  let year := yearField y1 y2 y3 y4 in
  let month := monthField m1 m2 in
  let d := newDate year (month - 1) in
  parseStart (Some fragment) = Val (Some d)
  /\ (forall now match3 match4,
        fst (numericBranchDates now [m1; m2] [y1; y2; y3; y4] match3 match4)
        = Some d)
  /\ getFullYear d = fullYear year + (month - 1) / 12
  /\ getMonth d = (month - 1) mod 12
  /\ fullYear year < getFullYear d
  /\ (forall now position firm,
        Date_le d now ->
        exists p,
          parseEmploymentEntry now position firm (fragment ++ u " - present")
          = Val (Some p)
          /\ startDate p = d /\ endDate p = now)
  /\ (forall now, parseEnd now fragment = Val (Some d))
  /\ (forall now match1 match2,
        snd (numericBranchDates now match1 match2
               (Some [m1; m2]) (Some [y1; y2; y3; y4]))
        = Some d)
  /\ (forall now position firm dateRange dateMatch e,
        Re.exec dateRangeRe dateRange = Some dateMatch ->
        Re.group 1 dateMatch = Some fragment ->
        parseEnd now (endDateStrOf dateMatch) = Val (Some e) ->
        Date_le d e ->
        exists p,
          parseEmploymentEntry now position firm dateRange = Val (Some p)
          /\ startDate p = d /\ endDate p = e)
  /\ (forall now position firm dateRange dateMatch s,
        Re.exec dateRangeRe dateRange = Some dateMatch ->
        Re.group 2 dateMatch = Some fragment ->
        parseStart (Re.group 1 dateMatch) = Val (Some s) ->
        Date_le s d ->
        exists p,
          parseEmploymentEntry now position firm dateRange = Val (Some p)
          /\ startDate p = s /\ endDate p = d)
  /\ (forall n1 n2 z1 z2 z3 z4 sep rest now position firm,
        Str.isDigit n1 = true -> Str.isDigit n2 = true ->
        Str.isDigit z1 = true -> Str.isDigit z2 = true ->
        Str.isDigit z3 = true -> Str.isDigit z4 = true ->
        separator sep ->
        let other := numericFragment n1 n2 z1 z2 z3 z4 in
        let d' := newDate (yearField z1 z2 z3 z4) (monthField n1 n2 - 1) in
        (Date_le d d' ->
         exists p,
           parseEmploymentEntry now position firm
             (fragment ++ sep ++ other ++ rest) = Val (Some p)
           /\ startDate p = d /\ endDate p = d')
        /\ (Date_le d' d ->
            exists p,
              parseEmploymentEntry now position firm
                (other ++ sep ++ fragment ++ rest) = Val (Some p)
              /\ startDate p = d' /\ endDate p = d)).
Proof.
  intros fragment year month d.
  destruct (newDate_fields year (month - 1)) as [Fy Fm].
  split; [now apply parseStart_numeric|].
  split.
  { intros now match3 match4. unfold numericBranchDates. cbn [fst].
    rewrite parseInt_two_digits, parseInt_four_digits by assumption.
    reflexivity. }
  split; [exact Fy|]. split; [exact Fm|].
  split.
  { fold d in Fy. rewrite Fy.
    assert (1 <= (month - 1) / 12) by (apply Z.div_le_lower_bound; lia).
    lia. }
  split.
  { intros now position firm L.
    destruct (exec_numeric_to_present m1 m2 y1 y2 y3 y4) as (m & E & G1 & G2);
      try assumption.
    unfold parseEmploymentEntry, parseDateRange.
    fold fragment in E, G1. rewrite E, G1, G2.
    unfold fragment. rewrite parseStart_numeric by assumption.
    fold year month d. cbn [bind].
    change (parseEnd now _) with (Val (Some now)). cbn [bind].
    apply Date_ltb_false_le in L. rewrite L.
    eexists. split; [reflexivity|]. split; reflexivity. }
  split; [intros now; now apply parseEnd_numeric|].
  split.
  { intros now match1 match2. unfold numericBranchDates. cbn [snd truthy andb].
    rewrite parseInt_two_digits, parseInt_four_digits by assumption.
    reflexivity. }
  split.
  { intros now position firm dateRange dateMatch e E G1 Pe L.
    apply parseEmploymentEntry_dates; [|exact L].
    unfold parseDateRange. rewrite E, G1.
    unfold fragment. rewrite parseStart_numeric by assumption. cbn [bind].
    unfold endDateStrOf in Pe. now rewrite Pe. }
  split.
  { intros now position firm dateRange dateMatch s E G2 Ps L.
    apply parseEmploymentEntry_dates; [|exact L].
    unfold parseDateRange. rewrite E, Ps, G2. cbn [bind].
    change (parseEnd now _) with (parseEnd now fragment).
    unfold fragment. now rewrite parseEnd_numeric by assumption. }
  intros n1 n2 z1 z2 z3 z4 sep rest now position firm G1 G2 G3 G4 G5 G6 Sep
    other d'.
  split; intros L; (apply parseEmploymentEntry_dates; [|exact L]);
    now apply parseDateRange_numeric.
Qed.

Lemma C9_witness :
  parseStart (Some (u "13/2020")) = Val (Some (newDate 2021 0))
  /\ (exists p,
        parseEmploymentEntry today (u "Dev") (u "Acme") (u "13/2020 - present")
        = Val (Some p)
        /\ startDate p = newDate 2021 0 /\ endDate p = today)
  /\ parseEnd today (u "13/2020") = Val (Some (newDate 2021 0))
  /\ (exists p,
        parseEmploymentEntry today (u "Dev") (u "Acme")
          (u "13/2020 - 02/2022") = Val (Some p)
        /\ startDate p = newDate 2021 0 /\ endDate p = newDate 2022 1)
  /\ (exists p,
        parseEmploymentEntry today (u "Dev") (u "Acme")
          (u "01/2020 to 13/2020") = Val (Some p)
        /\ startDate p = newDate 2020 0 /\ endDate p = newDate 2021 0).
Proof.
  destruct (C9_month_above_12_carries 49%N 51%N 50%N 48%N 50%N 48%N
              eq_refl eq_refl eq_refl eq_refl eq_refl eq_refl eq_refl)
    as (P & _ & _ & _ & _ & A & E & _ & _ & _ & N).
  split; [exact P|].
  split.
  { apply (A today (u "Dev") (u "Acme")). vm_compute. left. reflexivity. }
  split; [exact (E today)|].
  split.
  - apply (N 48%N 50%N 50%N 48%N 50%N 50%N (u " - ") [] today
             (u "Dev") (u "Acme")); try reflexivity.
    + exists (u " "), (u "-"), (u " "). repeat split.
    + vm_compute. left. reflexivity.
  - apply (N 48%N 49%N 50%N 48%N 50%N 48%N (u " to ") [] today
             (u "Dev") (u "Acme")); try reflexivity.
    + exists (u " "), (u "to"), (u " "). repeat split.
    + vm_compute. left. reflexivity.
Defined.

(** ** The work-experience section *)

Lemma terminator_decided (cs : Re.caps) (i : nat) (rest : str) :
  Re.run terminatorRe (fun c _ _ => Some c) cs i rest = None
  <-> terminatorAt rest = false.
Proof.
  unfold terminatorAt.
  rewrite (run_indep terminatorRe eq_refl
             (fun c _ _ => Some c) (fun c _ _ => Some c) cs [] i 0 rest)
    by (split; discriminate).
  destruct (Re.run terminatorRe _ [] 0%nat rest); split; congruence.
Qed.

(** The section of the program: a piece of the text that is not empty,
    is followed by a terminator (a section word, a blank line, or the
    end of the text), and has no terminator at any place after its
    first character. *)
Lemma workSection_extent (text sec : str) :
  workSectionOf text = Some sec ->
  exists before after,
    text = before ++ sec ++ after
    /\ sec <> []
    /\ terminatorAt after = true
    /\ forall s1 s2,
         sec = s1 ++ s2 -> s1 <> [] -> s2 <> [] ->
         terminatorAt (s2 ++ after) = false.
Proof.
  unfold workSectionOf, Re.exec.
  destruct (Re.searchFrom workSectionRe 0 text) as [m|] eqn:E; [|discriminate].
  intros G.
  apply searchFrom_split in E as (before0 & rest0 & -> & E).
  unfold Re.matchAt, workSectionRe in E. cbn [Re.seqs] in E.
  cbn [Re.run] in E.
  apply run_split in E as (cs1 & h & rest1 & -> & E & _ & _).
  unfold Re.plus in E. cbn [Re.run] in E.
  apply repGreedy_split in E as (seps & rest2 & -> & E).
  unfold Re.lazyPlus in E. cbn [Re.run] in E.
  apply repLazy_split in E as (body & after & -> & E & Lo & Min).
  assert (Inner : forall (c0 : Re.caps) j t,
             match Re.run terminatorRe (fun c _ _ => Some c) c0 j t with
             | Some c => Some c0
             | None => None
             end = Re.run terminatorRe (fun c _ _ => Some c) c0 j t).
  { intros c0 j t.
    destruct (Re.run terminatorRe _ c0 j t) as [c|] eqn:R; [|reflexivity].
    apply run_split in R as (d & ? & ? & _ & R & _ & P).
    injection R as <-. now rewrite (P eq_refl). }
  match type of E with
  | match ?X with _ => _ end = _ => destruct X as [c|] eqn:T; [|discriminate]
  end.
  pose proof T as T'. rewrite <- Inner, T in T'. injection T' as Ec. subst c.
  injection E as <-. unfold Re.group in G. cbn in G.
  replace (length body + _ - _)%nat with (length body) in G by lia.
  rewrite firstn_app, Nat.sub_diag, firstn_all in G. cbn in G.
  rewrite app_nil_r in G. injection G as <-.
  exists (before0 ++ h ++ seps), after.
  split; [now rewrite <- !app_assoc|].
  split; [intros ->; simpl in Lo; lia|].
  split.
  { destruct (terminatorAt after) eqn:F; [reflexivity|].
    rewrite (proj2 (terminator_decided _ _ after) F) in T. discriminate. }
  intros s1 s2 -> N1 N2.
  specialize (Min s1 (s2 ++ after)).
  rewrite <- app_assoc in Min. specialize (Min eq_refl).
  assert (L1 : (1 <= length s1)%nat) by (destruct s1; [congruence | simpl; lia]).
  assert (L2 : (length s1 < length (s1 ++ s2))%nat)
    by (rewrite length_app; destruct s2; [congruence | simpl; lia]).
  specialize (Min L1 L2).
  match type of Min with
  | match ?X with _ => _ end = None =>
      destruct X eqn:T2; [discriminate|]
  end.
  exact (proj1 (terminator_decided _ _ _) T2).
Qed.

(** A blank line is a terminator wherever it stands, so the section of
    the program never reaches past one: a blank line can only be the
    very start of the section. *)
Lemma blank_line_is_terminator (rest : str) :
  terminatorAt (10%N :: 10%N :: rest) = true.
Proof.
  unfold terminatorAt, terminatorRe, blankLineRe.
  cbn -[Re.repGreedy]. cbn [Re.repGreedy].
  change (Str.isSpace 10%N && Re.canTake None) with true. cbn iota.
  destruct (Re.repGreedy _ _ _ _ _ rest); reflexivity.
Qed.

Lemma workSection_has_no_blank_line (text sec s1 s2 : str) :
  workSectionOf text = Some sec ->
  sec = s1 ++ 10%N :: 10%N :: s2 ->
  s1 = [].
Proof.
  intros H E. destruct (workSection_extent _ H) as (before & after & _ & _ & _ & Min).
  destruct s1 as [|x s1]; [reflexivity|]. exfalso.
  specialize (Min (x :: s1) (10%N :: 10%N :: s2) E).
  simpl in Min. rewrite blank_line_is_terminator in Min.
  assert (F : true = false) by (apply Min; discriminate).
  discriminate F.
Qed.

(** C4, at the failing input: on a résumé whose entries are separated
    by blank lines the section of the program ends at the first blank
    line, although the next section heading comes later; the second
    entry lies between the heading and "EDUCATION" and is not in the
    section, so the extractor returns the first entry only. *)
Theorem C4_section_ends_at_blank_line :
  workSectionOf sampleResume = Some firstEntryLines
  /\ specSectionOf sampleResume
     = Some (firstEntryLines ++ nl ++ nl ++ secondEntryLines ++ nl ++ nl)
  /\ option_map (map jobTitle)
       (match extractStructuredEmploymentEntries today sampleResume with
        | Val entries => Some entries
        | TypeError => None
        end)
     = Some [Some (u "Senior Software Engineer")].
Proof.
  repeat split; vm_compute; reflexivity.
Qed.

(** ** Stable sort *)

Section SortFacts.
Variable A : Type.
Variable cmp : A -> A -> bool.

Lemma insert_perm (x : A) (l : list A) : Permutation (insert cmp x l) (x :: l).
Proof.
  induction l as [|y l IH]; simpl; [reflexivity|].
  destruct (cmp x y); [reflexivity|].
  rewrite IH. apply perm_swap.
Qed.

Lemma sort_perm (l : list A) : Permutation (sort cmp l) l.
Proof.
  induction l as [|x l IH]; simpl; [reflexivity|].
  rewrite insert_perm. now constructor.
Qed.

Lemma sort_In (l : list A) (x : A) : In x (sort cmp l) <-> In x l.
Proof.
  split; apply Permutation_in; [|symmetry]; apply sort_perm.
Qed.

Lemma sort_NoDup (l : list A) : NoDup l -> NoDup (sort cmp l).
Proof.
  apply Permutation_NoDup. symmetry. apply sort_perm.
Qed.
End SortFacts.

(** ** Insertion-ordered maps *)

Section MapFacts.
Variables K V : Type.
Variable keq : K -> K -> bool.
Hypothesis keq_eq : forall a b, keq a b = true <-> a = b.

Lemma mapGet_Some (k : K) (v : V) (m : list (K * V)) :
  mapGet keq k m = Some v -> In (k, v) m.
Proof.
  induction m as [|[k' v'] m IH]; simpl; [discriminate|].
  destruct (keq k k') eqn:E.
  - apply keq_eq in E as ->. intros [= ->]. now left.
  - intros H. right. now apply IH.
Qed.

Lemma mapGet_None (k : K) (m : list (K * V)) :
  mapGet keq k m = None <-> ~ In k (map fst m).
Proof.
  induction m as [|[k' v'] m IH]; simpl; [tauto|].
  destruct (keq k k') eqn:E.
  - apply keq_eq in E as ->. split; [discriminate|].
    intros H. exfalso. apply H. now left.
  - rewrite IH. split.
    + intros H [->|H'].
      * assert (keq k k = true) by now apply keq_eq. congruence.
      * tauto.
    + intros H H'. apply H. now right.
Qed.

Lemma mapSet_absent (k : K) (v : V) (m : list (K * V)) :
  ~ In k (map fst m) -> mapSet keq k v m = m ++ [(k, v)].
Proof.
  induction m as [|[k' v'] m IH]; simpl; [reflexivity|].
  intros H. destruct (keq k k') eqn:E.
  - apply keq_eq in E. subst. tauto.
  - f_equal. apply IH. tauto.
Qed.

Lemma mapSet_present_keys (k : K) (v : V) (m : list (K * V)) :
  In k (map fst m) -> map fst (mapSet keq k v m) = map fst m.
Proof.
  induction m as [|[k' v'] m IH]; simpl; [tauto|].
  intros H. destruct (keq k k') eqn:E; simpl; [reflexivity|].
  f_equal. apply IH. destruct H as [->|H]; [|exact H].
  assert (keq k k = true) by now apply keq_eq. congruence.
Qed.

Lemma mapSet_In (k k' : K) (v v' : V) (m : list (K * V)) :
  In (k', v') (mapSet keq k v m) -> (k' = k /\ v' = v) \/ In (k', v') m.
Proof.
  induction m as [|[k0 v0] m IH]; simpl.
  - intros [[= <- <-]|[]]. now left.
  - destruct (keq k k0) eqn:E; simpl.
    + apply keq_eq in E as ->. intros [[= <- <-]|H]; auto.
    + intros [H|H]; auto. apply IH in H. tauto.
Qed.

Lemma mapSet_has_key (k : K) (v : V) (m : list (K * V)) :
  In k (map fst (mapSet keq k v m)).
Proof.
  induction m as [|[k0 v0] m IH]; simpl; [now left|].
  destruct (keq k k0) eqn:E; simpl.
  - apply keq_eq in E. now left.
  - now right.
Qed.

Lemma mapSet_keeps_keys (k k' : K) (v : V) (m : list (K * V)) :
  In k' (map fst m) -> In k' (map fst (mapSet keq k v m)).
Proof.
  induction m as [|[k0 v0] m IH]; simpl; [tauto|].
  destruct (keq k k0) eqn:E; simpl; tauto.
Qed.

Lemma mapSet_NoDup (k : K) (v : V) (m : list (K * V)) :
  NoDup (map fst m) -> NoDup (map fst (mapSet keq k v m)).
Proof.
  intros N. destruct (mapGet keq k m) as [v0|] eqn:G.
  - apply mapGet_Some in G. rewrite mapSet_present_keys; [exact N|].
    apply in_map_iff. now exists (k, v0).
  - apply mapGet_None in G. rewrite mapSet_absent by assumption.
    rewrite map_app. simpl.
    apply NoDup_app; [exact N | repeat constructor; simpl; tauto |].
    intros x Hx [<-|[]]. contradiction.
Qed.

Lemma NoDup_keys_functional (k : K) (v1 v2 : V) (m : list (K * V)) :
  NoDup (map fst m) -> In (k, v1) m -> In (k, v2) m -> v1 = v2.
Proof.
  induction m as [|[k0 v0] m IH]; simpl; [tauto|].
  intros N H1 H2. inversion N as [|? ? Hn N']; subst.
  assert (F : forall v, In (k, v) m -> In k (map fst m))
    by (intros v H; apply in_map_iff; now exists (k, v)).
  destruct H1 as [E1|H1], H2 as [E2|H2].
  - congruence.
  - injection E1 as -> ->. exfalso. eauto.
  - injection E2 as -> ->. exfalso. eauto.
  - now apply IH.
Qed.
End MapFacts.


(** ** Step 1 of the deduplicator *)

Lemma Str_eqb_eq (a b : str) : Str.eqb a b = true <-> a = b.
Proof.
  unfold Str.eqb. destruct (list_eq_dec N.eq_dec a b); split; congruence.
Qed.

Lemma Key_eqb_eq (a b : Key) : Key_eqb a b = true <-> a = b.
Proof.
  destruct a as [[s1 e1] t1], b as [[s2 e2] t2]. unfold Key_eqb.
  destruct (Date_eq_dec s1 s2), (Date_eq_dec e1 e2); simpl;
    rewrite ?Str_eqb_eq; split; try discriminate; congruence.
Qed.

Lemma uniqueStep_inv (seen : list Period) (m : list (Key * Period)) (p : Period) :
  uniqueInv seen m -> uniqueInv (seen ++ [p]) (uniqueStep m p).
Proof.
  intros (N & E & C). unfold uniqueStep.
  assert (S : uniqueInv (seen ++ [p]) (mapSet Key_eqb (dedupKey p) p m)).
  { split; [now apply mapSet_NoDup; [apply Key_eqb_eq|]|]. split.
    - intros k v H. apply (mapSet_In Key_eqb Key_eqb_eq) in H as [[-> ->]|H].
      + split; [reflexivity|]. apply in_or_app. right. now left.
      + destruct (E _ _ H). split; [assumption|]. apply in_or_app. now left.
    - intros q H. apply in_app_or in H as [H|[<-|[]]].
      + apply mapSet_keeps_keys. now apply C.
      + apply mapSet_has_key. apply Key_eqb_eq. }
  destruct (mapGet Key_eqb (dedupKey p) m) as [existing|] eqn:G; [|exact S].
  match goal with |- context [if ?b then _ else _] => destruct b end;
    [exact S|].
  split; [exact N|]. split.
  - intros k v H. destruct (E _ _ H). split; [assumption|].
    apply in_or_app. now left.
  - intros q H. apply in_app_or in H as [H|[<-|[]]]; [now apply C|].
    apply (mapGet_Some Key_eqb Key_eqb_eq) in G.
    apply in_map_iff. now exists (dedupKey p, existing).
Qed.

Lemma uniqueByDates_inv_from (periods : list Period) :
  forall seen m,
    uniqueInv seen m ->
    uniqueInv (seen ++ periods) (fold_left uniqueStep periods m).
Proof.
  induction periods as [|p periods IH]; intros seen m I; simpl.
  - now rewrite app_nil_r.
  - replace (seen ++ p :: periods) with ((seen ++ [p]) ++ periods)
      by now rewrite <- app_assoc.
    apply IH. now apply uniqueStep_inv.
Qed.

Lemma uniqueByDates_inv (periods : list Period) :
  uniqueInv periods (uniqueByDates periods).
Proof.
  apply (@uniqueByDates_inv_from periods [] []).
  split; [constructor|]. split; [intros ? ? []|intros ? []].
Qed.

Lemma survivors_keys (periods : list Period) :
  map dedupKey (survivors periods) = map fst (uniqueByDates periods).
Proof.
  destruct (uniqueByDates_inv periods) as (_ & E & _).
  unfold survivors, mapValues. revert E.
  induction (uniqueByDates periods) as [|[k v] m IH]; intros E; simpl;
    [reflexivity|].
  f_equal.
  - symmetry. apply (E k v). now left.
  - apply IH. intros k' v' H. apply E. now right.
Qed.

Lemma survivors_NoDup_keys (periods : list Period) :
  NoDup (map dedupKey (survivors periods)).
Proof.
  rewrite survivors_keys. apply uniqueByDates_inv.
Qed.

Lemma NoDup_of_map (A B : Type) (f : A -> B) (l : list A) :
  NoDup (map f l) -> NoDup l.
Proof.
  induction l as [|x l IH]; simpl; intros N; [constructor|].
  inversion N; subst. constructor; [|auto].
  intros H. apply H1. now apply in_map.
Qed.

Lemma survivors_NoDup (periods : list Period) : NoDup (survivors periods).
Proof.
  apply NoDup_of_map with (f := dedupKey). apply survivors_NoDup_keys.
Qed.

Lemma survivors_incl (periods : list Period) (p : Period) :
  In p (survivors periods) -> In p periods.
Proof.
  unfold survivors, mapValues. intros H.
  apply in_map_iff in H as ([k v] & <- & H).
  now apply (uniqueByDates_inv periods) in H.
Qed.

(** A period whose key no other period of the input has survives. *)
Lemma survivors_unique_key (periods : list Period) (p : Period) :
  In p periods ->
  (forall q, In q periods -> dedupKey q = dedupKey p -> q = p) ->
  In p (survivors periods).
Proof.
  intros I U.
  destruct (uniqueByDates_inv periods) as (_ & E & C).
  apply C in I. apply in_map_iff in I as ([k v] & K & I). simpl in K. subst k.
  destruct (E _ _ I) as [Ek Ev].
  assert (v = p) by (apply U; [assumption | now symmetry]). subst v.
  unfold survivors, mapValues. apply in_map_iff. now exists (dedupKey p, p).
Qed.

(** Periods with distinct keys all survive, in their order. *)
Lemma uniqueByDates_distinct_from (periods : list Period) :
  forall m,
    NoDup (map fst m ++ map dedupKey periods) ->
    fold_left uniqueStep periods m
    = m ++ map (fun p => (dedupKey p, p)) periods.
Proof.
  induction periods as [|p periods IH]; intros m N; simpl.
  - now rewrite app_nil_r.
  - assert (A : ~ In (dedupKey p) (map fst m)).
    { intros H. apply NoDup_remove_2 in N. apply N.
      apply in_or_app. now left. }
    unfold uniqueStep at 2.
    rewrite (proj2 (mapGet_None Key_eqb Key_eqb_eq _ _) A).
    rewrite (mapSet_absent Key_eqb Key_eqb_eq) by assumption.
    rewrite IH.
    + now rewrite <- app_assoc.
    + rewrite map_app. simpl. rewrite <- app_assoc. exact N.
Qed.

Lemma survivors_distinct (periods : list Period) :
  NoDup (map dedupKey periods) -> survivors periods = periods.
Proof.
  intros N. unfold survivors, uniqueByDates, mapValues.
  rewrite uniqueByDates_distinct_from by exact N.
  simpl. rewrite map_map. simpl. apply map_id.
Qed.


(** ** Grouping by company *)

Lemma groupStep_Val (obj : list (str * list Period)) (p : Period) :
  groupStep (Val obj) p
  = if inherited (companyKey p) then TypeError else Val (groupInsert p obj).
Proof.
  unfold groupStep, groupInsert, companyKey. simpl.
  destruct (inherited _); [reflexivity|].
  now destruct (mapGet _ _ _).
Qed.

Lemma fold_groupStep_TypeError (l : list Period) :
  fold_left groupStep l TypeError = TypeError.
Proof. induction l; simpl; auto. Qed.

Lemma fold_groupStep (l : list Period) :
  forall obj,
    fold_left groupStep l (Val obj)
    = if existsb (fun p => inherited (companyKey p)) l then TypeError
      else Val (fold_left (fun o p => groupInsert p o) l obj).
Proof.
  induction l as [|p l IH]; intros obj; cbn [fold_left existsb];
    [reflexivity|].
  rewrite groupStep_Val.
  destruct (inherited (companyKey p)); cbn [orb].
  - apply fold_groupStep_TypeError.
  - apply IH.
Qed.

Lemma groupInsert_cons (p : Period) (c : str) (arr : list Period)
  (obj : list (str * list Period)) :
  groupInsert p ((c, arr) :: obj)
  = if Str.eqb (companyKey p) c then (c, arr ++ [p]) :: obj
    else (c, arr) :: groupInsert p obj.
Proof.
  unfold groupInsert. cbn [mapGet mapSet].
  destruct (Str.eqb (companyKey p) c) eqn:E; [reflexivity|].
  destruct (mapGet _ _ obj); reflexivity.
Qed.

Lemma groupInsert_perm (p : Period) (obj : list (str * list Period)) :
  Permutation (concat (map snd (groupInsert p obj)))
              (concat (map snd obj) ++ [p]).
Proof.
  induction obj as [|[c arr] obj IH].
  - reflexivity.
  - rewrite groupInsert_cons. destruct (Str.eqb _ _); simpl.
    + rewrite <- !app_assoc. apply Permutation_app_head.
      apply Permutation_app_comm.
    + rewrite IH. now rewrite app_assoc.
Qed.

Lemma groupInsert_In (p : Period) (obj : list (str * list Period))
  (c : str) (arr : list Period) :
  In (c, arr) (groupInsert p obj) ->
  In (c, arr) obj
  \/ (c = companyKey p
      /\ (arr = [p] \/ exists old, In (c, old) obj /\ arr = old ++ [p])).
Proof.
  induction obj as [|[c0 a0] obj IH].
  - simpl. intros [[= <- <-]|[]]. right. auto.
  - rewrite groupInsert_cons. destruct (Str.eqb _ _) eqn:E; simpl.
    + apply Str_eqb_eq in E. intros [[= <- <-]|H]; [|auto].
      right. split; [now symmetry|]. right. exists a0. auto.
    + intros [H|H]; [auto|]. apply IH in H as [H|(-> & [->|(old & H & ->)])].
      * auto.
      * right. auto.
      * right. split; [reflexivity|]. right. exists old. auto.
Qed.

Lemma groupInsert_inv (seen : list Period) (obj : list (str * list Period))
  (p : Period) :
  groupInv seen obj -> groupInv (seen ++ [p]) (groupInsert p obj).
Proof.
  intros (N & M & P). split; [|split].
  - unfold groupInsert. destruct (mapGet _ _ _);
      apply (mapSet_NoDup Str.eqb Str_eqb_eq); exact N.
  - intros c arr q H Hq.
    apply groupInsert_In in H as [H|(-> & [->|(old & H & ->)])].
    + eapply M; eassumption.
    + destruct Hq as [<-|[]]. reflexivity.
    + apply in_app_or in Hq as [Hq|[<-|[]]]; [|reflexivity].
      eapply M; eassumption.
  - rewrite groupInsert_perm. now apply Permutation_app_tail.
Qed.

Lemma grouped_inv_from (l : list Period) :
  forall seen obj,
    groupInv seen obj ->
    groupInv (seen ++ l) (fold_left (fun o p => groupInsert p o) l obj).
Proof.
  induction l as [|p l IH]; intros seen obj I; simpl.
  - now rewrite app_nil_r.
  - replace (seen ++ p :: l) with ((seen ++ [p]) ++ l)
      by now rewrite <- app_assoc.
    apply IH. now apply groupInsert_inv.
Qed.

Lemma grouped_inv (l : list Period) :
  groupInv l (fold_left (fun o p => groupInsert p o) l []).
Proof.
  apply (@grouped_inv_from l [] []).
  split; [constructor|]. split; [intros ? ? ? []|constructor].
Qed.

(** ** [Object.values] *)

Lemma objectValues_perm (V : Type) (obj : list (str * V)) :
  Permutation (objectValues obj) (map snd obj).
Proof.
  unfold objectValues.
  rewrite (Permutation_map snd (sort_perm _ (indexProps obj))).
  induction obj as [|[c v] obj IH]; simpl; [reflexivity|].
  unfold indexProps, nameProps in *. simpl.
  destruct (arrayIndex c); simpl.
  - now constructor.
  - rewrite <- Permutation_middle. now constructor.
Qed.


(** ** Containment within a company *)

Lemma isContained_true (i : nat) (current : Period) (l : list Period) :
  forall j,
    isContained i current j l = true <->
    exists n other,
      nth_error l n = Some other /\ (j + n)%nat <> i
      /\ containedIn current other = true.
Proof.
  induction l as [|x l IH]; intros j; simpl.
  - split; [discriminate|]. intros (n & o & H & _). now destruct n.
  - destruct (negb (i =? j)%nat && containedIn current x) eqn:E.
    + split; [intros _|reflexivity].
      apply andb_true_iff in E as [E1 E2].
      apply negb_true_iff, Nat.eqb_neq in E1.
      exists 0%nat, x. repeat split; [lia | assumption].
    + rewrite IH. split.
      * intros (n & o & H & Hn & C). exists (S n), o.
        repeat split; [assumption | lia | assumption].
      * intros (n & o & H & Hn & C). destruct n as [|n].
        -- simpl in H. injection H as ->.
           apply andb_false_iff in E as [E|E]; [|congruence].
           apply negb_false_iff, Nat.eqb_eq in E. lia.
        -- exists n, o. repeat split; [assumption | lia | assumption].
Qed.

Lemma toKeep_In (all : list Period) (p : Period) (rest : list Period) :
  forall i,
    In p (toKeep all i rest) <->
    exists n, nth_error rest n = Some p
              /\ isContained (i + n) p 0 all = false.
Proof.
  induction rest as [|x rest IH]; intros i; simpl.
  - split; [tauto|]. intros (n & H & _). now destruct n.
  - destruct (isContained i x 0 all) eqn:E.
    + rewrite IH. split.
      * intros (n & H & C). exists (S n). split; [assumption|].
        now replace (i + S n)%nat with (S i + n)%nat by lia.
      * intros (n & H & C). destruct n as [|n].
        -- simpl in H. injection H as ->.
           rewrite Nat.add_0_r in C. congruence.
        -- exists n. split; [assumption|].
           now replace (S i + n)%nat with (i + S n)%nat by lia.
    + simpl. rewrite IH. split.
      * intros [->|(n & H & C)].
        -- exists 0%nat. split; [reflexivity|]. now rewrite Nat.add_0_r.
        -- exists (S n). split; [assumption|].
           now replace (i + S n)%nat with (S i + n)%nat by lia.
      * intros (n & H & C). destruct n as [|n].
        -- simpl in H. injection H as ->. now left.
        -- right. exists n. split; [assumption|].
           now replace (S i + n)%nat with (i + S n)%nat by lia.
Qed.

Lemma toKeep_sub (all : list Period) (rest : list Period) :
  forall i, exists dropped, Permutation (toKeep all i rest ++ dropped) rest.
Proof.
  induction rest as [|x rest IH]; intros i; simpl.
  - now exists [].
  - destruct (IH (S i)) as [dropped P].
    destruct (isContained i x 0 all).
    + exists (x :: dropped). rewrite <- Permutation_middle. now constructor.
    + exists dropped. simpl. now constructor.
Qed.

(** In a list without repetition, "at another index" is "another
    period". *)
Lemma toKeep_kept (all : list Period) (p : Period) :
  NoDup all ->
  (In p (toKeep all 0 all) <->
   In p all /\ forall o, In o all -> o <> p -> containedIn p o = false).
Proof.
  intros N. rewrite toKeep_In. split.
  - intros (n & H & C). split; [eapply nth_error_In; eassumption|].
    intros o Ho Hop. destruct (containedIn p o) eqn:E; [|reflexivity].
    apply In_nth_error in Ho as [j Hj].
    assert (isContained (0 + n) p 0 all = true); [|congruence].
    apply isContained_true. exists j, o. repeat split; try assumption.
    simpl. intros ->. congruence.
  - intros [Hp C]. apply In_nth_error in Hp as [n Hn].
    exists n. split; [assumption|].
    apply not_true_iff_false. intros T.
    apply isContained_true in T as (j & o & Hj & Hne & Co).
    rewrite C in Co; [discriminate | eapply nth_error_In; eassumption |].
    intros ->. apply Hne. simpl.
    apply (proj1 (NoDup_nth_error all) N); [|congruence].
    apply nth_error_Some. congruence.
Qed.

Lemma dedupCompany_kept (arr : list Period) (p : Period) :
  NoDup arr ->
  (In p (dedupCompany arr) <->
   In p arr /\ forall o, In o arr -> o <> p -> containedIn p o = false).
Proof.
  intros N. unfold dedupCompany.
  destruct (length arr <=? 1)%nat eqn:L.
  - apply Nat.leb_le in L. split; [|tauto].
    intros H. split; [assumption|]. intros o Ho Hop. exfalso.
    destruct arr as [|a [|b arr]]; simpl in *; try lia.
    destruct H as [<-|[]], Ho as [<-|[]]. congruence.
  - rewrite toKeep_kept by now apply sort_NoDup.
    rewrite sort_In. split; intros [H C]; (split; [exact H|]);
      intros o Ho; apply C; now apply sort_In in Ho || apply sort_In.
Qed.

Lemma dedupCompany_sub (arr : list Period) :
  exists dropped, Permutation (dedupCompany arr ++ dropped) arr.
Proof.
  unfold dedupCompany. destruct (length arr <=? 1)%nat.
  - exists []. now rewrite app_nil_r.
  - destruct (toKeep_sub (sort byDurationDesc arr) (sort byDurationDesc arr) 0)
      as [dropped P].
    exists dropped. rewrite P. apply sort_perm.
Qed.

Lemma flat_map_dedupCompany_sub (arrs : list (list Period)) :
  exists dropped,
    Permutation (flat_map dedupCompany arrs ++ dropped) (concat arrs).
Proof.
  induction arrs as [|arr arrs [dropped P]]; simpl.
  - now exists [].
  - destruct (dedupCompany_sub arr) as [d Pd].
    exists (d ++ dropped).
    transitivity ((dedupCompany arr ++ d) ++ (flat_map dedupCompany arrs ++ dropped));
      [|now apply Permutation_app].
    rewrite <- !app_assoc. apply Permutation_app_head.
    rewrite !app_assoc. apply Permutation_app_tail.
    apply Permutation_app_comm.
Qed.


(** ** The deduplicator as a whole *)

Lemma concat_perm (A : Type) (l l' : list (list A)) :
  Permutation l l' -> Permutation (concat l) (concat l').
Proof.
  induction 1; simpl.
  - reflexivity.
  - now apply Permutation_app_head.
  - rewrite !app_assoc. apply Permutation_app_tail, Permutation_app_comm.
  - etransitivity; eassumption.
Qed.

Lemma dedup_long (periods : list Period) :
  (length periods <=? 1)%nat = false ->
  deduplicateEmploymentPeriods periods
  = if forallb plainCompany (survivors periods)
    then Val (flat_map dedupCompany
                (objectValues
                   (fold_left (fun o p => groupInsert p o)
                      (survivors periods) [])))
    else TypeError.
Proof.
  intros L. unfold deduplicateEmploymentPeriods. rewrite L.
  fold (survivors periods). rewrite fold_groupStep.
  assert (E : forall l, forallb plainCompany l
                        = negb (existsb (fun p => inherited (companyKey p)) l)).
  { induction l as [|x l IH]; simpl; [reflexivity|].
    rewrite IH. unfold plainCompany. now rewrite negb_orb. }
  rewrite E. now destruct (existsb _ _).
Qed.

(** With two periods or more, what comes out is what is kept among the
    survivors of step 1, each once. *)
Lemma dedup_kept (periods out : list Period) :
  (length periods <=? 1)%nat = false ->
  deduplicateEmploymentPeriods periods = Val out ->
  NoDup out /\ forall p, In p out <-> kept (survivors periods) p.
Proof.
  intros L H. rewrite dedup_long in H by assumption.
  destruct (forallb plainCompany (survivors periods)); [|discriminate].
  injection H as <-.
  set (obj := fold_left _ _ _).
  destruct (grouped_inv (survivors periods)) as (N & M & P). fold obj in N, M, P.
  pose proof (survivors_NoDup periods) as NV.
  assert (NC : NoDup (concat (map snd obj)))
    by (revert NV; apply Permutation_NoDup; now symmetry).
  assert (PV : Permutation (objectValues obj) (map snd obj))
    by apply objectValues_perm.
  split.
  - destruct (flat_map_dedupCompany_sub (objectValues obj)) as [dropped D].
    apply NoDup_app_remove_r with (l' := dropped).
    revert NC. apply Permutation_NoDup.
    rewrite D. symmetry. now apply concat_perm.
  - assert (Narr : forall c arr, In (c, arr) obj -> NoDup arr).
    { intros c arr H. clear - NC H.
      induction obj as [|[c0 a0] obj IH]; [destruct H|]. simpl in NC.
      destruct H as [[= -> ->]|H].
      - now apply NoDup_app_remove_r in NC.
      - apply IH; [now apply NoDup_app_remove_l in NC | exact H]. }
    assert (Vin : forall p, In p (survivors periods) <->
                            exists c arr, In (c, arr) obj /\ In p arr).
    { intros p. rewrite <- (Permutation_in' eq_refl P : _ <-> _).
      rewrite in_concat. split.
      - intros (arr & Ha & Hp). apply in_map_iff in Ha as ([c a] & <- & Ha).
        now exists c, a.
      - intros (c & arr & Ha & Hp). exists arr. split; [|exact Hp].
        apply in_map_iff. now exists (c, arr). }
    intros p. rewrite in_flat_map. split.
    + intros (arr & Ha & Hp).
      apply (Permutation_in _ PV) in Ha.
      apply in_map_iff in Ha as ([c a] & <- & Ha). simpl in Hp.
      apply dedupCompany_kept in Hp as [Hp C]; [|eapply Narr; eassumption].
      split; [apply Vin; now exists c, a|].
      intros o Ho Hne Hc. apply C; [|exact Hne].
      apply Vin in Ho as (c' & a' & Ha' & Ho).
      assert (c' = c).
      { rewrite <- (M _ _ _ Ha' Ho), <- (M _ _ _ Ha Hp). exact Hc. }
      subst c'.
      assert (a = a') by (eapply NoDup_keys_functional; eassumption).
      now subst a'.
    + intros [Hp C]. apply Vin in Hp as (c & arr & Ha & Hp).
      exists arr. split.
      * apply (Permutation_in _ (Permutation_sym PV)).
        apply in_map_iff. now exists (c, arr).
      * apply dedupCompany_kept; [eapply Narr; eassumption|].
        split; [exact Hp|]. intros o Ho Hne. apply C; [|exact Hne|].
        -- apply Vin. now exists c, arr.
        -- now rewrite (M _ _ _ Ha Ho), (M _ _ _ Ha Hp).
Qed.

Lemma dedup_short (periods : list Period) :
  (length periods <=? 1)%nat = true ->
  deduplicateEmploymentPeriods periods = Val periods.
Proof.
  intros L. unfold deduplicateEmploymentPeriods. now rewrite L.
Qed.

Lemma short_NoDup (A : Type) (l : list A) :
  (length l <=? 1)%nat = true -> NoDup l.
Proof.
  intros L. apply Nat.leb_le in L.
  destruct l as [|a [|b l]]; simpl in L; try lia; repeat constructor; simpl; tauto.
Qed.

(** The deduplicator returns a part of its input, each period once. *)
Lemma dedup_incl (periods out : list Period) :
  deduplicateEmploymentPeriods periods = Val out ->
  NoDup out /\ forall p, In p out -> In p periods.
Proof.
  intros H. destruct (length periods <=? 1)%nat eqn:L.
  - rewrite dedup_short in H by assumption. injection H as <-.
    split; [now apply short_NoDup | auto].
  - destruct (dedup_kept _ L H) as [N K]. split; [exact N|].
    intros p Hp. apply K in Hp as [Hp _]. now apply survivors_incl.
Qed.

(** The deduplicator returns unless a company name is an inherited
    property name. *)
Lemma dedup_returns (periods : list Period) :
  forallb plainCompany periods = true ->
  exists out, deduplicateEmploymentPeriods periods = Val out.
Proof.
  intros Hplain. destruct (length periods <=? 1)%nat eqn:L.
  - exists periods. now apply dedup_short.
  - rewrite dedup_long by assumption.
    assert (forallb plainCompany (survivors periods) = true) as ->; [|eauto].
    apply forallb_forall. intros x Hx.
    apply (proj1 (forallb_forall _ _) Hplain). now apply survivors_incl.
Qed.

Lemma containedIn_within (a b : Period) :
  containedIn a b = true <-> within a b.
Proof.
  unfold containedIn, within. now rewrite andb_true_iff, !Date_leb_le.
Qed.

Lemma strictlyWithin_within (a b : Period) : strictlyWithin a b -> within a b.
Proof.
  unfold strictlyWithin, within, Date_lt, Date_le. lia.
Qed.


(** ** Invariant of the final list *)

Lemma extracted_entries_ordered (now : Date) (text : str) (entries : list Period) :
  extractStructuredEmploymentEntries now text = Val entries ->
  Forall ordered entries.
Proof.
  unfold extractStructuredEmploymentEntries.
  destruct (Re.exec workSectionRe text) as [m|]; [|intros [= <-]; constructor].
  destruct (Re.group 1 m) as [workText|]; [|discriminate]. simpl.
  rewrite entriesOfLines_line_by_line. intros [= <-].
  apply Forall_forall. intros p H.
  unfold entriesLineByLine in H. apply in_flat_map in H as (line & _ & H).
  destruct (entryOfLine now line) as [[e|]|] eqn:E;
    [destruct H as [<-|[]] | destruct H | destruct H].
  assert (T : forall format l,
             tryFormat now format l = Val (Some e) -> ordered e).
  { intros format l. unfold tryFormat.
    destruct (Re.exec format l) as [r|]; [|discriminate].
    destruct (Re.group 1 r) as [g1|]; [|discriminate].
    destruct (Re.group 2 r) as [g2|]; [|discriminate].
    destruct (Re.group 3 r) as [g3|]; [|discriminate]. simpl.
    destruct (parseEmploymentEntry_cases now (Str.trim g1) (Str.trim g2)
                (Str.trim g3)) as [->|(p & -> & O & _)]; [discriminate|].
    now intros [= <-]. }
  unfold entryOfLine in E.
  destruct (isBullet (Str.trim line)); [discriminate|].
  destruct (tryFormat now pipeFormatRe (Str.trim line)) as [[e1|]|] eqn:E1;
    simpl in E; try discriminate.
  - injection E as ->. eapply T; eassumption.
  - destruct (tryFormat now atFormatRe (Str.trim line)) as [[e2|]|] eqn:E2;
      simpl in E; try discriminate.
    + injection E as ->. eapply T; eassumption.
    + eapply T; eassumption.
Qed.

(** C7: for periods whose dates are in order, as the parser leaves
    them (the entries of the extractor all are), the deduplicator
    returns unless a company name is an inherited property name, and
    whenever it returns, every period of its result has its dates in
    order, the result lists each period once, and no period of the
    result lies within another period of the result of the same company
    group, strictly or not. *)
Theorem C7_final_list_invariant (periods : list Period)
  (Hord : Forall ordered periods) :
  (forallb plainCompany periods = true ->
   exists out, deduplicateEmploymentPeriods periods = Val out)
  /\ (forall out,
        deduplicateEmploymentPeriods periods = Val out ->
        Forall ordered out
        /\ NoDup out
        /\ forall p q,
             In p out -> In q out -> p <> q ->
             companyKey p = companyKey q ->
             ~ within p q /\ ~ strictlyWithin p q)
  /\ (forall now text entries,
        extractStructuredEmploymentEntries now text = Val entries ->
        Forall ordered entries).
Proof.
  split; [apply dedup_returns|].
  split; [|intros now text entries; apply extracted_entries_ordered].
  intros out Hout.
  destruct (dedup_incl _ Hout) as [N I].
  split.
  { apply Forall_forall. intros p Hp.
    apply (proj1 (Forall_forall _ _) Hord). now apply I. }
  split; [exact N|].
  intros p q Hp Hq Hne Hc.
  assert (W : ~ within p q).
  { destruct (length periods <=? 1)%nat eqn:L.
    - rewrite dedup_short in Hout by assumption. injection Hout as <-.
      apply Nat.leb_le in L.
      destruct periods as [|a [|b l]]; simpl in *; try lia.
      destruct Hp as [<-|[]], Hq as [<-|[]]. congruence.
    - destruct (dedup_kept _ L Hout) as [_ K].
      apply K in Hp as [_ C]. apply K in Hq as [Hq _].
      rewrite <- containedIn_within.
      rewrite C; [discriminate | exact Hq | congruence | congruence]. }
  split; [exact W|]. intros S. apply W. now apply strictlyWithin_within.
Qed.

Lemma C7_witness :
  Forall ordered [longStint None; devAtInitech]
  /\ forall p q,
       In p [longStint None; devAtInitech] ->
       In q [longStint None; devAtInitech] -> p <> q ->
       companyKey p = companyKey q -> ~ within p q /\ ~ strictlyWithin p q.
Proof.
  assert (O : Forall ordered [longStint None; shortStint None; devAtInitech]).
  { repeat constructor; vm_compute; left; reflexivity. }
  destruct (C7_final_list_invariant O) as (_ & R & _).
  destruct (R [longStint None; devAtInitech] eq_refl) as (A & _ & B).
  split; [exact A | exact B].
Defined.

(** ** Two titles for one stint *)

Lemma within_same_dates (p q : Period) :
  startDate p = startDate q -> endDate p = endDate q -> containedIn p q = true.
Proof.
  intros Hs He. apply containedIn_within. unfold within, Date_le.
  rewrite Hs, He. lia.
Qed.

(** Whatever the deduplicator returns was still there after step 1. *)
Lemma dedup_sub_survivors (periods out : list Period) (x : Period) :
  deduplicateEmploymentPeriods periods = Val out ->
  In x out -> In x (survivors periods).
Proof.
  intros H Hx. destruct (length periods <=? 1)%nat eqn:L.
  - rewrite dedup_short in H by assumption. injection H as <-.
    apply Nat.leb_le in L.
    destruct periods as [|a [|b l]]; simpl in L; [destruct Hx | exact Hx | lia].
  - destruct (dedup_kept _ L H) as [_ K]. now apply K in Hx as [Hx _].
Qed.

(** C10, as the code has it.  Take two periods of one company with the
    same start and end dates and different titles.  Step 1 keeps one
    period for each key of start, end and title or "unknown", whatever
    the company.  When it keeps both periods, or neither, the result of
    the deduplicator has neither of them; when it keeps both, each lies
    within the other, and the result has no period of that company with
    those dates.  When it keeps only one of the two (another period holds
    the key of the other), that one stays in the result unless it lies
    within a third period of its company.  The deduplicator returns
    whenever no company name of the input is an inherited property
    name. *)
Theorem C10_both_titles_removed (periods : list Period) (p q : Period)
  (Hcompany : companyKey p = companyKey q)
  (Hstart : startDate p = startDate q) (Hend : endDate p = endDate q)
  (Htitle : jobTitle p <> jobTitle q) :
  (forallb plainCompany periods = true ->
   exists out, deduplicateEmploymentPeriods periods = Val out)
  /\ forall out,
       deduplicateEmploymentPeriods periods = Val out ->
       ((In p (survivors periods) <-> In q (survivors periods)) ->
        ~ In p out /\ ~ In q out)
       /\ (In p (survivors periods) -> In q (survivors periods) ->
           forall x, In x out -> companyKey x = companyKey p ->
                     ~ (startDate x = startDate p /\ endDate x = endDate p))
       /\ (In q (survivors periods) -> ~ In p (survivors periods) ->
           (forall o, In o periods -> o <> p -> o <> q ->
                      companyKey o = companyKey q -> ~ within q o) ->
           In q out)
       /\ (In p (survivors periods) -> ~ In q (survivors periods) ->
           (forall o, In o periods -> o <> p -> o <> q ->
                      companyKey o = companyKey p -> ~ within p o) ->
           In p out).
Proof.
  assert (Hne : p <> q) by congruence.
  split; [apply dedup_returns|].
  intros out Hout.
  assert (Both : In p (survivors periods) -> In q (survivors periods) ->
                 (length periods <=? 1)%nat = false).
  { intros Sp Sq. apply Nat.leb_gt.
    pose proof (survivors_incl _ _ Sp) as Ip.
    pose proof (survivors_incl _ _ Sq) as Iq.
    destruct periods as [|a [|b l]]; simpl in *; try tauto; [|lia].
    destruct Ip as [<-|[]], Iq as [<-|[]]. congruence. }
  assert (Np : In q (survivors periods) -> ~ In p out).
  { intros Sq H. pose proof (@dedup_sub_survivors periods out _ Hout H) as Sp.
    destruct (dedup_kept _ (Both Sp Sq) Hout) as [_ K].
    apply K in H as [_ C].
    assert (T : containedIn p q = true)
      by (apply within_same_dates; assumption).
    assert (F : containedIn p q = false)
      by (apply C; [exact Sq | congruence | congruence]).
    congruence. }
  assert (Nq : In p (survivors periods) -> ~ In q out).
  { intros Sp H. pose proof (@dedup_sub_survivors periods out _ Hout H) as Sq.
    destruct (dedup_kept _ (Both Sp Sq) Hout) as [_ K].
    apply K in H as [_ C].
    assert (T : containedIn q p = true)
      by (apply within_same_dates; congruence).
    assert (F : containedIn q p = false)
      by (apply C; [exact Sp | congruence | congruence]).
    congruence. }
  assert (One : forall a b,
             In a (survivors periods) -> ~ In b (survivors periods) ->
             (forall o, In o periods -> o <> b -> o <> a ->
                        companyKey o = companyKey a -> ~ within a o) ->
             In a out).
  { intros a b Sa Sb Third.
    destruct (length periods <=? 1)%nat eqn:L.
    - rewrite dedup_short in Hout by assumption. injection Hout as <-.
      now apply survivors_incl.
    - destruct (dedup_kept _ L Hout) as [_ K]. apply K.
      split; [exact Sa|].
      intros o So Hoa Hc.
      destruct (containedIn a o) eqn:C; [|reflexivity].
      exfalso. apply containedIn_within in C.
      apply (Third o); auto.
      + now apply survivors_incl.
      + intros ->. contradiction. }
  split.
  { intros [Ipq Iqp]. split.
    - intros H. apply (Np (Ipq (@dedup_sub_survivors periods out _ Hout H)) H).
    - intros H. apply (Nq (Iqp (@dedup_sub_survivors periods out _ Hout H)) H). }
  split.
  { intros Sp Sq x Hx Hc [Hs He].
    assert (x <> p) by (intros ->; now apply (Np Sq)).
    destruct (dedup_kept _ (Both Sp Sq) Hout) as [_ K].
    apply K in Hx as [_ C].
    assert (T : containedIn x p = true) by now apply within_same_dates.
    assert (F : containedIn x p = false)
      by (apply C; [exact Sp | congruence | congruence]).
    congruence. }
  split.
  - intros Sq Sp Third. apply (One q p Sq Sp). exact Third.
  - intros Sp Sq Third. apply (One p q Sp Sq).
    intros o Io Hoq Hop. now apply Third.
Qed.

Lemma C10_witness :
  (~ In devAtAcme [internAtInitech] /\ ~ In leadAtAcme [internAtInitech])
  /\ In leadAtAcme [devAtInitech; leadAtAcme].
Proof.
  split.
  - destruct (@C10_both_titles_removed
                [devAtAcme; leadAtAcme; devAtInitech; internAtInitech]
                devAtAcme leadAtAcme eq_refl eq_refl eq_refl)
      as [_ R]; [discriminate|].
    destruct (R [internAtInitech] eq_refl) as (A & _).
    apply A. vm_compute. tauto.
  - destruct (@C10_both_titles_removed
                [devAtInitech; devAtAcme; leadAtAcme]
                devAtAcme leadAtAcme eq_refl eq_refl eq_refl)
      as [_ R]; [discriminate|].
    destruct (R [devAtInitech; leadAtAcme] eq_refl) as (_ & _ & B & _).
    apply B.
    + vm_compute. tauto.
    + vm_compute. intros [H|[H|[]]]; discriminate H.
    + intros o [<-|[<-|[<-|[]]]] H1 H2 Hc; try congruence.
      discriminate Hc.
Defined.

(** C10 as stated fails: with a third period of another company that
    has the dates and the title of one of the two, that one is dropped
    in step 1 and the other stays in the result. *)
Lemma C10_namesake_elsewhere :
  let periods := [devAtInitech; devAtAcme; leadAtAcme] in
  companyKey devAtAcme = companyKey leadAtAcme
  /\ startDate devAtAcme = startDate leadAtAcme
  /\ endDate devAtAcme = endDate leadAtAcme
  /\ jobTitle devAtAcme <> jobTitle leadAtAcme
  /\ (forall x, In x periods -> companyKey x = companyKey devAtAcme ->
                x = devAtAcme \/ x = leadAtAcme)
  /\ deduplicateEmploymentPeriods periods = Val [devAtInitech; leadAtAcme]
  /\ In leadAtAcme [devAtInitech; leadAtAcme].
Proof.
  repeat split; try reflexivity; try discriminate.
  - intros x [<-|[<-|[<-|[]]]]; intros E; auto. discriminate E.
  - simpl. tauto.
Qed.


(** ** Idempotence *)

Lemma NoDup_map_injective_on (A B : Type) (f : A -> B) (l : list A) :
  NoDup (map f l) ->
  forall x y, In x l -> In y l -> f x = f y -> x = y.
Proof.
  induction l as [|a l IH]; simpl; intros N x y Hx Hy E; [destruct Hx|].
  inversion N as [|? ? Hn N']; subst.
  destruct Hx as [<-|Hx], Hy as [<-|Hy]; auto.
  - exfalso. apply Hn. rewrite E. now apply in_map.
  - exfalso. apply Hn. rewrite <- E. now apply in_map.
Qed.

Lemma NoDup_map_sublist (A B : Type) (f : A -> B) (l sub : list A) :
  NoDup (map f l) -> NoDup sub -> (forall x, In x sub -> In x l) ->
  NoDup (map f sub).
Proof.
  intros N. induction sub as [|a sub IH]; simpl; intros Ns I; [constructor|].
  inversion Ns as [|? ? Hn Ns']; subst. constructor.
  - intros H. apply in_map_iff in H as (b & E & Hb).
    assert (b = a) by (apply (NoDup_map_injective_on _ _ N); auto).
    subst b. contradiction.
  - apply IH; auto.
Qed.

(** C6: the deduplicator returns unless a company name is an inherited
    property name, and whenever it returns, running it on its result
    returns too and gives the same periods, each once: nothing more is
    removed or collapsed. *)
Theorem C6_dedup_idempotent (periods : list Period) :
  (forallb plainCompany periods = true ->
   exists out, deduplicateEmploymentPeriods periods = Val out)
  /\ forall out,
       deduplicateEmploymentPeriods periods = Val out ->
       exists again,
         deduplicateEmploymentPeriods out = Val again
         /\ Permutation again out
         /\ forall p, In p again <-> In p out.
Proof.
  split; [apply dedup_returns|].
  intros out Hout.
  assert (Same : exists again,
             deduplicateEmploymentPeriods out = Val again
             /\ NoDup again /\ forall p, In p again <-> In p out).
  { destruct (dedup_incl _ Hout) as [N _].
    destruct (length out <=? 1)%nat eqn:L2.
    { exists out. rewrite dedup_short by assumption. repeat split; tauto. }
    destruct (length periods <=? 1)%nat eqn:L.
    { rewrite dedup_short in Hout by assumption. injection Hout as <-.
      congruence. }
    destruct (dedup_kept _ L Hout) as [_ K].
    assert (Sub : forall x, In x out -> In x (survivors periods))
      by (intros x Hx; now apply K in Hx as [Hx _]).
    assert (S : survivors out = out).
    { apply survivors_distinct.
      apply NoDup_map_sublist with (l := survivors periods);
        [apply survivors_NoDup_keys | exact N | exact Sub]. }
    assert (P : forallb plainCompany out = true).
    { rewrite dedup_long in Hout by assumption.
      destruct (forallb plainCompany (survivors periods)) eqn:F;
        [|discriminate].
      apply forallb_forall. intros x Hx.
      apply (proj1 (forallb_forall _ _) F). now apply Sub. }
    pose proof (dedup_long _ L2) as D. rewrite S, P in D.
    eexists. split; [exact D|].
    destruct (dedup_kept _ L2 D) as [N' K']. rewrite S in K'.
    split; [exact N'|].
    intros p. rewrite K'. split; [now intros [Hp _]|].
    intros Hp. split; [exact Hp|].
    intros o Ho Hne Hc. apply K in Hp as [_ C]. apply C; auto. }
  destruct Same as (again & D & N' & I).
  exists again. split; [exact D|]. split; [|exact I].
  apply NoDup_Permutation; [exact N' | now apply (dedup_incl _ Hout) | exact I].
Qed.

Lemma C6_witness :
  exists again,
    deduplicateEmploymentPeriods [longStint None; devAtInitech] = Val again
    /\ Permutation again [longStint None; devAtInitech]
    /\ forall p, In p again <-> In p [longStint None; devAtInitech].
Proof.
  apply (C6_dedup_idempotent
           [longStint None; shortStint None; devAtInitech; internAtInitech]).
  reflexivity.
Defined.


(** ** Total experience *)

Section SortedFacts.
Variable A : Type.
Variable cmp : A -> A -> bool.
Hypothesis cmp_total : forall a b, cmp a b = false -> cmp b a = true.
Hypothesis cmp_trans :
  forall a b c, cmp a b = true -> cmp b c = true -> cmp a c = true.

Lemma insert_sorted (x : A) (l : list A) :
  ForallOrdPairs (fun a b => cmp a b = true) l ->
  ForallOrdPairs (fun a b => cmp a b = true) (insert cmp x l).
Proof.
  induction 1 as [|y ys Hy Hys IH]; simpl.
  - repeat constructor.
  - destruct (cmp x y) eqn:E.
    + constructor; [|now constructor].
      constructor; [exact E|].
      revert Hy. apply Forall_impl. intros z. now apply cmp_trans.
    + constructor; [|exact IH].
      apply Forall_forall. intros z Hz.
      apply (Permutation_in _ (insert_perm cmp x ys)) in Hz.
      destruct Hz as [<-|Hz]; [now apply cmp_total|].
      now apply (proj1 (Forall_forall _ _) Hy).
Qed.

Lemma sort_sorted (l : list A) :
  ForallOrdPairs (fun a b => cmp a b = true) (sort cmp l).
Proof.
  induction l as [|x l IH]; simpl; [constructor | now apply insert_sorted].
Qed.
End SortedFacts.

Lemma FOP_cons_iff (A : Type) (R : A -> A -> Prop) (x : A) (l : list A) :
  ForallOrdPairs R (x :: l) <-> Forall (R x) l /\ ForallOrdPairs R l.
Proof.
  split; [inversion 1; auto | intros []; now constructor].
Qed.

Lemma FOP_perm (A : Type) (R : A -> A -> Prop) (l l' : list A) :
  (forall a b, R a b -> R b a) ->
  Permutation l l' -> ForallOrdPairs R l -> ForallOrdPairs R l'.
Proof.
  intros Sym P. induction P as [|x l l' P IH|x y l|l1 l2 l3 P1 IH1 P2 IH2].
  - auto.
  - rewrite !FOP_cons_iff. intros [F H]. split; [|auto].
    revert F. now apply Permutation_Forall.
  - rewrite !FOP_cons_iff. intros [Fy [Fx H]].
    inversion Fy as [|? ? Ryx Fy']; subst.
    repeat split; auto.
  - auto.
Qed.

Lemma laterOf_months (a b : Date) :
  months (laterOf a b) = Z.max (months a) (months b).
Proof.
  unfold laterOf. destruct (Date_ltb a b) eqn:E.
  - apply Date_ltb_lt, Date_lt_months in E. lia.
  - apply Date_ltb_false_le, Date_le_months in E. lia.
Qed.

Lemma earlierOf_months (a b : Date) :
  months (earlierOf a b) = Z.min (months a) (months b).
Proof.
  unfold earlierOf. destruct (Date_ltb a b) eqn:E.
  - apply Date_ltb_lt, Date_lt_months in E. lia.
  - apply Date_ltb_false_le, Date_le_months in E. lia.
Qed.

Lemma overlap_months (p q : Period) :
  overlap p q <->
  Z.max (months (startDate p)) (months (startDate q))
  < Z.min (months (endDate p)) (months (endDate q)).
Proof.
  unfold overlap.
  rewrite calculateDuration_months, laterOf_months, earlierOf_months. lia.
Qed.

Lemma overlap_sym (p q : Period) : ~ overlap p q -> ~ overlap q p.
Proof. rewrite !overlap_months. lia. Qed.

Lemma sumDurations_from (l : list Period) :
  forall acc,
    fold_left (fun sum period => sum + duration period) l acc
    = acc + sumDurations l.
Proof.
  unfold sumDurations.
  induction l as [|p l IH]; intros acc; simpl; [lia|].
  rewrite IH, (IH (duration p)). lia.
Qed.

Lemma sumDurations_cons (p : Period) (l : list Period) :
  sumDurations (p :: l) = duration p + sumDurations l.
Proof. unfold sumDurations at 1. simpl. now rewrite sumDurations_from. Qed.

Lemma sumDurations_perm (l l' : list Period) :
  Permutation l l' -> sumDurations l = sumDurations l'.
Proof.
  induction 1; rewrite ?sumDurations_cons; lia.
Qed.

Lemma totalStep_from (l : list Period) :
  forall tot cur,
    fst (fold_left totalStep l (tot, cur))
    = tot + fst (fold_left totalStep l (0, cur)).
Proof.
  induction l as [|p l IH]; intros tot cur; simpl; [lia|].
  destruct (Date_ltb cur (startDate p)); [|destruct (Date_ltb cur (endDate p))];
    rewrite IH; symmetry; rewrite IH; lia.
Qed.

Lemma Date_ltb_true_months (a b : Date) :
  Date_ltb a b = true -> months a <= months b.
Proof. intros H. now apply Date_lt_months, Date_ltb_lt. Qed.

Lemma Date_ltb_false_months (a b : Date) :
  Date_ltb a b = false -> months b <= months a.
Proof. intros H. now apply Date_le_months, Date_ltb_false_le. Qed.

Lemma wellFormed_months (p : Period) :
  wellFormed p ->
  months (startDate p) <= months (endDate p)
  /\ duration p = months (endDate p) - months (startDate p).
Proof.
  intros [O D]. split; [now apply Date_le_months|].
  now rewrite D, calculateDuration_months.
Qed.

(** One step of the loop, when [cur] is the latest end among the
    periods [done], all of which start no later than [p]: the step adds
    at most the duration of [p], and exactly that when [p] overlaps
    none of them. *)
Lemma totalStep_gain (done : list Period) (cur : Date) (p : Period) :
  (forall q, In q done -> months (endDate q) <= months cur) ->
  (exists q, In q done /\ endDate q = cur) ->
  (forall q, In q done -> months (startDate q) <= months (startDate p)) ->
  wellFormed p ->
  let st := totalStep (0, cur) p in
  fst st <= duration p
  /\ (fst st = duration p <-> forall q, In q done -> ~ overlap q p)
  /\ (forall q, In q (p :: done) -> months (endDate q) <= months (snd st))
  /\ (exists q, In q (p :: done) /\ endDate q = snd st).
Proof.
  intros I1 (q0 & Hq0 & Eq0) S W.
  destruct (wellFormed_months W) as [Hab Hd].
  pose proof (I1 _ Hq0) as B0. pose proof (S _ Hq0) as A0.
  rewrite Eq0 in B0.
  unfold totalStep.
  destruct (Date_ltb cur (startDate p)) eqn:E1;
    [|destruct (Date_ltb cur (endDate p)) eqn:E2]; cbn [fst snd].
  - apply Date_ltb_true_months in E1.
    rewrite calculateDuration_months.
    split; [lia|]. split; [|split].
    + split; [|lia]. intros _ q Hq. rewrite overlap_months.
      specialize (I1 _ Hq). lia.
    + intros q [<-|Hq]; [lia|]. specialize (I1 _ Hq). lia.
    + exists p. split; [now left | reflexivity].
  - apply Date_ltb_false_months in E1. apply Date_ltb_true_months in E2.
    rewrite calculateDuration_months.
    split; [lia|]. split; [|split].
    + split.
      * intros E q Hq. rewrite overlap_months. specialize (I1 _ Hq). lia.
      * intros H. specialize (H _ Hq0). rewrite overlap_months in H.
        rewrite Eq0 in H. lia.
    + intros q [<-|Hq]; [lia|]. specialize (I1 _ Hq). lia.
    + exists p. split; [now left | reflexivity].
  - apply Date_ltb_false_months in E1. apply Date_ltb_false_months in E2.
    split; [lia|]. split; [|split].
    + split.
      * intros E q Hq. rewrite overlap_months. lia.
      * intros H. specialize (H _ Hq0). rewrite overlap_months in H.
        rewrite Eq0 in H. lia.
    + intros q [<-|Hq]; [lia | now apply I1].
    + exists q0. split; [now right | assumption].
Qed.

Lemma total_from (l : list Period) :
  forall (done : list Period) (cur : Date),
    (forall q, In q done -> months (endDate q) <= months cur) ->
    (exists q, In q done /\ endDate q = cur) ->
    (forall q p, In q done -> In p l ->
                 months (startDate q) <= months (startDate p)) ->
    ForallOrdPairs
      (fun p q => months (startDate p) <= months (startDate q)) l ->
    Forall wellFormed l ->
    fst (fold_left totalStep l (0, cur)) <= sumDurations l
    /\ (fst (fold_left totalStep l (0, cur)) = sumDurations l <->
        (forall q p, In q done -> In p l -> ~ overlap q p) /\ noOverlap l).
Proof.
  induction l as [|p l IH]; intros done cur I1 I2 S Srt W.
  - simpl. split; [reflexivity|]. split; [|reflexivity].
    intros _. split; [intros ? ? _ []|constructor].
  - inversion W as [|? ? Wp Wl]; subst.
    apply FOP_cons_iff in Srt as [Sp Srt].
    destruct (@totalStep_gain done cur p I1 I2) as (G1 & G2 & I1' & I2');
      [intros q Hq; apply S; [exact Hq | now left] | exact Wp |].
    cbn [fold_left].
    destruct (totalStep (0, cur) p) as [gain cur'] eqn:St. cbn [fst snd] in *.
    rewrite totalStep_from, sumDurations_cons.
    destruct (IH (p :: done) cur' I1' I2') as [L R]; [|exact Srt|exact Wl|].
    { intros q x [<-|Hq] Hx.
      - now apply (proj1 (Forall_forall _ _) Sp).
      - apply S; [exact Hq | now right]. }
    split; [lia|].
    unfold noOverlap. rewrite FOP_cons_iff, Forall_forall.
    split.
    + intros E.
      assert (Eg : gain = duration p) by lia.
      assert (El : fst (fold_left totalStep l (0, cur')) = sumDurations l) by lia.
      pose proof (proj1 G2 Eg) as Cg. destruct (proj1 R El) as [C N].
      split; [|split; [|exact N]].
      * intros q x Hq [<-|Hx]; [now apply Cg|]. apply C; [now right | exact Hx].
      * intros x Hx. apply C; [now left | exact Hx].
    + intros [C [Cp N]].
      assert (Eg : gain = duration p).
      { apply G2. intros q Hq. apply C; [exact Hq | now left]. }
      assert (El : fst (fold_left totalStep l (0, cur')) = sumDurations l).
      { apply R. split; [|exact N].
        intros q x [<-|Hq] Hx; [now apply Cp|]. apply C; [exact Hq | now right]. }
      lia.
Qed.

Lemma byStartAsc_total (a b : Period) :
  byStartAsc a b = false -> byStartAsc b a = true.
Proof.
  unfold byStartAsc. rewrite Date_leb_false_lt, Date_leb_le.
  unfold Date_lt, Date_le. lia.
Qed.

Lemma byStartAsc_trans (a b c : Period) :
  byStartAsc a b = true -> byStartAsc b c = true -> byStartAsc a c = true.
Proof.
  unfold byStartAsc. rewrite !Date_leb_le. unfold Date_le. lia.
Qed.

(** The aggregator on a list already in its sorted order. *)
Lemma total_sorted (first : Period) (rest : list Period) :
  ForallOrdPairs (fun a b => byStartAsc a b = true) (first :: rest) ->
  Forall wellFormed (first :: rest) ->
  let total := fst (fold_left totalStep (first :: rest) (0, startDate first)) in
  total <= sumDurations (first :: rest)
  /\ (total = sumDurations (first :: rest) <-> noOverlap (first :: rest)).
Proof.
  intros Srt W. inversion W as [|? ? Wp Wl]; subst.
  apply FOP_cons_iff in Srt as [Sp Srt].
  destruct (wellFormed_months Wp) as [Hab Hd].
  assert (St : totalStep (0, startDate first) first
               = (duration first, endDate first)).
  { unfold totalStep.
    assert (Date_ltb (startDate first) (startDate first) = false) as ->
      by (apply Date_ltb_false_le; unfold Date_le; lia).
    destruct (Date_ltb (startDate first) (endDate first)) eqn:E.
    - now rewrite (proj2 Wp).
    - apply Date_ltb_false_le in E.
      assert (Eq : startDate first = endDate first)
        by (apply Date_le_antisym; [apply Wp | exact E]).
      f_equal; [|exact Eq]. rewrite Hd, Eq. lia. }
  cbn [fold_left]. rewrite St, totalStep_from, sumDurations_cons.
  destruct (@total_from rest [first] (endDate first)) as [L R].
  - intros q [<-|[]]. lia.
  - exists first. split; [now left | reflexivity].
  - intros q p [<-|[]] Hp.
    apply (proj1 (Forall_forall _ _) Sp) in Hp.
    unfold byStartAsc in Hp. now apply Date_le_months, Date_leb_le.
  - revert Srt. clear. induction 1 as [|x l Hx Hl IH]; constructor; [|exact IH].
    revert Hx. apply Forall_impl. intros y Hy.
    unfold byStartAsc in Hy. now apply Date_le_months, Date_leb_le.
  - exact Wl.
  - split; [lia|].
    unfold noOverlap. rewrite FOP_cons_iff, Forall_forall.
    split.
    + intros E. assert (El : fst (fold_left totalStep rest (0, endDate first))
                             = sumDurations rest) by lia.
      destruct (proj1 R El) as [C N]. split; [|exact N].
      intros x Hx. apply C; [now left | exact Hx].
    + intros [C N].
      assert (El : fst (fold_left totalStep rest (0, endDate first))
                   = sumDurations rest); [|lia].
      apply R. split; [|exact N]. intros q x [<-|[]] Hx. now apply C.
Qed.

(** C5: for periods whose dates are in order (and whose duration is the
    duration of their dates), the total experience is at most the sum of
    the durations, and equal to it exactly when no two periods overlap. *)
Theorem C5_total_at_most_sum (employmentPeriods : list Period)
  (Hwf : Forall wellFormed employmentPeriods) :
  calculateTotalExperience employmentPeriods <= sumDurations employmentPeriods
  /\ (calculateTotalExperience employmentPeriods
        = sumDurations employmentPeriods
      <-> noOverlap employmentPeriods).
Proof.
  unfold calculateTotalExperience.
  pose proof (sort_perm byStartAsc employmentPeriods) as P.
  pose proof (sort_sorted byStartAsc byStartAsc_total byStartAsc_trans
                employmentPeriods) as Srt.
  assert (W : Forall wellFormed (sort byStartAsc employmentPeriods))
    by (revert Hwf; apply Permutation_Forall; now symmetry).
  rewrite <- (sumDurations_perm P).
  assert (N : noOverlap (sort byStartAsc employmentPeriods)
              <-> noOverlap employmentPeriods).
  { split; apply FOP_perm; try (intros a b; apply overlap_sym);
      [exact P | now symmetry]. }
  rewrite <- N.
  destruct (sort byStartAsc employmentPeriods) as [|first rest].
  - split; [reflexivity|]. split; [constructor | reflexivity].
  - now apply total_sorted.
Qed.

Lemma C5_witness :
  calculateTotalExperience [shortStint None; devAtInitech; longStint None]
  <= sumDurations [shortStint None; devAtInitech; longStint None]
  /\ (calculateTotalExperience [shortStint None; devAtInitech; longStint None]
      = sumDurations [shortStint None; devAtInitech; longStint None]
      <-> noOverlap [shortStint None; devAtInitech; longStint None]).
Proof.
  apply C5_total_at_most_sum.
  repeat constructor.
Defined.

(** Periods that only touch do not overlap and are counted in full;
    periods that share months are counted once. *)
Example touching_periods_add_up :
  ~ overlap janToMar marToJun
  /\ calculateTotalExperience [marToJun; janToMar] = 5
  /\ sumDurations [marToJun; janToMar] = 5.
Proof.
  split; [rewrite overlap_months; vm_compute; discriminate|].
  split; reflexivity.
Qed.

Example shared_months_count_once :
  overlap janToMar febToApr
  /\ calculateTotalExperience [febToApr; janToMar] = 3
  /\ sumDurations [febToApr; janToMar] = 4.
Proof.
  split; [rewrite overlap_months; vm_compute; reflexivity|].
  split; reflexivity.
Qed.

(** ** Examples of the pipeline *)

(** The scenario's first period, as the parser reads it from a line. *)
Example parsed_long_stint :
  parseEmploymentEntry today (u "Engineer") (u "CompanyA")
    (u "Jan 2018 - Dec 2019")
  = Val (Some (mkPeriod jan2018 dec2019 23
                 (u "Engineer | CompanyA | Jan 2018 - Dec 2019")
                 (u "Engineer at CompanyA from Jan 2018 - Dec 2019")
                 (Some (u "Engineer")) (Some (u "CompanyA")))).
Proof. vm_compute. reflexivity. Qed.

(** A company called like a property of [Object.prototype] makes the
    grouping step throw. *)
Example inherited_company_name_throws :
  deduplicateEmploymentPeriods
    [periodOf jan2018 dec2019 None (Some (u "constructor")); devAtInitech]
  = TypeError.
Proof. reflexivity. Qed.

(** Company names that are array indices come first in the result, in
    numeric order. *)
Example index_named_companies_first :
  option_map (map company)
    (match deduplicateEmploymentPeriods
             [devAtInitech;
              periodOf jan2018 dec2019 None (Some (u "42"));
              periodOf jan2018 dec2019 (Some (u "Lead")) (Some (u "7"))] with
     | Val out => Some out
     | TypeError => None
     end)
  = Some [Some (u "7"); Some (u "42"); Some (u "Initech")].
Proof. reflexivity. Qed.

(** ** Total experience as a count of months *)

Lemma monthsFrom_In (n : nat) :
  forall lo k, In k (monthsFrom lo n) <-> lo <= k < lo + Z.of_nat n.
Proof.
  induction n as [|n IH]; intros lo k; cbn [monthsFrom In].
  - lia.
  - rewrite IH. lia.
Qed.

Lemma monthRange_In (lo hi k : Z) : In k (monthRange lo hi) <-> lo <= k < hi.
Proof. unfold monthRange. rewrite monthsFrom_In. lia. Qed.

Lemma monthsFrom_app (n m : nat) :
  forall lo,
    monthsFrom lo (n + m) = monthsFrom lo n ++ monthsFrom (lo + Z.of_nat n) m.
Proof.
  induction n as [|n IH]; intros lo.
  - cbn. now rewrite Z.add_0_r.
  - cbn [Nat.add monthsFrom app]. rewrite IH. do 3 f_equal. lia.
Qed.

Lemma monthRange_app (lo mid hi : Z) :
  lo <= mid <= hi -> monthRange lo hi = monthRange lo mid ++ monthRange mid hi.
Proof.
  intros H. unfold monthRange.
  replace (Z.to_nat (hi - lo)) with (Z.to_nat (mid - lo) + Z.to_nat (hi - mid))%nat
    by lia.
  rewrite monthsFrom_app. do 2 f_equal. lia.
Qed.

Lemma monthsFrom_length (n : nat) : forall lo, length (monthsFrom lo n) = n.
Proof. induction n; intros; cbn; auto. Qed.

Lemma filter_none (A : Type) (f : A -> bool) (l : list A) :
  (forall x, In x l -> f x = false) -> filter f l = [].
Proof.
  induction l as [|x l IH]; intros H; cbn; [reflexivity|].
  rewrite (H x) by now left. apply IH. intros y Hy. apply H. now right.
Qed.

Lemma filter_all (A : Type) (f : A -> bool) (l : list A) :
  (forall x, In x l -> f x = true) -> filter f l = l.
Proof.
  induction l as [|x l IH]; intros H; cbn; [reflexivity|].
  rewrite (H x) by now left. f_equal. apply IH. intros y Hy. apply H. now right.
Qed.

(** The months of a range that lie in [a, b). *)
Lemma count_interval (lo hi a b : Z) :
  lo <= a -> b <= hi ->
  Z.of_nat (length (filter (fun k => (a <=? k) && (k <? b)) (monthRange lo hi)))
  = Z.max 0 (b - a).
Proof.
  intros Ha Hb.
  destruct (Z.le_gt_cases a b) as [Hab|Hab].
  - rewrite (@monthRange_app lo a hi), (@monthRange_app a b hi) by lia.
    rewrite !filter_app.
    rewrite (@filter_none _ _ (monthRange lo a)), (@filter_none _ _ (monthRange b hi)),
      (@filter_all _ _ (monthRange a b)).
    + rewrite app_nil_r. cbn [app]. unfold monthRange.
      rewrite monthsFrom_length. lia.
    + intros k Hk. apply monthRange_In in Hk. lia.
    + intros k Hk. apply monthRange_In in Hk. lia.
    + intros k Hk. apply monthRange_In in Hk. lia.
  - rewrite filter_none; [cbn; lia|].
    intros k _. lia.
Qed.

Lemma count_or (A : Type) (f g : A -> bool) (l : list A) :
  length (filter (fun k => f k || g k) l)
  = (length (filter f l) + length (filter (fun k => g k && negb (f k)) l))%nat.
Proof.
  induction l as [|x l IH]; cbn; [reflexivity|].
  destruct (f x), (g x); cbn; lia.
Qed.

Lemma covered_app (l1 l2 : list Period) (k : Z) :
  covered (l1 ++ l2) k = covered l1 k || covered l2 k.
Proof. unfold covered. apply existsb_app. Qed.

Lemma covered_false (l : list Period) (k : Z) :
  covered l k = false <-> forall q, In q l -> covers q k = false.
Proof.
  unfold covered. induction l as [|p l IH]; cbn.
  - split; [intros _ ? [] | reflexivity].
  - rewrite orb_false_iff, IH. split.
    + intros [H1 H2] q [<-|Hq]; auto.
    + intros H. split; [apply H; now left | intros q Hq; apply H; now right].
Qed.

(** One step of the loop adds the months that [p] covers and the
    periods before it did not. *)
Lemma totalStep_covers (done : list Period) (cur : Date) (p : Period)
    (lo hi : Z) :
  (forall q, In q done -> months (endDate q) <= months cur) ->
  (exists q, In q done /\ endDate q = cur) ->
  (forall q, In q done -> months (startDate q) <= months (startDate p)) ->
  ordered p -> spans lo hi p ->
  let st := totalStep (0, cur) p in
  fst st = coveredMonths (done ++ [p]) lo hi - coveredMonths done lo hi
  /\ (forall q, In q (done ++ [p]) -> months (endDate q) <= months (snd st))
  /\ (exists q, In q (done ++ [p]) /\ endDate q = snd st).
Proof.
  intros I1 (q0 & Hq0 & Eq0) S O [Hlo Hhi].
  apply Date_le_months in O.
  pose proof (I1 _ Hq0) as B0. pose proof (S _ Hq0) as A0.
  assert (G : coveredMonths (done ++ [p]) lo hi - coveredMonths done lo hi
              = Z.max 0 (months (endDate p)
                         - Z.max (months (startDate p)) (months cur))).
  { unfold coveredMonths.
    rewrite (@filter_ext_in _ (covered (done ++ [p]))
               (fun k => covered done k || covers p k)).
    2:{ intros k _. rewrite covered_app. cbn. now rewrite orb_false_r. }
    rewrite count_or, Nat2Z.inj_add.
    rewrite (@filter_ext_in _ (fun k => covers p k && negb (covered done k))
               (fun k => (Z.max (months (startDate p)) (months cur) <=? k)
                         && (k <? months (endDate p)))).
    - rewrite count_interval by lia. lia.
    - intros k _. unfold covers.
      destruct (covered done k) eqn:C.
      + apply existsb_exists in C as (q & Hq & Cq). unfold covers in Cq.
        specialize (I1 _ Hq). lia.
      + pose proof (proj1 (covered_false _ _) C _ Hq0) as C0.
        unfold covers in C0. rewrite Eq0 in C0. lia. }
  rewrite G. unfold totalStep.
  destruct (Date_ltb cur (startDate p)) eqn:E1;
    [|destruct (Date_ltb cur (endDate p)) eqn:E2]; cbn [fst snd].
  - apply Date_ltb_true_months in E1. rewrite calculateDuration_months.
    split; [lia|]. split.
    + intros q Hq. apply in_app_or in Hq as [Hq|[<-|[]]]; [|lia].
      specialize (I1 _ Hq). lia.
    + exists p. split; [apply in_or_app; right; now left | reflexivity].
  - apply Date_ltb_false_months in E1. apply Date_ltb_true_months in E2.
    rewrite calculateDuration_months.
    split; [lia|]. split.
    + intros q Hq. apply in_app_or in Hq as [Hq|[<-|[]]]; [|lia].
      specialize (I1 _ Hq). lia.
    + exists p. split; [apply in_or_app; right; now left | reflexivity].
  - apply Date_ltb_false_months in E1. apply Date_ltb_false_months in E2.
    split; [lia|]. split.
    + intros q Hq. apply in_app_or in Hq as [Hq|[<-|[]]]; [now apply I1 | lia].
    + exists q0. split; [apply in_or_app; now left | assumption].
Qed.

Lemma total_covers_from (l : list Period) (lo hi : Z) :
  forall (done : list Period) (cur : Date),
    (forall q, In q done -> months (endDate q) <= months cur) ->
    (exists q, In q done /\ endDate q = cur) ->
    (forall q p, In q done -> In p l ->
                 months (startDate q) <= months (startDate p)) ->
    ForallOrdPairs
      (fun p q => months (startDate p) <= months (startDate q)) l ->
    Forall ordered l -> Forall (spans lo hi) l ->
    fst (fold_left totalStep l (0, cur))
    = coveredMonths (done ++ l) lo hi - coveredMonths done lo hi.
Proof.
  induction l as [|p l IH]; intros done cur I1 I2 S Srt O B.
  - rewrite app_nil_r. cbn. lia.
  - inversion O as [|? ? Op Ol]; subst. inversion B as [|? ? Bp Bl]; subst.
    apply FOP_cons_iff in Srt as [Sp Srt].
    destruct (@totalStep_covers done cur p lo hi I1 I2) as (G & I1' & I2');
      [intros q Hq; apply S; [exact Hq | now left] | exact Op | exact Bp |].
    cbn [fold_left].
    destruct (totalStep (0, cur) p) as [gain cur'] eqn:St. cbn [fst snd] in *.
    rewrite totalStep_from, (IH (done ++ [p]) cur' I1' I2'); auto.
    + rewrite <- app_assoc. cbn [app]. lia.
    + intros q x Hq Hx. apply in_app_or in Hq as [Hq|[<-|[]]].
      * apply S; [exact Hq | now right].
      * now apply (proj1 (Forall_forall _ _) Sp).
Qed.

Lemma coveredMonths_single (p : Period) (lo hi : Z) :
  ordered p -> spans lo hi p ->
  coveredMonths [p] lo hi = months (endDate p) - months (startDate p).
Proof.
  intros O [Hlo Hhi]. apply Date_le_months in O.
  unfold coveredMonths.
  rewrite (@filter_ext _ (covered [p]) (fun k => (months (startDate p) <=? k)
                             && (k <? months (endDate p)))).
  - rewrite count_interval by lia. lia.
  - intros k. cbn. now rewrite orb_false_r.
Qed.

Lemma coveredMonths_ext (l l' : list Period) (lo hi : Z) :
  (forall k, covered l k = covered l' k) ->
  coveredMonths l lo hi = coveredMonths l' lo hi.
Proof.
  intros H. unfold coveredMonths. f_equal. f_equal. now apply filter_ext.
Qed.

Lemma covered_true (l : list Period) (k : Z) :
  covered l k = true <-> exists q, In q l /\ covers q k = true.
Proof. unfold covered. apply existsb_exists. Qed.

Lemma covered_same_members (l l' : list Period) :
  (forall p, In p l <-> In p l') -> forall k, covered l k = covered l' k.
Proof.
  intros H k. apply eq_true_iff_eq. rewrite !covered_true.
  split; intros (q & Hq & C); exists q; (split; [now apply H | exact C]).
Qed.

Lemma total_covers_sorted (first : Period) (rest : list Period) (lo hi : Z) :
  ForallOrdPairs (fun a b => byStartAsc a b = true) (first :: rest) ->
  Forall ordered (first :: rest) -> Forall (spans lo hi) (first :: rest) ->
  fst (fold_left totalStep (first :: rest) (0, startDate first))
  = coveredMonths (first :: rest) lo hi.
Proof.
  intros Srt O B. inversion O as [|? ? Op Ol]; subst.
  inversion B as [|? ? Bp Bl]; subst.
  apply FOP_cons_iff in Srt as [Sp Srt].
  assert (St : totalStep (0, startDate first) first
               = (months (endDate first) - months (startDate first),
                  endDate first)).
  { unfold totalStep.
    assert (Date_ltb (startDate first) (startDate first) = false) as ->
      by (apply Date_ltb_false_le; unfold Date_le; lia).
    destruct (Date_ltb (startDate first) (endDate first)) eqn:E.
    - now rewrite calculateDuration_months.
    - apply Date_ltb_false_le in E.
      assert (Eq : startDate first = endDate first)
        by (apply Date_le_antisym; [apply Op | exact E]).
      f_equal; [|exact Eq]. rewrite Eq. lia. }
  cbn [fold_left]. rewrite St, totalStep_from.
  rewrite (@total_covers_from rest lo hi [first] (endDate first)); auto.
  - rewrite coveredMonths_single by assumption. cbn [app]. lia.
  - intros q [<-|[]]. lia.
  - exists first. split; [now left | reflexivity].
  - intros q p [<-|[]] Hp.
    apply (proj1 (Forall_forall _ _) Sp) in Hp.
    unfold byStartAsc in Hp. now apply Date_le_months, Date_leb_le.
  - revert Srt. clear. induction 1 as [|x l Hx Hl IH]; constructor; [|exact IH].
    revert Hx. apply Forall_impl. intros y Hy.
    unfold byStartAsc in Hy. now apply Date_le_months, Date_leb_le.
Qed.

(** The total experience is the number of months covered by at least one
    period. *)
Lemma total_covers (l : list Period) (lo hi : Z) :
  Forall ordered l -> Forall (spans lo hi) l ->
  calculateTotalExperience l = coveredMonths l lo hi.
Proof.
  intros O B. unfold calculateTotalExperience.
  pose proof (sort_perm byStartAsc l) as P.
  pose proof (sort_sorted byStartAsc byStartAsc_total byStartAsc_trans l) as Srt.
  assert (O' : Forall ordered (sort byStartAsc l))
    by (revert O; apply Permutation_Forall; now symmetry).
  assert (B' : Forall (spans lo hi) (sort byStartAsc l))
    by (revert B; apply Permutation_Forall; now symmetry).
  rewrite <- (@coveredMonths_ext (sort byStartAsc l) l).
  2:{ apply covered_same_members. intros p. apply sort_In. }
  destruct (sort byStartAsc l) as [|first rest].
  - unfold coveredMonths. rewrite filter_none; [reflexivity|]. reflexivity.
  - now apply total_covers_sorted.
Qed.

Lemma spans_exist (l : list Period) : exists lo hi, Forall (spans lo hi) l.
Proof.
  induction l as [|p l (lo & hi & IH)].
  - exists 0, 0. constructor.
  - exists (Z.min lo (months (startDate p))), (Z.max hi (months (endDate p))).
    constructor; [unfold spans; lia|].
    revert IH. apply Forall_impl. unfold spans. lia.
Qed.

Lemma coveredMonths_le (l l' : list Period) (lo hi : Z) :
  (forall k, covered l k = true -> covered l' k = true) ->
  coveredMonths l lo hi <= coveredMonths l' lo hi.
Proof.
  intros H. unfold coveredMonths. apply inj_le.
  induction (monthRange lo hi) as [|k r IH]; cbn; [lia|].
  destruct (covered l k) eqn:C.
  - rewrite (H _ C). cbn. lia.
  - destruct (covered l' k); cbn; lia.
Qed.

Lemma covered_incl (l l' : list Period) (k : Z) :
  (forall p, In p l -> In p l') -> covered l k = true -> covered l' k = true.
Proof.
  intros H. rewrite !covered_true. intros (q & Hq & C). exists q. auto.
Qed.

(** X1: for periods whose dates are in order, the total experience is
    the number of calendar months covered by at least one period, a
    period covering the months from that of its start up to, and
    without, that of its end; so it is never negative and never more
    than the months from the earliest start to the latest end. *)
Theorem X1_total_is_covered_months (employmentPeriods : list Period) (lo hi : Z)
  (Hord : Forall ordered employmentPeriods)
  (Hspan : Forall (spans lo hi) employmentPeriods) :
  calculateTotalExperience employmentPeriods
  = coveredMonths employmentPeriods lo hi
  /\ 0 <= calculateTotalExperience employmentPeriods <= Z.max 0 (hi - lo).
Proof.
  rewrite (total_covers Hord Hspan).
  split; [reflexivity|].
  unfold coveredMonths.
  pose proof (filter_length_le (covered employmentPeriods) (monthRange lo hi))
    as H.
  unfold monthRange in H at 2. rewrite monthsFrom_length in H.
  lia.
Qed.

Lemma X1_total_is_covered_months_witness :
  calculateTotalExperience [febToApr; janToMar; marToJun]
  = coveredMonths [febToApr; janToMar; marToJun] (2018 * 12) (2019 * 12)
  /\ 0 <= calculateTotalExperience [febToApr; janToMar; marToJun]
     <= Z.max 0 (2019 * 12 - 2018 * 12).
Proof.
  apply X1_total_is_covered_months.
  - repeat constructor; vm_compute; intuition discriminate.
  - repeat constructor; vm_compute; discriminate.
Defined.

(** X2: the total experience does not depend on the order in which
    the periods are given. *)
Theorem X2_total_order_independent (l l' : list Period)
  (Hord : Forall ordered l) (Hperm : Permutation l l') :
  calculateTotalExperience l = calculateTotalExperience l'.
Proof.
  destruct (spans_exist l) as (lo & hi & B).
  rewrite (@total_covers l lo hi), (@total_covers l' lo hi);
    try (eapply Permutation_Forall; eassumption); try assumption.
  apply coveredMonths_ext, covered_same_members.
  intros p. split; apply Permutation_in; [exact Hperm | now symmetry].
Qed.

Lemma X2_total_order_independent_witness :
  calculateTotalExperience [febToApr; janToMar; marToJun]
  = calculateTotalExperience [marToJun; febToApr; janToMar].
Proof.
  apply X2_total_order_independent.
  - repeat constructor; vm_compute; intuition discriminate.
  - apply Permutation_sym, (Permutation_cons_app [febToApr; janToMar] []).
    apply Permutation_refl.
Defined.

(** X3: a period that lies within another period of the list adds
    nothing to the total experience. *)
Theorem X3_total_ignores_contained (p q : Period) (l : list Period)
  (Hord : Forall ordered (p :: l)) (Hq : In q l) (Hin : within p q) :
  calculateTotalExperience (p :: l) = calculateTotalExperience l.
Proof.
  destruct (spans_exist (p :: l)) as (lo & hi & B).
  rewrite (@total_covers (p :: l) lo hi), (@total_covers l lo hi);
    try assumption; try (now inversion Hord); try (now inversion B).
  apply coveredMonths_ext. intros k. apply eq_true_iff_eq.
  rewrite !covered_true. split.
  - intros (x & [<-|Hx] & C); [|eauto].
    exists q. split; [exact Hq|].
    destruct Hin as [Hs He]. apply Date_le_months in Hs, He.
    unfold covers in *. lia.
  - intros (x & Hx & C). exists x. split; [now right | exact C].
Qed.

Lemma X3_total_ignores_contained_witness :
  calculateTotalExperience [internAtInitech; devAtAcme]
  = calculateTotalExperience [devAtAcme].
Proof.
  apply (@X3_total_ignores_contained internAtInitech devAtAcme).
  - repeat constructor; vm_compute; intuition discriminate.
  - now left.
  - split; vm_compute; intuition discriminate.
Defined.

(** X4: deduplicating first, as [analyzeEmploymentHistory] does, never
    raises the total experience. *)
Theorem X4_dedup_never_raises_total (periods out : list Period)
  (Hord : Forall ordered periods)
  (Hout : deduplicateEmploymentPeriods periods = Val out) :
  calculateTotalExperience out <= calculateTotalExperience periods.
Proof.
  destruct (dedup_incl _ Hout) as [_ I].
  destruct (spans_exist periods) as (lo & hi & B).
  rewrite (@total_covers periods lo hi), (@total_covers out lo hi);
    try assumption.
  - apply coveredMonths_le. intros k. now apply covered_incl.
  - apply Forall_forall. intros p Hp.
    apply (proj1 (Forall_forall _ _) Hord). now apply I.
  - apply Forall_forall. intros p Hp.
    apply (proj1 (Forall_forall _ _) B). now apply I.
Qed.

Lemma X4_dedup_never_raises_total_witness :
  calculateTotalExperience [internAtInitech]
  <= calculateTotalExperience [devAtAcme; leadAtAcme; internAtInitech].
Proof.
  apply (@X4_dedup_never_raises_total [devAtAcme; leadAtAcme; internAtInitech]).
  - repeat constructor; vm_compute; intuition discriminate.
  - reflexivity.
Defined.

(** ** Career gaps *)

Lemma byEndAsc_total (a b : Period) :
  byEndAsc a b = false -> byEndAsc b a = true.
Proof.
  unfold byEndAsc. rewrite Date_leb_false_lt, Date_leb_le.
  unfold Date_lt, Date_le. lia.
Qed.

Lemma byEndAsc_trans (a b c : Period) :
  byEndAsc a b = true -> byEndAsc b c = true -> byEndAsc a c = true.
Proof.
  unfold byEndAsc. rewrite !Date_leb_le. unfold Date_le. lia.
Qed.






(** X6: the threshold of the gap finder: for two periods, the first
    ending no later than the second, a gap is reported exactly when the
    month of the second start is at least 3 months after the month of
    the first end, and that gap runs between these two dates. *)
Theorem X6_gap_threshold_of_two (p q : Period)
  (Hpq : Date_le (endDate p) (endDate q)) :
  identifyCareerGaps [p; q]
  = if 3 <=? months (startDate q) - months (endDate p)
    then [gapBetween p q] else [].
Proof.
  unfold identifyCareerGaps. cbn [length Nat.leb sort insert].
  unfold byEndAsc at 1. rewrite (proj2 (Date_leb_le _ _) Hpq).
  cbn [gapsOf]. unfold gapBetween, separation.
  now rewrite calculateDuration_months.
Qed.

Lemma X6_gap_threshold_of_two_witness :
  identifyCareerGaps [janToMar; mayToAug] = []
  /\ identifyCareerGaps [janToMar; junToSep] = [gapBetween janToMar junToSep].
Proof.
  split.
  - apply (@X6_gap_threshold_of_two janToMar mayToAug).
    vm_compute. intuition discriminate.
  - apply (@X6_gap_threshold_of_two janToMar junToSep).
    vm_compute. intuition discriminate.
Defined.

Section SortedUnique.
Variable A : Type.
Variable cmp : A -> A -> bool.

(** Two sorted lists with the same elements are equal when the order
    decides between any two different elements. *)
Lemma sorted_perm_eq (l1 : list A) :
  forall l2,
    (forall a b, In a l1 -> In b l1 ->
                 cmp a b = true -> cmp b a = true -> a = b) ->
    ForallOrdPairs (fun a b => cmp a b = true) l1 ->
    ForallOrdPairs (fun a b => cmp a b = true) l2 ->
    Permutation l1 l2 -> l1 = l2.
Proof.
  induction l1 as [|a r1 IH]; intros l2 Anti S1 S2 P.
  - apply Permutation_nil in P. now subst.
  - destruct l2 as [|b r2]; [now apply Permutation_sym, Permutation_nil_cons in P|].
    apply FOP_cons_iff in S1 as [Ha S1]. apply FOP_cons_iff in S2 as [Hb S2].
    assert (E : a = b).
    { assert (Ia : In a (b :: r2)) by (apply (Permutation_in _ P); now left).
      assert (Ib : In b (a :: r1))
        by (apply (Permutation_in _ (Permutation_sym P)); now left).
      destruct Ia as [->|Ia]; [reflexivity|].
      destruct Ib as [->|Ib]; [reflexivity|].
      apply Anti; [now left | now right | |].
      - now apply (proj1 (Forall_forall _ _) Ha).
      - now apply (proj1 (Forall_forall _ _) Hb). }
    subst b. f_equal. apply IH; auto.
    + intros x y Hx Hy. apply Anti; now right.
    + now apply Permutation_cons_inv in P.
Qed.
End SortedUnique.

(** X7: when no two periods end at the same instant, the gaps reported
    do not depend on the order in which the periods are given. *)
Theorem X7_gaps_order_independent (l l' : list Period)
  (Hends : NoDup (map endDate l)) (Hperm : Permutation l l') :
  identifyCareerGaps l = identifyCareerGaps l'.
Proof.
  unfold identifyCareerGaps.
  rewrite <- (Permutation_length Hperm).
  destruct (length l <=? 1)%nat; [reflexivity|].
  f_equal. apply (@sorted_perm_eq _ byEndAsc).
  - intros a b Ha Hb Hab Hba.
    apply (proj1 (sort_In byEndAsc _ _)) in Ha.
    apply (proj1 (sort_In byEndAsc _ _)) in Hb.
    unfold byEndAsc in Hab, Hba.
    apply Date_leb_le in Hab. apply Date_leb_le in Hba.
    apply (NoDup_map_injective_on _ _ Hends); try assumption.
    now apply Date_le_antisym.
  - apply sort_sorted; [exact byEndAsc_total | exact byEndAsc_trans].
  - apply sort_sorted; [exact byEndAsc_total | exact byEndAsc_trans].
  - transitivity l; [apply sort_perm|].
    transitivity l'; [exact Hperm | symmetry; apply sort_perm].
Qed.

Lemma X7_gaps_order_independent_witness :
  identifyCareerGaps [junToSep; janToMar]
  = identifyCareerGaps [janToMar; junToSep].
Proof.
  apply X7_gaps_order_independent.
  - repeat constructor; cbn; intuition discriminate.
  - apply perm_swap.
Defined.

(** ** Progression flag and pattern *)

(** X8: the analyzer reports progression exactly when its pattern
    begins with "Upward". *)
Theorem X8_progression_flag_is_upward (employmentPeriods : list Period) :
  hasProgression (analyzeCareerProgression employmentPeriods)
  = Str.startsWith (u "Upward")
      (pattern (analyzeCareerProgression employmentPeriods)).
Proof.
  unfold analyzeCareerProgression.
  destruct (length employmentPeriods <=? 1)%nat; [reflexivity|].
  destruct (2 <=? _)%nat.
  - destruct (countChanges _ _) as [increases decreases].
    destruct (decreases <? increases)%nat;
      [|destruct (increases <? decreases)%nat];
      match goal with
      | |- context [if ?b then _ else _] => destruct b
      end; reflexivity.
  - match goal with
    | |- context [if ?b then _ else _] => destruct b
    end; reflexivity.
Qed.

Lemma titleProgressionOf_levels (l : list Period) :
  Forall plainTitle l ->
  Forall (fun t => tl_level t = 2) (titleProgressionOf l).
Proof.
  induction 1 as [|p l Hp Hl IH]; cbn [titleProgressionOf]; [constructor|].
  destruct (jobTitle p) as [[|c r]|] eqn:T; try exact IH.
  constructor; [|exact IH].
  cbn [tl_level]. unfold levelScoreOf, titleLevels.
  cbn [fold_left levelStep].
  assert (W : forall w, In w seniorityWords -> Str.includes w (c :: r) = false)
    by (intros w; now apply Hp).
  rewrite !W by (cbn; tauto).
  destruct (Str.includes (u "junior") (c :: r)), (Str.includes (u "") (c :: r));
    reflexivity.
Qed.

Lemma countChanges_level (l : list TitleLevel) :
  forall acc, Forall (fun t => tl_level t = 2) l -> countChanges l acc = acc.
Proof.
  induction l as [|a l IH]; intros acc F; [reflexivity|].
  destruct l as [|b l]; [reflexivity|].
  inversion F as [|? ? Ha F']; subst. inversion F' as [|? ? Hb _]; subst.
  change (countChanges (a :: b :: l) acc)
    with (let '(increases, decreases) := acc in
          if tl_level a <? tl_level b
          then countChanges (b :: l) (S increases, decreases)
          else if tl_level b <? tl_level a
               then countChanges (b :: l) (increases, S decreases)
               else countChanges (b :: l) acc).
  destruct acc as [increases decreases]. rewrite Ha, Hb. cbn [Z.ltb Z.compare].
  now apply IH.
Qed.

(** X9: when no title holds, in lower case, one of the words senior,
    lead, principal, manager, director, vp or cto, every title is
    scored 2 and the analyzer never reports progression, whatever the
    order of the jobs: the pattern begins with "Stable" (or is
    "Insufficient data").  Titles written with capitals are such
    titles. *)
Theorem X9_plain_titles_never_progress (employmentPeriods : list Period)
  (Hplain : Forall plainTitle employmentPeriods) :
  hasProgression (analyzeCareerProgression employmentPeriods) = false
  /\ In (pattern (analyzeCareerProgression employmentPeriods))
        [u "Insufficient data"; u "Stable"; u "Stable, Frequent changes"].
Proof.
  unfold analyzeCareerProgression.
  destruct (length employmentPeriods <=? 1)%nat; [split; [reflexivity | now left]|].
  assert (C : countChanges
                (sort byDateAsc (titleProgressionOf employmentPeriods))
                (0, 0)%nat = (0, 0)%nat).
  { apply countChanges_level.
    apply (Permutation_Forall
             (Permutation_sym (sort_perm byDateAsc _))).
    now apply titleProgressionOf_levels. }
  destruct (2 <=? _)%nat; [rewrite C|];
    match goal with
    | |- context [if ?b || ?c then _ else _] => destruct (b || c)
    end; split; try reflexivity; vm_compute; tauto.
Qed.

Lemma X9_plain_titles_never_progress_witness :
  hasProgression (analyzeCareerProgression [juniorDeveloper; seniorEngineer])
  = false
  /\ In (pattern (analyzeCareerProgression [juniorDeveloper; seniorEngineer]))
        [u "Insufficient data"; u "Stable"; u "Stable, Frequent changes"].
Proof.
  apply X9_plain_titles_never_progress.
  repeat constructor; intros t w [= <-] Hw;
    repeat (destruct Hw as [<-|Hw]; [reflexivity|]); destruct Hw.
Defined.

(** X10: the caller's test [pattern.includes("Frequent changes")] holds
    exactly when at least three periods are shorter than 12 months, or
    two are and there are three or four periods in all. *)
Theorem X10_frequent_changes_flag (employmentPeriods : list Period) :
  Str.includes (u "Frequent changes")
    (pattern (analyzeCareerProgression employmentPeriods)) = true
  <-> (3 <= shortTermJobs employmentPeriods
       \/ (shortTermJobs employmentPeriods = 2
           /\ 3 <= length employmentPeriods <= 4))%nat.
Proof.
  pose proof (filter_length_le (fun p => duration p <? 12) employmentPeriods)
    as Hle.
  unfold analyzeCareerProgression, shortTermJobs in *.
  destruct (length employmentPeriods <=? 1)%nat eqn:L.
  - apply Nat.leb_le in L. cbn [pattern].
    split; [intros H; vm_compute in H; discriminate H | lia].
  - apply Nat.leb_gt in L.
    set (short := length (filter _ employmentPeriods)) in *.
    set (n := length employmentPeriods) in *.
    assert (J : (3 <=? short)%nat || ((3 <=? n)%nat && (n <=? 2 * short)%nat)
                = true
                <-> (3 <= short \/ (short = 2 /\ 3 <= n <= 4))%nat).
    { rewrite orb_true_iff, andb_true_iff, !Nat.leb_le. lia. }
    rewrite <- J. clear J.
    destruct ((3 <=? short)%nat || ((3 <=? n)%nat && (n <=? 2 * short)%nat)).
    + split; [reflexivity|]. intros _.
      destruct (2 <=? _)%nat.
      * destruct (countChanges _ _) as [increases decreases].
        destruct (decreases <? increases)%nat;
          [|destruct (increases <? decreases)%nat]; reflexivity.
      * reflexivity.
    + split; [|discriminate]. intros H. exfalso. revert H.
      destruct (2 <=? _)%nat.
      * destruct (countChanges _ _) as [increases decreases].
        destruct (decreases <? increases)%nat;
          [|destruct (increases <? decreases)%nat]; discriminate.
      * discriminate.
Qed.

Lemma X10_frequent_changes_flag_witness :
  Str.includes (u "Frequent changes")
    (pattern (analyzeCareerProgression [janToMar; marToJun; seniorEngineer]))
  = true.
Proof.
  apply (proj2 (X10_frequent_changes_flag [janToMar; marToJun; seniorEngineer])).
  right. vm_compute. repeat split; repeat constructor.
Defined.

(** ** Input validation *)

Lemma dropSpaces_nil (s : str) :
  Str.dropSpaces s = [] <-> forallb Str.isSpace s = true.
Proof.
  induction s as [|c s IH]; cbn [Str.dropSpaces forallb]; [tauto|].
  destruct (Str.isSpace c); cbn [andb]; [exact IH|].
  split; discriminate.
Qed.

Lemma dropSpaces_spaces (s : str) :
  forallb Str.isSpace (Str.dropSpaces s) = forallb Str.isSpace s.
Proof.
  induction s as [|c s IH]; cbn [Str.dropSpaces]; [reflexivity|].
  destruct (Str.isSpace c) eqn:E; cbn [forallb]; rewrite E; [exact IH|].
  reflexivity.
Qed.

Lemma forallb_rev (A : Type) (f : A -> bool) (l : list A) :
  forallb f (rev l) = forallb f l.
Proof.
  induction l as [|x l IH]; [reflexivity|].
  cbn [rev forallb]. rewrite forallb_app, IH. cbn [forallb].
  destruct (f x), (forallb f l); reflexivity.
Qed.

Lemma trim_nil (s : str) :
  Str.trim s = [] <-> forallb Str.isSpace s = true.
Proof.
  unfold Str.trim.
  rewrite <- (dropSpaces_spaces s), <- (forallb_rev _ (Str.dropSpaces s)).
  rewrite <- dropSpaces_nil.
  split; [|intros ->; reflexivity].
  intros H. apply (f_equal (@rev Str.char)) in H.
  now rewrite rev_involutive in H.
Qed.

(** X11: the validation accepts a text exactly when it holds a
    character that is not white space; the empty text and the texts of
    spaces, tabs and line breaks only are refused. *)
Theorem X11_validateInput_accepts_non_blank (text type : str) :
  validateInput text type = true
  <-> exists c, In c text /\ Str.isSpace c = false.
Proof.
  assert (T : validateInput text type = true <-> Str.trim text <> []).
  { unfold validateInput. destruct text as [|c s].
    - split; [discriminate | intros H; now contradiction H].
    - destruct (Str.trim (c :: s)); split; try discriminate; try reflexivity.
      intros H. now contradiction H. }
  rewrite T, trim_nil. split.
  - intros H. destruct (forallb Str.isSpace text) eqn:F; [now contradiction H|].
    clear H T. induction text as [|c s IH]; [discriminate|].
    cbn [forallb] in F. destruct (Str.isSpace c) eqn:E.
    + destruct (IH F) as (x & Hx & Ex). exists x. split; [now right | exact Ex].
    + exists c. split; [now left | exact E].
  - intros (c & Hc & E) F.
    rewrite forallb_forall in F. specialize (F c Hc). congruence.
Qed.

Lemma X11_validateInput_accepts_non_blank_witness :
  validateInput (u "  Python developer ") (u "Resume") = true.
Proof.
  apply (proj2 (X11_validateInput_accepts_non_blank
                  (u "  Python developer ") (u "Resume"))).
  exists 80%N. split; [vm_compute; tauto | reflexivity].
Defined.
